(** * Carmen: archive, MPT state adapter, code file and cached index

    A shallow embedding of four parts of the Carmen state store and the
    properties their documentation promises:

    - [Archive]   : cpp/state/archive.cc, the SQLite backed block archive;
    - [Mpt]       : go/state/mpt/state.go, the [MptState] adapter and the
                    code file reader [readCodes];
    - [CacheIndex]: go/backend/index/cache/cacheindex.go, the cache wrapped
                    index.

    Fixed-width byte arrays (addresses, keys, hashes, balances, nonces,
    values) are represented by the integer they spell in big-endian order;
    the all-zero array is [0] and the byte-wise order of two arrays of one
    width is the order of the integers. *)

From Stdlib Require Import ZArith String Lia.
From stdpp Require Import base tactics option list gmap strings numbers.

Local Open Scope Z_scope.

#[local] Set Warnings "-clear-no-such-hyp".

Abbreviation Address := Z (only parsing).
Abbreviation Key := Z (only parsing).
Abbreviation Hash := Z (only parsing).
Abbreviation Balance := Z (only parsing).
Abbreviation Nonce := Z (only parsing).
Abbreviation Value := Z (only parsing).
Abbreviation Code := (list Byte.byte) (only parsing).

(** ** Sorting, as used for the ORDER BY clauses *)

Section order_by.
Context {A : Type} (le : A → A → bool).

Fixpoint insert_by (x : A) (l : list A) : list A :=
  match l with
  | [] => [x]
  | y :: l' => if le x y then x :: l else y :: insert_by x l'
  end.

Definition order_by (l : list A) : list A := foldr insert_by [] l.

End order_by.

(** SQL aggregate MAX over a column: NULL on no rows. *)
Definition sql_max (l : list Z) : option Z :=
  foldr (λ x acc, Some (match acc with None => x | Some y => Z.max x y end)) None l.

(** SQL IFNULL. *)
Definition IFNULL {A : Type} (o : option A) (d : A) : A := default d o.

(** SELECT DISTINCT on a column. *)
Definition distinct (l : list Z) : list Z := remove_dups l.

Module Archive.

(** ** Status values (absl::Status) *)

(** The status codes in use; [SqliteError] stands for a status reported by
    the SQLite wrapper (backend/common/sqlite). *)
Inductive Error : Type :=
| FailedPreconditionError (msg : string)
| InternalError (msg : string)
| SqliteError (msg : string).

Inductive Status : Type :=
| OkStatus
| NotOk (e : Error).
Coercion NotOk : Error >-> Status.

(** absl::StatusOr: a value or a status that is not OK. *)
Inductive StatusOr (A : Type) : Type :=
| Val (a : A)
| Err (e : Error).
Arguments Val {A} a.
Arguments Err {A} e.

Definition is_failed_precondition (s : Status) : bool :=
  match s with NotOk (FailedPreconditionError _) => true | _ => false end.

(** ** Integer types of the block number

    [BlockId] is the unsigned 32-bit block number of common/type.h.  The
    archive converts it with [std::int64_t(block)], which keeps its value,
    and with [static_cast<int>(block)], which wraps into the signed 32-bit
    range. *)

Abbreviation BlockId := Z (only parsing).

Definition to_BlockId (z : Z) : BlockId := z mod 2 ^ 32.
Definition to_int (z : Z) : Z := (z + 2 ^ 31) mod 2 ^ 32 - 2 ^ 31.
Definition to_int64 (z : Z) : Z := (z + 2 ^ 63) mod 2 ^ 64 - 2 ^ 63.

Definition is_BlockId (b : Z) : Prop := 0 ≤ b < 2 ^ 32.

(** ** Tables *)

(** A row of one of the tables whose primary key is (account, block):
    account_hash, status, balance, nonce and code. *)
Record Row (V : Type) : Type := mkRow {
  r_account : Address;
  r_block : Z;
  r_value : V;
}.
Arguments mkRow {V} _ _ _.
Arguments r_account {V} _.
Arguments r_block {V} _.
Arguments r_value {V} _.

(** The columns exist and reincarnation of the status table. *)
Record StatusInfo : Type := mkStatusInfo {
  exist : Z;
  reincarnation : Z;
}.

(** A row of the storage table, primary key
    (account, reincarnation, slot, block). *)
Record StorageRow : Type := mkStorageRow {
  s_account : Address;
  s_reincarnation : Z;
  s_slot : Key;
  s_block : Z;
  s_value : Value;
}.

(** The database behind an archive: its seven tables, whether a transaction
    is open, and the lines PRAGMA integrity_check reports. *)
Record Sqlite : Type := mkSqlite {
  tbl_block : list Z;
  tbl_account_hash : list (Row Hash);
  tbl_status : list (Row StatusInfo);
  tbl_balance : list (Row Balance);
  tbl_code : list (Row Code);
  tbl_nonce : list (Row Nonce);
  tbl_storage : list StorageRow;
  in_transaction : bool;
  integrity_check : list string;
}.

Definition set_block (t : list Z) (db : Sqlite) : Sqlite :=
  mkSqlite t (tbl_account_hash db) (tbl_status db) (tbl_balance db)
    (tbl_code db) (tbl_nonce db) (tbl_storage db) (in_transaction db)
    (integrity_check db).
Definition set_account_hash (t : list (Row Hash)) (db : Sqlite) : Sqlite :=
  mkSqlite (tbl_block db) t (tbl_status db) (tbl_balance db)
    (tbl_code db) (tbl_nonce db) (tbl_storage db) (in_transaction db)
    (integrity_check db).
Definition set_status (t : list (Row StatusInfo)) (db : Sqlite) : Sqlite :=
  mkSqlite (tbl_block db) (tbl_account_hash db) t (tbl_balance db)
    (tbl_code db) (tbl_nonce db) (tbl_storage db) (in_transaction db)
    (integrity_check db).
Definition set_balance (t : list (Row Balance)) (db : Sqlite) : Sqlite :=
  mkSqlite (tbl_block db) (tbl_account_hash db) (tbl_status db) t
    (tbl_code db) (tbl_nonce db) (tbl_storage db) (in_transaction db)
    (integrity_check db).
Definition set_code (t : list (Row Code)) (db : Sqlite) : Sqlite :=
  mkSqlite (tbl_block db) (tbl_account_hash db) (tbl_status db)
    (tbl_balance db) t (tbl_nonce db) (tbl_storage db) (in_transaction db)
    (integrity_check db).
Definition set_nonce (t : list (Row Nonce)) (db : Sqlite) : Sqlite :=
  mkSqlite (tbl_block db) (tbl_account_hash db) (tbl_status db)
    (tbl_balance db) (tbl_code db) t (tbl_storage db) (in_transaction db)
    (integrity_check db).
Definition set_storage (t : list StorageRow) (db : Sqlite) : Sqlite :=
  mkSqlite (tbl_block db) (tbl_account_hash db) (tbl_status db)
    (tbl_balance db) (tbl_code db) (tbl_nonce db) t (in_transaction db)
    (integrity_check db).
Definition set_in_transaction (t : bool) (db : Sqlite) : Sqlite :=
  mkSqlite (tbl_block db) (tbl_account_hash db) (tbl_status db)
    (tbl_balance db) (tbl_code db) (tbl_nonce db) (tbl_storage db) t
    (integrity_check db).

(** The database created by [Open] on a file that does not exist yet: the
    CREATE TABLE IF NOT EXISTS statements leave seven empty tables. *)
Definition empty_db : Sqlite :=
  mkSqlite [] [] [] [] [] [] [] false ["ok"%string].

(** ** Statements *)

(** Running a statement: the database after it and its result.  A failed
    statement leaves the rows written before it in place. *)
Definition Sql (A : Type) : Type := Sqlite → Sqlite * StatusOr A.

Definition sql_ret {A} (a : A) : Sql A := λ db, (db, Val a).
Definition sql_bind {A B} (f : A → Sql B) (m : Sql A) : Sql B :=
  λ db, match m db with
        | (db', Val a) => f a db'
        | (db', Err e) => (db', Err e)
        end.
Definition sql_fail {A} (e : Error) : Sql A := λ db, (db, Err e).
Definition sql_read {A} (q : Sqlite → A) : Sql A := λ db, (db, Val (q db)).

#[global] Instance Sql_ret : MRet Sql := @sql_ret.
#[global] Instance Sql_bind : MBind Sql := @sql_bind.

Fixpoint for_each {A} (l : list A) (body : A → Sql ()) : Sql () :=
  match l with
  | [] => mret ()
  | x :: l' => body x ;; for_each l' body
  end.

(** INSERT into a table under its primary key constraint. *)
Definition insert_pk {R K : Type} `{EqDecision K} (key : R → K)
    (r : R) (tbl : list R) : option (list R) :=
  if decide (key r ∈ (key <$> tbl)) then None else Some (tbl ++ [r]).

Definition constraint_failed : Error :=
  SqliteError "UNIQUE constraint failed".

Definition row_key {V} (r : Row V) : Z * Z := (r_account r, r_block r).
Definition storage_key (r : StorageRow) : Z * Z * Z * Z :=
  (s_account r, s_reincarnation r, s_slot r, s_block r).

Definition run_insert {R K : Type} `{EqDecision K} (key : R → K)
    (get : Sqlite → list R) (set : list R → Sqlite → Sqlite) (r : R) : Sql () :=
  λ db, match insert_pk key r (get db) with
        | Some t => (set t db, Val ())
        | None => (db, Err constraint_failed)
        end.

(** db_.Run("BEGIN TRANSACTION") and db_.Run("END TRANSACTION"). *)
Definition begin_transaction : Sql () :=
  λ db, if in_transaction db
        then (db, Err (SqliteError "cannot start a transaction within a transaction"))
        else (set_in_transaction true db, Val ()).
Definition end_transaction : Sql () :=
  λ db, if in_transaction db
        then (set_in_transaction false db, Val ())
        else (db, Err (SqliteError "cannot commit - no transaction is active")).

(** kAddBlockStmt *)
Definition add_block_stmt (number : Z) : Sql () :=
  run_insert (λ n : Z, n) tbl_block set_block number.

(** kGetBlockHeightStmt:
    SELECT number FROM block ORDER BY number DESC LIMIT 1 *)
Definition get_block_height_stmt (db : Sqlite) : option Z :=
  head (order_by (λ x y, bool_decide (y ≤ x)) (tbl_block db)).

(** The shape shared by kGetAccountHashStmt, kGetStatusStmt,
    kGetBalanceStmt, kGetCodeStmt and kGetNonceStmt:
    SELECT .. FROM t WHERE account = ? AND block <= ?
    ORDER BY block DESC LIMIT 1 *)
Definition select_latest {V} (tbl : list (Row V)) (account : Address)
    (block : Z) : option (Row V) :=
  head (order_by (λ r1 r2, bool_decide (r_block r2 ≤ r_block r1))
          (filter (λ r, r_account r = account ∧ r_block r ≤ block) tbl)).

(** kAddAccountHashStmt, kAddBalanceStmt, kAddCodeStmt, kAddNonceStmt *)
Definition add_account_hash_stmt (account : Address) (block : Z) (h : Hash) : Sql () :=
  run_insert row_key tbl_account_hash set_account_hash (mkRow account block h).
Definition add_balance_stmt (account : Address) (block : Z) (v : Balance) : Sql () :=
  run_insert row_key tbl_balance set_balance (mkRow account block v).
Definition add_code_stmt (account : Address) (block : Z) (v : Code) : Sql () :=
  run_insert row_key tbl_code set_code (mkRow account block v).
Definition add_nonce_stmt (account : Address) (block : Z) (v : Nonce) : Sql () :=
  run_insert row_key tbl_nonce set_nonce (mkRow account block v).

(** SELECT IFNULL(MAX(reincarnation)+1,0) FROM status WHERE account = ? *)
Definition next_reincarnation (tbl : list (Row StatusInfo)) (account : Address) : Z :=
  IFNULL ((λ m, m + 1) <$>
          sql_max ((λ r, reincarnation (r_value r)) <$>
                   filter (λ r, r_account r = account) tbl)) 0.

(** SELECT IFNULL(MAX(reincarnation),0) FROM status
    WHERE account = ? AND block <= ? *)
Definition current_reincarnation (tbl : list (Row StatusInfo))
    (account : Address) (block : Z) : Z :=
  IFNULL (sql_max ((λ r, reincarnation (r_value r)) <$>
                   filter (λ r, r_account r = account ∧ r_block r ≤ block) tbl)) 0.

(** kCreateAccountStmt (exist = 1) and kDeleteAccountStmt (exist = 0);
    the statements bind the account twice. *)
Definition status_stmt (ex : Z) (account1 : Address) (block : Z)
    (account2 : Address) : Sql () :=
  λ db, run_insert row_key tbl_status set_status
          (mkRow account1 block
             (mkStatusInfo ex (next_reincarnation (tbl_status db) account2))) db.
Definition create_account_stmt := status_stmt 1.
Definition delete_account_stmt := status_stmt 0.

(** kAddValueStmt *)
Definition add_value_stmt (account1 account2 : Address) (block1 : Z)
    (slot : Key) (block2 : Z) (v : Value) : Sql () :=
  λ db, run_insert storage_key tbl_storage set_storage
          (mkStorageRow account1
             (current_reincarnation (tbl_status db) account2 block1)
             slot block2 v) db.

(** kGetValueStmt *)
Definition get_value_stmt (db : Sqlite) (account1 account2 : Address)
    (block1 : Z) (slot : Key) (block2 : Z) : option StorageRow :=
  head (order_by (λ r1 r2, bool_decide (s_block r2 ≤ s_block r1))
          (filter (λ r, s_account r = account1
                        ∧ s_reincarnation r
                          = current_reincarnation (tbl_status db) account2 block1
                        ∧ s_slot r = slot ∧ s_block r ≤ block2)
                  (tbl_storage db))).

(** The listing queries of [VerifyAccount]:
    SELECT .. FROM t WHERE account = ? AND block <= ? ORDER BY block *)
Definition list_rows {V} (tbl : list (Row V)) (account : Address)
    (block : Z) : list (Row V) :=
  order_by (λ r1 r2, bool_decide (r_block r1 ≤ r_block r2))
    (filter (λ r, r_account r = account ∧ r_block r ≤ block) tbl).

(** SELECT block, slot, value FROM storage
    WHERE account = ? AND block <= ? ORDER BY block, slot *)
Definition list_storage (tbl : list StorageRow) (account : Address)
    (block : Z) : list StorageRow :=
  order_by (λ r1 r2, bool_decide (s_block r1 < s_block r2
                                  ∨ (s_block r1 = s_block r2 ∧ s_slot r1 ≤ s_slot r2)))
    (filter (λ r, s_account r = account ∧ s_block r ≤ block) tbl).

(** SELECT account, MAX(block) as block FROM account_hash
    WHERE block <= ? GROUP BY account *)
Definition latest_blocks (tbl : list (Row Hash)) (block : Z) : list (Z * Z) :=
  let rows := filter (λ r, r_block r ≤ block) tbl in
  (λ acc, (acc, IFNULL (sql_max (r_block <$> filter (λ r, r_account r = acc) rows)) 0))
    <$> distinct (r_account <$> rows).

(** The query of [GetHash]: account_hash joined with [latest_blocks] on
    account and block, ORDER BY a.account. *)
Definition list_latest_hashes (tbl : list (Row Hash)) (block : Z) : list (Row Hash) :=
  order_by (λ r1 r2, bool_decide (r_account r1 ≤ r_account r2))
    (filter (λ a, (r_account a, r_block a) ∈ latest_blocks tbl block) tbl).

(** SELECT DISTINCT account FROM account_hash WHERE block <= ?
    ORDER BY account *)
Definition list_accounts (tbl : list (Row Hash)) (block : Z) : list Address :=
  order_by (λ x y, bool_decide (x ≤ y))
    (distinct (r_account <$> filter (λ r, r_block r ≤ block) tbl)).

(** SELECT 1 FROM (SELECT account FROM t WHERE block <= ? EXCEPT
    SELECT account FROM account_hash WHERE block <= ?) LIMIT 1,
    on the (account, block) columns of table t. *)
Definition extra_accounts (t : list (Z * Z)) (hashes : list (Row Hash))
    (block1 block2 : Z) : list Address :=
  filter (λ a, a ∉ r_account <$> filter (λ r, r_block r ≤ block2) hashes)
    (distinct (fst <$> filter (λ r, r.2 ≤ block1) t)).

(** ** Block updates

    The types [Update] and [AccountUpdate] are declared in state/update.h.
    [Update] lists, per kind of change, the accounts changed in a block;
    the getters below are the ones [Add] iterates over. *)
Record Update : Type := mkUpdate {
  GetDeletedAccounts : list Address;
  GetCreatedAccounts : list Address;
  GetBalances : list (Address * Balance);
  GetCodes : list (Address * Code);
  GetNonces : list (Address * Nonce);
  GetStorage_ : list (Address * Key * Value);
  (* GetStorage of class Update; the underscore keeps it apart from the
     archive's GetStorage *)
}.

(** The changes of one block to one account, with the fields that
    [VerifyAccount] fills in. *)
Record AccountUpdate : Type := mkAccountUpdate {
  created : bool;
  deleted : bool;
  balance : option Balance;
  nonce : option Nonce;
  code : option Code;
  storage : list (Key * Value);
}.

Definition AccountUpdate_empty : AccountUpdate :=
  mkAccountUpdate false false None None None [].

Definition modify_account (f : AccountUpdate → AccountUpdate) (addr : Address)
    (m : gmap Z AccountUpdate) : gmap Z AccountUpdate :=
  <[addr := f (default AccountUpdate_empty (m !! addr))]> m.

(** Modelled from the spec: [AccountUpdate::From] (state/update.h) is not
    part of the sources at hand.  It splits a block update into the diff of
    each account it touches ("computes per-account diff hashes"): the fields
    of an account's diff are the entries of the update for that account, the
    storage changes in the order of the update. *)
Definition AccountUpdate_From (update : Update) : gmap Z AccountUpdate :=
  let m := foldl (λ m addr,
      modify_account (λ u, mkAccountUpdate (created u) true (balance u) (nonce u) (code u) (storage u)) addr m)
    ∅ (GetDeletedAccounts update) in
  let m := foldl (λ m addr,
      modify_account (λ u, mkAccountUpdate true (deleted u) (balance u) (nonce u) (code u) (storage u)) addr m)
    m (GetCreatedAccounts update) in
  let m := foldl (λ m '(addr, v),
      modify_account (λ u, mkAccountUpdate (created u) (deleted u) (Some v) (nonce u) (code u) (storage u)) addr m)
    m (GetBalances update) in
  let m := foldl (λ m '(addr, v),
      modify_account (λ u, mkAccountUpdate (created u) (deleted u) (balance u) (nonce u) (Some v) (storage u)) addr m)
    m (GetCodes update) in
  let m := foldl (λ m '(addr, v),
      modify_account (λ u, mkAccountUpdate (created u) (deleted u) (balance u) (Some v) (code u) (storage u)) addr m)
    m (GetNonces update) in
  foldl (λ m '(addr, k, v),
      modify_account (λ u, mkAccountUpdate (created u) (deleted u) (balance u) (nonce u) (code u) (storage u ++ [(k, v)])) addr m)
    m (GetStorage_ update).

(** ** The archive implementation (class internal::Archive)

    Its member functions carry the prefix [internal_]. *)

(** The connection [db_] and the prepared statements.  [Close] resets all
    statement pointers together, so one flag stands for them. *)
Record ArchiveImpl : Type := mkArchiveImpl {
  db_ : Sqlite;
  stmts_ : bool;
}.

Definition DB_Closed : Error := FailedPreconditionError "DB Closed".

Section hashing.

(** SHA-256 is used through three functions of common/hash.h and
    state/update.h: the hash of an account diff, the hash of the
    concatenation of two hashes, and the streaming hash of a list of
    hashes. *)
Variable AccountUpdate_GetHash : AccountUpdate → Hash.
Variable GetSha256Hash : Hash → Hash → Hash.
Variable Sha256Hasher : list Hash → Hash.

(** Gets the maximum block height inserted so far, -1 if there is none. *)
Definition internal_GetLastBlockHeight (a : ArchiveImpl) : StatusOr Z :=
  if negb (stmts_ a) then Err DB_Closed
  else Val (default (-1) (get_block_height_stmt (db_ a))).

Definition internal_GetAccountHash_db (db : Sqlite) (block : BlockId) (account : Address) : Hash :=
  default 0 (r_value <$> select_latest (tbl_account_hash db) account (to_int block)).

Definition internal_GetAccountHash (a : ArchiveImpl) (block : BlockId) (account : Address) : StatusOr Hash :=
  if negb (stmts_ a) then Err DB_Closed
  else Val (internal_GetAccountHash_db (db_ a) block account).

(** The statements [internal_Add] runs between BEGIN and END TRANSACTION. *)
Definition internal_Add_transaction (block : BlockId) (update : Update)
    (diff_hashes : gmap Z Hash) : Sql () :=
  begin_transaction ;;
  add_block_stmt (to_int64 block) ;;
  for_each (GetDeletedAccounts update) (λ addr,
    delete_account_stmt addr (to_int block) addr) ;;
  for_each (GetCreatedAccounts update) (λ addr,
    create_account_stmt addr (to_int block) addr) ;;
  for_each (GetBalances update) (λ '(addr, balance),
    add_balance_stmt addr (to_int block) balance) ;;
  for_each (GetCodes update) (λ '(addr, code),
    add_code_stmt addr (to_int block) code) ;;
  for_each (GetNonces update) (λ '(addr, nonce),
    add_nonce_stmt addr (to_int block) nonce) ;;
  for_each (GetStorage_ update) (λ '(addr, key, value),
    add_value_stmt addr addr (to_int block) key (to_int block) value) ;;
  for_each (map_to_list diff_hashes) (λ '(addr, hash),
    last_hash ← sql_read (λ db, internal_GetAccountHash_db db block addr) ;
    add_account_hash_stmt addr (to_int block) (GetSha256Hash last_hash hash)) ;;
  end_transaction.

(** Adds the block update for the given block. *)
Definition internal_Add (block : BlockId) (update : Update) (a : ArchiveImpl)
    : ArchiveImpl * Status :=
  match internal_GetLastBlockHeight a with
  | Err e => (a, NotOk e)
  | Val newestBlock =>
    if bool_decide (0 ≤ newestBlock) && bool_decide (block ≤ to_BlockId newestBlock)
    then (a, NotOk (FailedPreconditionError
                      "Unable to insert block %d, archive already contains block %d"))
    else
      let diff_hashes := AccountUpdate_GetHash <$> AccountUpdate_From update in
      if negb (stmts_ a) then (a, NotOk DB_Closed)
      else
        match internal_Add_transaction block update diff_hashes (db_ a) with
        | (db', Val _) => (mkArchiveImpl db' (stmts_ a), OkStatus)
        | (db', Err e) => (mkArchiveImpl db' (stmts_ a), NotOk e)
        end
  end.

Definition internal_Exists (a : ArchiveImpl) (block : BlockId) (account : Address) : StatusOr bool :=
  if negb (stmts_ a) then Err DB_Closed
  else Val (default false
              ((λ r, bool_decide (to_int (exist (r_value r)) ≠ 0))
               <$> select_latest (tbl_status (db_ a)) account (to_int block))).

Definition internal_GetBalance (a : ArchiveImpl) (block : BlockId) (account : Address) : StatusOr Balance :=
  if negb (stmts_ a) then Err DB_Closed
  else Val (default 0 (r_value <$> select_latest (tbl_balance (db_ a)) account (to_int block))).

Definition internal_GetCode (a : ArchiveImpl) (block : BlockId) (account : Address) : StatusOr Code :=
  if negb (stmts_ a) then Err DB_Closed
  else Val (default [] (r_value <$> select_latest (tbl_code (db_ a)) account (to_int block))).

Definition internal_GetNonce (a : ArchiveImpl) (block : BlockId) (account : Address) : StatusOr Nonce :=
  if negb (stmts_ a) then Err DB_Closed
  else Val (default 0 (r_value <$> select_latest (tbl_nonce (db_ a)) account (to_int block))).

(** Fetches the value of a storage slot at the given block height. *)
Definition internal_GetStorage (a : ArchiveImpl) (block : BlockId) (account : Address)
    (key : Key) : StatusOr Value :=
  if negb (stmts_ a) then Err DB_Closed
  else Val (default 0 (s_value <$>
              get_value_stmt (db_ a) account account (to_int block) key (to_int block))).

Definition connection_closed : Error := SqliteError "database is closed".

Definition internal_GetHash (a : ArchiveImpl) (block : BlockId) : StatusOr Hash :=
  if negb (stmts_ a) then Err connection_closed
  else Val (Sha256Hasher (r_value <$> list_latest_hashes (tbl_account_hash (db_ a)) (to_int block))).

Definition internal_GetAccountList (a : ArchiveImpl) (block : BlockId) : StatusOr (list Address) :=
  if negb (stmts_ a) then Err connection_closed
  else Val (list_accounts (tbl_account_hash (db_ a)) (to_int block)).

(** *** VerifyAccount

    A result iterator that has been advanced once is the list of the rows
    from its current row on; it is finished when the list is empty. *)

Definition row_at_block {V} (iter : list (Row V)) (current : BlockId)
    : option (Row V) * list (Row V) :=
  match iter with
  | r :: iter' =>
      if bool_decide (r_block r = current) then (Some r, iter') else (None, iter)
  | [] => (None, iter)
  end.

Fixpoint storage_at_block (iter : list StorageRow) (current : BlockId)
    : list (Key * Value) * list StorageRow :=
  match iter with
  | r :: iter' =>
      if bool_decide (s_block r = current)
      then let '(kvs, rest) := storage_at_block iter' current in
           ((s_slot r, s_value r) :: kvs, rest)
      else ([], iter)
  | [] => ([], iter)
  end.

(** next = std::min<BlockId>(next, row.GetInt64(0)) over the current rows
    of the iterators that are not finished. *)
Definition min_block (next : BlockId) (heads : list (option Z)) : BlockId :=
  foldl (λ n h, match h with Some b => Z.min n (to_BlockId b) | None => n end)
    next heads.

Definition iterator_heads (state_iter : list (Row StatusInfo))
    (balance_iter : list (Row Balance)) (nonce_iter : list (Row Nonce))
    (code_iter : list (Row Code)) (storage_iter : list StorageRow)
    : list (option Z) :=
  [ r_block <$> head state_iter; r_block <$> head balance_iter;
    r_block <$> head nonce_iter; r_block <$> head code_iter;
    s_block <$> head storage_iter ].

(** The while loop of [VerifyAccount].  Every round that does not return
    advances [hash_iter] by one row, which the recursion follows. *)
Fixpoint internal_VerifyAccount_loop (hash_iter : list (Row Hash))
    (block last : BlockId)
    (state_iter : list (Row StatusInfo)) (balance_iter : list (Row Balance))
    (nonce_iter : list (Row Nonce)) (code_iter : list (Row Code))
    (storage_iter : list StorageRow)
    (next : BlockId) (hash : Hash) : Status :=
  if bool_decide (next ≤ block) then
    let current := next in
    if bool_decide (current ≤ last) then
      InternalError "Multiple updates for same information in same block found."
    else
      let '(state, state_iter) := row_at_block state_iter current in
      let '(bal, balance_iter) := row_at_block balance_iter current in
      let '(non, nonce_iter) := row_at_block nonce_iter current in
      let '(cod, code_iter) := row_at_block code_iter current in
      let '(sto, storage_iter) := storage_at_block storage_iter current in
      let update :=
        mkAccountUpdate
          (from_option (λ r, bool_decide (to_int (exist (r_value r)) ≠ 0)) false state)
          (from_option (λ r, bool_decide (to_int (exist (r_value r)) = 0)) false state)
          (r_value <$> bal) (r_value <$> non) (r_value <$> cod) sto in
      match hash_iter with
      | [] =>
          InternalError "Archive contains update for block %d but no hash for it."
      | h :: hash_iter =>
          if bool_decide (r_block h ≠ current) then
            InternalError "Archive contains update for block %d but no hash for it."
          else
            let hash := GetSha256Hash hash (AccountUpdate_GetHash update) in
            if bool_decide (hash ≠ r_value h) then
              InternalError "Hash for block %d does not match."
            else
              let next :=
                min_block (to_BlockId (block + 1))
                  (iterator_heads state_iter balance_iter nonce_iter code_iter
                     storage_iter) in
              internal_VerifyAccount_loop hash_iter block last state_iter
                balance_iter nonce_iter code_iter storage_iter next hash
      end
  else
    match hash_iter with
    | [] => OkStatus
    | _ :: _ => InternalError "DB contains hash for update on block %d but no data."
    end.

(** Verifies the consistency of the given account up until the given
    block. *)
Definition internal_VerifyAccount (a : ArchiveImpl) (block : BlockId)
    (account : Address) : Status :=
  if negb (stmts_ a) then connection_closed
  else
    let db := db_ a in
    let hash_iter := list_rows (tbl_account_hash db) account (to_int block) in
    let state_iter := list_rows (tbl_status db) account (to_int block) in
    let balance_iter := list_rows (tbl_balance db) account (to_int block) in
    let nonce_iter := list_rows (tbl_nonce db) account (to_int block) in
    let code_iter := list_rows (tbl_code db) account (to_int block) in
    let storage_iter := list_storage (tbl_storage db) account (to_int block) in
    let next :=
      min_block (to_BlockId (block + 1))
        (iterator_heads state_iter balance_iter nonce_iter code_iter storage_iter) in
    let last := to_BlockId (next - 1) in
    internal_VerifyAccount_loop hash_iter block last state_iter balance_iter
      nonce_iter code_iter storage_iter next 0.

(** RETURN_IF_ERROR over a list of checks. *)
Fixpoint first_failure {A} (check : A → Status) (l : list A) : Status :=
  match l with
  | [] => OkStatus
  | x :: l' =>
      match check x with
      | OkStatus => first_failure check l'
      | e => e
      end
  end.

(** The (account, block) columns of the five content tables, in the order
    [Verify] visits them: status, balance, nonce, code, storage. *)
Definition content_tables (db : Sqlite) : list (list (Z * Z)) :=
  [ row_key <$> tbl_status db; row_key <$> tbl_balance db;
    row_key <$> tbl_nonce db; row_key <$> tbl_code db;
    (λ r, (s_account r, s_block r)) <$> tbl_storage db ].

Definition internal_Verify (a : ArchiveImpl) (block : BlockId)
    (expected_hash : Hash) : Status :=
  if negb (stmts_ a) then connection_closed
  else
    let issues := filter (λ msg, msg ≠ "ok"%string) (integrity_check (db_ a)) in
    if bool_decide (issues ≠ []) then
      InternalError "Encountered DB integrity issues:"
    else
      match internal_GetHash a block with
      | Err e => e
      | Val hash =>
        if bool_decide (hash ≠ expected_hash) then
          InternalError "Archive hash does not match expected hash."
        else
          match internal_GetAccountList a block with
          | Err e => e
          | Val accounts =>
            match first_failure (internal_VerifyAccount a block) accounts with
            | OkStatus =>
                first_failure (λ t,
                    if bool_decide (extra_accounts t (tbl_account_hash (db_ a))
                                      (to_int block) (to_int block) ≠ [])
                    then InternalError "Found extra row of data in table `%s`."
                    else OkStatus)
                  (content_tables (db_ a))
            | e => e
            end
          end
      end.

Definition internal_Flush (a : ArchiveImpl) : Status := OkStatus.

(** Closes the archive implementation: finalizes the prepared statements
    and closes the connection. *)
Definition internal_Close (a : ArchiveImpl) : ArchiveImpl * Status :=
  (mkArchiveImpl (db_ a) false, OkStatus).

(** ** The archive (class Archive) *)

Record Archive : Type := mkArchive {
  impl_ : option ArchiveImpl;
}.

(** [Archive::Open], which runs [internal::Archive::Open] on the database
    file of the directory: the tables are created if they do not exist
    (CREATE TABLE IF NOT EXISTS) and the statements are prepared.  [file] is
    the database already stored there, if any; on a new file all tables are
    empty.  The prepared statements are live afterwards. *)
Definition Open (file : option Sqlite) : Archive :=
  mkArchive (Some (mkArchiveImpl (default empty_db file) true)).

Definition not_connected : Error :=
  FailedPreconditionError "Archive not connected to DB.".

Definition CheckState (a : Archive) : Status :=
  match impl_ a with
  | Some _ => OkStatus
  | None => not_connected
  end.

Definition Add (block : BlockId) (update : Update) (a : Archive)
    : Archive * Status :=
  match impl_ a with
  | None => (a, CheckState a)
  | Some impl =>
      let '(impl', s) := internal_Add block update impl in
      (mkArchive (Some impl'), s)
  end.

(** The shape of the reading member functions: CheckState, then the
    implementation. *)
Definition checked {A} (a : Archive) (f : ArchiveImpl → StatusOr A) : StatusOr A :=
  match impl_ a with
  | None => Err not_connected
  | Some impl => f impl
  end.

Definition Exists (a : Archive) (block : BlockId) (account : Address) :=
  checked a (λ impl, internal_Exists impl block account).
Definition GetBalance (a : Archive) (block : BlockId) (account : Address) :=
  checked a (λ impl, internal_GetBalance impl block account).
Definition GetCode (a : Archive) (block : BlockId) (account : Address) :=
  checked a (λ impl, internal_GetCode impl block account).
Definition GetNonce (a : Archive) (block : BlockId) (account : Address) :=
  checked a (λ impl, internal_GetNonce impl block account).
Definition GetStorage (a : Archive) (block : BlockId) (account : Address) (key : Key) :=
  checked a (λ impl, internal_GetStorage impl block account key).
Definition GetHash (a : Archive) (block : BlockId) :=
  checked a (λ impl, internal_GetHash impl block).
Definition GetAccountList (a : Archive) (block : BlockId) :=
  checked a (λ impl, internal_GetAccountList impl block).
Definition GetAccountHash (a : Archive) (block : BlockId) (account : Address) :=
  checked a (λ impl, internal_GetAccountHash impl block account).

Definition Verify (a : Archive) (block : BlockId) (expected_hash : Hash) : Status :=
  match impl_ a with
  | None => CheckState a
  | Some impl => internal_Verify impl block expected_hash
  end.

Definition VerifyAccount (a : Archive) (block : BlockId) (account : Address) : Status :=
  match impl_ a with
  | None => CheckState a
  | Some impl => internal_VerifyAccount impl block account
  end.

Definition Flush (a : Archive) : Status :=
  match impl_ a with
  | None => OkStatus
  | Some impl => internal_Flush impl
  end.

Definition Close (a : Archive) : Archive * Status :=
  match impl_ a with
  | None => (a, OkStatus)
  | Some impl => (mkArchive None, (internal_Close impl).2)
  end.

(** ** The rows a successful Add appends

    [inserted mk t l]: the table [t] after one INSERT per element of [l],
    where the row for an element may depend on the rows before it. *)
Definition inserted {X R : Type} (mk : list R → X → R) (t : list R)
    (l : list X) : list R :=
  foldl (λ t x, t ++ [mk t x]) t l.

Definition status_row (ex : Z) (blk : Z) (t : list (Row StatusInfo))
    (addr : Address) : Row StatusInfo :=
  mkRow addr blk (mkStatusInfo ex (next_reincarnation t addr)).

Definition value_row {V} (blk : Z) (e : Address * V) : Row V :=
  mkRow e.1 blk e.2.

Definition storage_row (blk : Z) (status : list (Row StatusInfo))
    (e : Address * Key * Value) : StorageRow :=
  mkStorageRow e.1.1 (current_reincarnation status e.1.1 blk) e.1.2 blk e.2.

Definition hash_row (block : BlockId) (t : list (Row Hash))
    (e : Address * Hash) : Row Hash :=
  mkRow e.1 (to_int block)
    (GetSha256Hash (default 0 (r_value <$> select_latest t e.1 (to_int block))) e.2).

(** The database after the statements of [internal_Add_transaction], when
    none of them fails. *)
Definition applied (block : BlockId) (update : Update) (db : Sqlite) : Sqlite :=
  let blk := to_int block in
  let db := set_block (tbl_block db ++ [to_int64 block]) db in
  let db := set_status (inserted (status_row 0 blk) (tbl_status db)
                          (GetDeletedAccounts update)) db in
  let db := set_status (inserted (status_row 1 blk) (tbl_status db)
                          (GetCreatedAccounts update)) db in
  let db := set_balance (tbl_balance db ++ (value_row blk <$> GetBalances update)) db in
  let db := set_code (tbl_code db ++ (value_row blk <$> GetCodes update)) db in
  let db := set_nonce (tbl_nonce db ++ (value_row blk <$> GetNonces update)) db in
  let db := set_storage (tbl_storage db
                         ++ (storage_row blk (tbl_status db) <$> GetStorage_ update)) db in
  set_account_hash
    (inserted (hash_row block) (tbl_account_hash db)
       (map_to_list (AccountUpdate_GetHash <$> AccountUpdate_From update))) db.

(** The primary key constraints of the tables. *)
Definition primary_keys (db : Sqlite) : Prop :=
  NoDup (tbl_block db)
  ∧ NoDup (row_key <$> tbl_account_hash db)
  ∧ NoDup (row_key <$> tbl_status db)
  ∧ NoDup (row_key <$> tbl_balance db)
  ∧ NoDup (row_key <$> tbl_code db)
  ∧ NoDup (row_key <$> tbl_nonce db)
  ∧ NoDup (storage_key <$> tbl_storage db).

(** The database of an archive produced by a history of updates. *)
Definition db_of (history : list (Z * Update)) : Sqlite :=
  foldl (λ db e, applied e.1 e.2 db) empty_db history.

(** ** Archives produced by successful calls of Add

    [Produced history a]: [a] is the archive opened on a new file after the
    calls [Add block update] of [history], in this order, each of which
    returned OK. *)
Inductive Produced : list (Z * Update) → Archive → Prop :=
| Produced_Open : Produced [] (Open None)
| Produced_Add history a block update a' :
    Produced history a →
    is_BlockId block →
    Add block update a = (a', OkStatus) →
    Produced (history ++ [(block, update)]) a'.

End hashing.

(** ** What a history of updates wrote *)

(** The value an update lists for an account. *)
Fixpoint lookup_entry {V} (entries : list (Address * V)) (account : Address)
    : option V :=
  match entries with
  | [] => None
  | (a, v) :: entries' =>
      if bool_decide (a = account) then Some v else lookup_entry entries' account
  end.

(** The value an update lists for a storage slot of an account. *)
Fixpoint lookup_slot (entries : list (Address * Key * Value))
    (account : Address) (key : Key) : option Value :=
  match entries with
  | [] => None
  | (a, k, v) :: entries' =>
      if bool_decide (a = account ∧ k = key) then Some v
      else lookup_slot entries' account key
  end.

(** The value of the most recent update of a field of [account] at a block
    less than or equal to [block]; the history is in the order of the
    calls. *)
Definition latest_write {V} (field : Update → list (Address * V))
    (history : list (Z * Update)) (block : BlockId) (account : Address)
    : option V :=
  foldl (λ acc e,
           if bool_decide (e.1 ≤ block)
           then match lookup_entry (field e.2) account with
                | Some v => Some v
                | None => acc
                end
           else acc)
    None history.

(** An update creates or deletes the account. *)
Definition status_event (account : Address) (u : Update) : Prop :=
  account ∈ GetDeletedAccounts u ++ GetCreatedAccounts u.

#[global] Instance status_event_dec account u : Decision (status_event account u).
Proof. unfold status_event. apply _. Defined.

(** The number of creations and deletions of [account] up to [block]. *)
Definition status_events (history : list (Z * Update)) (account : Address)
    (block : BlockId) : Z :=
  Z.of_nat (length (filter (λ e, e.1 ≤ block ∧ status_event account e.2) history)).

(** The reincarnation counter of [account] as of [block]: 0 until the
    second creation or deletion, one more with each later one. *)
Definition reincarnation_as_of (history : list (Z * Update))
    (account : Address) (block : BlockId) : Z :=
  Z.max 0 (status_events history account block - 1).

(** One step of the search for the latest slot write: the update [e]
    counts when its block is at most [block] and the reincarnation of the
    account as of that block is [r]. *)
Definition slot_write_step (history : list (Z * Update)) (block : BlockId)
    (account : Address) (key : Key) (r : Z) (acc : option Value)
    (e : Z * Update) : option Value :=
  if bool_decide (e.1 ≤ block ∧ reincarnation_as_of history account e.1 = r)
  then match lookup_slot (GetStorage_ e.2) account key with
       | Some v => Some v
       | None => acc
       end
  else acc.

(** The most recent value written to a slot at a block less than or equal
    to [block], among the writes made under the reincarnation that is
    current as of [block]. *)
Definition latest_slot_write (history : list (Z * Update)) (block : BlockId)
    (account : Address) (key : Key) : option Value :=
  foldl (slot_write_step history block account key
           (reincarnation_as_of history account block))
    None history.

(** The accounts an update changes. *)
Definition touched (u : Update) : list Address :=
  GetDeletedAccounts u ++ GetCreatedAccounts u ++ (fst <$> GetBalances u)
  ++ (fst <$> GetCodes u) ++ (fst <$> GetNonces u)
  ++ ((λ e, e.1.1) <$> GetStorage_ u).

(** The rows of the balance, code or nonce table after a history. *)
Definition value_rows {V} (field : Update → list (Address * V))
    (history : list (Z * Update)) : list (Row V) :=
  history ≫= (λ e, value_row (to_int e.1) <$> field e.2).

(** The blocks of a history are block numbers in strictly increasing
    order. *)
Inductive increasing : list (Z * Update) → Prop :=
| increasing_nil : increasing []
| increasing_snoc history block update :
    increasing history →
    is_BlockId block →
    (∀ e, e ∈ history → e.1 < block) →
    increasing (history ++ [(block, update)]).

(** Blocks that [static_cast<int>] leaves unchanged. *)
Definition is_int_block (b : Z) : Prop := 0 ≤ b < 2 ^ 31.

(** ** Example data

    Stand-ins for the three SHA-256 functions, to run the archive on
    examples. *)
Definition example_diff_hash (u : AccountUpdate) : Hash :=
  1 + (if created u then 2 else 0) + (if deleted u then 3 else 0)
  + 5 * default 0 (balance u) + 7 * default 0 (nonce u)
  + 11 * Z.of_nat (length (default [] (code u)))
  + foldr (λ kv acc, 13 * acc + kv.1 + 17 * kv.2) 0 (storage u).
Definition example_pair_hash (h1 h2 : Hash) : Hash := 31 * h1 + h2 + 1.
Definition example_list_hash (l : list Hash) : Hash :=
  foldl (λ acc h, 37 * acc + h + 1) 0 l.

Definition balance_update (account : Address) (v : Balance) : Update :=
  mkUpdate [] [] [(account, v)] [] [] [].
Definition storage_update (account : Address) (key : Key) (v : Value) : Update :=
  mkUpdate [] [] [] [] [] [(account, key, v)].
Definition create_update (account : Address) : Update :=
  mkUpdate [] [account] [] [] [] [].
Definition delete_update (account : Address) : Update :=
  mkUpdate [account] [] [] [] [] [].

Definition example_archive_of (history : list (Z * Update)) : Archive :=
  mkArchive (Some (mkArchiveImpl
                     (db_of example_diff_hash example_pair_hash history) true)).

(** The archive of scenario S4: balance 5 at block 1, balance 7 at block 2. *)
Definition example_history : list (Z * Update) :=
  [(1, balance_update 42 5); (2, balance_update 42 7)].
Definition example_archive : Archive := example_archive_of example_history.

(** An account that is created with a slot, deleted, and created again. *)
Definition reincarnated_history : list (Z * Update) :=
  [(1, mkUpdate [] [42] [] [] [] [(42, 9, 7)]);
   (2, delete_update 42);
   (3, mkUpdate [] [42] [] [] [] [(42, 8, 3)])].
Definition reincarnated_archive : Archive :=
  example_archive_of reincarnated_history.

(** A slot written to an account that was never created, then the deletion
    of the account. *)
Definition uncreated_history : list (Z * Update) :=
  [(1, storage_update 42 9 7); (2, delete_update 42)].
Definition uncreated_archive : Archive := example_archive_of uncreated_history.

(** An archive whose first block is block 0. *)
Definition block0_history : list (Z * Update) := [(0, balance_update 42 5)].
Definition block0_archive : Archive := example_archive_of block0_history.

(** Whether the latest creation or deletion of [account] at a block less
    than or equal to [block] is a creation; false when there is none. *)
Definition created_last (history : list (Z * Update)) (block : BlockId)
    (account : Address) : bool :=
  foldl (λ acc e,
           if bool_decide (e.1 ≤ block ∧ status_event account e.2)
           then bool_decide (account ∈ GetCreatedAccounts e.2)
           else acc)
    false history.

(** An update that lists one account twice among the balances. *)
Definition duplicate_update : Update :=
  mkUpdate [] [] [(42, 5); (42, 6)] [] [] [].

(** The archive after the Add of [duplicate_update] for block 1 to a new
    archive has failed: the block and the first balance are written and the
    transaction is open. *)
Definition failed_archive : Archive :=
  mkArchive (Some (mkArchiveImpl
    (mkSqlite [1] [] [] [mkRow 42 1 5] [] [] [] true ["ok"%string]) true)).

(** The table [t'] is the table [t] with rows of block [B] behind it. *)
Definition extends {R} (blk : R → Z) (B : Z) (t t' : list R) : Prop :=
  ∃ new, t' = t ++ new ∧ Forall (λ r, blk r = B) new.

(** A statement that does not begin or end a transaction. *)
Definition keeps_transaction {A} (m : Sql A) : Prop :=
  ∀ db, in_transaction (m db).1 = in_transaction db.

(** A statement that, run within a transaction, fails only within the
    transaction. *)
Definition fails_in_transaction {A} (m : Sql A) : Prop :=
  ∀ db db' e, in_transaction db = true → m db = (db', Err e) →
              in_transaction db' = true.

End Archive.

(** * The Go side *)

(** ** Bytes and integers *)

Definition byte_to_Z (b : Byte.byte) : Z := Z.of_N (Byte.to_N b).
Definition byte_of_Z (z : Z) : Byte.byte :=
  default Byte.x00 (Byte.of_N (Z.to_N (z mod 256))).

Fixpoint be_to_Z_from (acc : Z) (l : list Byte.byte) : Z :=
  match l with
  | [] => acc
  | b :: l' => be_to_Z_from (acc * 256 + byte_to_Z b) l'
  end.
Definition be_to_Z := be_to_Z_from 0.
Fixpoint le_to_Z (l : list Byte.byte) : Z :=
  match l with
  | [] => 0
  | b :: l' => byte_to_Z b + 256 * le_to_Z l'
  end.
Fixpoint Z_to_le (n : nat) (z : Z) : list Byte.byte :=
  match n with
  | O => []
  | S n' => byte_of_Z z :: Z_to_le n' (z / 256)
  end.
Definition Z_to_be (n : nat) (z : Z) : list Byte.byte := reverse (Z_to_le n z).

(** ** Keccak-256

    The legacy Keccak-256 of golang.org/x/crypto/sha3: the sponge over
    Keccak-f[1600] with rate 136 bytes and padding 0x01 .. 0x80.  The state
    is the list of its 25 lanes, lane (x, y) at index x + 5 y. *)
Module Keccak.
Definition lane_mask : Z := 2 ^ 64 - 1.
Definition rotl (x : Z) (n : Z) : Z :=
  Z.land (Z.lor (Z.shiftl x n) (Z.shiftr x (64 - n))) lane_mask.
Definition lane (st : list Z) (x y : nat) : Z := st !!! (x mod 5 + 5 * (y mod 5))%nat.
Definition rotation_offsets : list Z :=
  [ 0; 1; 62; 28; 27;
    36; 44; 6; 55; 20;
    3; 10; 43; 25; 39;
    41; 45; 15; 21; 8;
    18; 2; 61; 56; 14 ].
Definition round_constants : list Z :=
  [ 0x0000000000000001; 0x0000000000008082; 0x800000000000808A;
    0x8000000080008000; 0x000000000000808B; 0x0000000080000001;
    0x8000000080008081; 0x8000000000008009; 0x000000000000008A;
    0x0000000000000088; 0x0000000080008009; 0x000000008000000A;
    0x000000008000808B; 0x800000000000008B; 0x8000000000008089;
    0x8000000000008003; 0x8000000000008002; 0x8000000000000080;
    0x000000000000800A; 0x800000008000000A; 0x8000000080008081;
    0x8000000000008080; 0x0000000080000001; 0x8000000080008008 ].
Definition coords : list (nat * nat) :=
  y ← seq 0 5; x ← seq 0 5; [(x, y)].
Definition theta (a : list Z) : list Z :=
  let c x := foldr Z.lxor 0 ((λ y, lane a x y) <$> seq 0 5) in
  let d x := Z.lxor (c (x + 4)%nat) (rotl (c (x + 1)%nat) 1) in
  (λ '(x, y), Z.lxor (lane a x y) (d x)) <$> coords.
(** Lane (x, y) goes to (y, 2 x + 3 y), rotated by its offset. *)
Definition rho_pi (a : list Z) : list Z :=
  (λ '(X, Y), let x := ((X + 3 * Y) mod 5)%nat in
              let y := X in
              rotl (lane a x y) (rotation_offsets !!! (x + 5 * y)%nat)) <$> coords.
Definition chi (b : list Z) : list Z :=
  (λ '(x, y), Z.lxor (lane b x y)
                (Z.land (Z.lxor (lane b (x + 1) y) lane_mask) (lane b (x + 2) y))) <$> coords.
Definition iota (rc : Z) (a : list Z) : list Z :=
  match a with
  | a0 :: a' => Z.lxor a0 rc :: a'
  | [] => []
  end.
Definition round (a : list Z) (rc : Z) : list Z := iota rc (chi (rho_pi (theta a))).
Definition keccak_f (a : list Z) : list Z := foldl round a round_constants.
Definition rate : nat := 136.
Fixpoint lanes_of (n : nat) (block : list Byte.byte) : list Z :=
  match n with
  | O => []
  | S n' => le_to_Z (take 8 block) :: lanes_of n' (drop 8 block)
  end.
Definition absorb (st : list Z) (block : list Byte.byte) : list Z :=
  keccak_f (zip_with Z.lxor st (lanes_of 17 block ++ replicate 8 0)).
Definition pad (tail : list Byte.byte) : list Byte.byte :=
  let n := (rate - length tail)%nat in
  if decide (n = 1%nat) then tail ++ [byte_of_Z 0x81]
  else tail ++ [byte_of_Z 0x01] ++ replicate (n - 2) Byte.x00 ++ [byte_of_Z 0x80].
Fixpoint sponge (fuel : nat) (st : list Z) (data : list Byte.byte) : list Z :=
  match fuel with
  | O => st
  | S fuel' =>
      if decide (length data < rate)%nat then absorb st (pad data)
      else sponge fuel' (absorb st (take rate data)) (drop rate data)
  end.
Definition Sum256 (data : list Byte.byte) : list Byte.byte :=
  let st := sponge (S (length data)) (replicate 25 0) data in
  take 32 (st ≫= Z_to_le 8).
End Keccak.


Module Mpt.

(** ** Errors

    Go's [error] values in use: [None] is nil. *)
Inductive GoError : Type :=
| io_EOF
| errCorruptedCodeFile
| IoError (reason : string).

#[global] Instance GoError_eq_dec : EqDecision GoError.
Proof. solve_decision. Defined.

Abbreviation error := (option GoError) (only parsing).

(** ** Account information *)

Record AccountInfo : Type := mkAccountInfo {
  Nonce : Z;
  Balance : Z;
  CodeHash : Z;
}.

#[global] Instance AccountInfo_eq_dec : EqDecision AccountInfo.
Proof. solve_decision. Defined.

(** AccountInfo{} *)
Definition AccountInfo_zero : AccountInfo := mkAccountInfo 0 0 0.

(** common.GetHash(hasher, data): the digest of [data] as a Hash. *)
Definition GetHash (hasher : list Byte.byte → list Byte.byte)
    (data : list Byte.byte) : Hash :=
  be_to_Z (hasher data).

Definition NewLegacyKeccak256 : list Byte.byte → list Byte.byte := Keccak.Sum256.

Definition emptyCodeHash : Hash :=
  Eval vm_compute in GetHash NewLegacyKeccak256 [].

(** ** The live trie

    Modelled from the spec: [LiveTrie] (live_trie.go) and the forest behind
    it are not part of the sources at hand.  The trie is the map from the
    accounts that exist to their information and storage slots:
    - GetAccountInfo returns the information and whether the account exists,
      the zero information for an account that does not;
    - SetAccountInfo with the zero information removes the account and its
      storage, any other information is stored and keeps the storage;
    - GetValue returns zero for a slot that was not set; SetValue on an
      account that does not exist does nothing;
    - ClearStorage replaces the storage of the account by the empty one.
    [written] logs the modifying calls, so that a state with the same log
    has seen no write.  [failure] stands for a failing store (error kind
    IO): every operation then returns the error and changes nothing. *)
Record Account : Type := mkAccount {
  info : AccountInfo;
  slots : gmap Z Z;
}.

Inductive TrieWrite : Type :=
| WriteAccountInfo (address : Address) (info : AccountInfo)
| WriteValue (address : Address) (key : Key) (value : Value)
| WriteClearStorage (address : Address).

Record LiveTrie : Type := mkLiveTrie {
  accounts : gmap Z Account;
  written : list TrieWrite;
  failure : error;
}.

Definition LiveTrie_GetAccountInfo (t : LiveTrie) (address : Address)
    : AccountInfo * bool * error :=
  match failure t with
  | Some e => (AccountInfo_zero, false, Some e)
  | None =>
      match accounts t !! address with
      | Some a => (info a, true, None)
      | None => (AccountInfo_zero, false, None)
      end
  end.

Definition LiveTrie_SetAccountInfo (t : LiveTrie) (address : Address)
    (i : AccountInfo) : LiveTrie * error :=
  match failure t with
  | Some e => (t, Some e)
  | None =>
      let accounts' :=
        if decide (i = AccountInfo_zero) then delete address (accounts t)
        else <[address := mkAccount i (default ∅ (slots <$> accounts t !! address))]>
               (accounts t) in
      (mkLiveTrie accounts' (written t ++ [WriteAccountInfo address i]) None, None)
  end.

Definition LiveTrie_GetValue (t : LiveTrie) (address : Address) (key : Key)
    : Value * error :=
  match failure t with
  | Some e => (0, Some e)
  | None => (default 0 (a ← accounts t !! address; slots a !! key), None)
  end.

Definition LiveTrie_SetValue (t : LiveTrie) (address : Address) (key : Key)
    (value : Value) : LiveTrie * error :=
  match failure t with
  | Some e => (t, Some e)
  | None =>
      let accounts' :=
        match accounts t !! address with
        | Some a =>
            <[address := mkAccount (info a)
                           (if decide (value = 0) then delete key (slots a)
                            else <[key := value]> (slots a))]> (accounts t)
        | None => accounts t
        end in
      (mkLiveTrie accounts' (written t ++ [WriteValue address key value]) None, None)
  end.

Definition LiveTrie_ClearStorage (t : LiveTrie) (address : Address)
    : LiveTrie * error :=
  match failure t with
  | Some e => (t, Some e)
  | None =>
      let accounts' :=
        match accounts t !! address with
        | Some a => <[address := mkAccount (info a) ∅]> (accounts t)
        | None => accounts t
        end in
      (mkLiveTrie accounts' (written t ++ [WriteClearStorage address]) None, None)
  end.

(** ** MptState *)

(** [hasher] tells whether the hasher has been created (it is nil until the
    first SetCode). *)
Record MptState : Type := mkMptState {
  trie : LiveTrie;
  code : gmap Z (list Byte.byte);
  codefile : string;
  hasher : bool;
}.

Definition with_trie (s : MptState) (t : LiveTrie) : MptState :=
  mkMptState t (code s) (codefile s) (hasher s).

Definition CreateAccount (s : MptState) (address : Address) : MptState * error :=
  let '(_, exists_, err) := LiveTrie_GetAccountInfo (trie s) address in
  match err with
  | Some e => (s, Some e)
  | None =>
      if exists_ then
        (* For existing accounts, only clear the storage, preserve the rest. *)
        let '(t, err) := LiveTrie_ClearStorage (trie s) address in
        (with_trie s t, err)
      else
        (* Create account with hash of empty code. *)
        let '(t, err) :=
          LiveTrie_SetAccountInfo (trie s) address
            (mkAccountInfo 0 0 emptyCodeHash) in
        (with_trie s t, err)
  end.

Definition Exists (s : MptState) (address : Address) : bool * error :=
  let '(_, exists_, err) := LiveTrie_GetAccountInfo (trie s) address in
  match err with
  | Some e => (false, Some e)
  | None => (exists_, None)
  end.

Definition DeleteAccount (s : MptState) (address : Address) : MptState * error :=
  let '(t, err) := LiveTrie_SetAccountInfo (trie s) address AccountInfo_zero in
  (with_trie s t, err).

Definition GetBalance (s : MptState) (address : Address) : Z * error :=
  let '(i, exists_, err) := LiveTrie_GetAccountInfo (trie s) address in
  if negb exists_ || bool_decide (err ≠ None) then (0, err)
  else (Balance i, None).

Definition SetBalance (s : MptState) (address : Address) (balance : Z)
    : MptState * error :=
  let '(i, exists_, err) := LiveTrie_GetAccountInfo (trie s) address in
  match err with
  | Some e => (s, Some e)
  | None =>
      if bool_decide (Balance i = balance) then (s, None)
      else
        let i := mkAccountInfo (Nonce i) balance (CodeHash i) in
        let i := if negb exists_
                 then mkAccountInfo (Nonce i) (Balance i) emptyCodeHash
                 else i in
        let '(t, err) := LiveTrie_SetAccountInfo (trie s) address i in
        (with_trie s t, err)
  end.

Definition GetNonce (s : MptState) (address : Address) : Z * error :=
  let '(i, _, err) := LiveTrie_GetAccountInfo (trie s) address in
  match err with
  | Some e => (0, Some e)
  | None => (Nonce i, None)
  end.

Definition SetNonce (s : MptState) (address : Address) (nonce : Z)
    : MptState * error :=
  let '(i, exists_, err) := LiveTrie_GetAccountInfo (trie s) address in
  match err with
  | Some e => (s, Some e)
  | None =>
      if bool_decide (Nonce i = nonce) then (s, None)
      else
        let i := mkAccountInfo nonce (Balance i) (CodeHash i) in
        let i := if negb exists_
                 then mkAccountInfo (Nonce i) (Balance i) emptyCodeHash
                 else i in
        let '(t, err) := LiveTrie_SetAccountInfo (trie s) address i in
        (with_trie s t, err)
  end.

Definition GetStorage (s : MptState) (address : Address) (key : Key)
    : Value * error :=
  LiveTrie_GetValue (trie s) address key.

Definition SetStorage (s : MptState) (address : Address) (key : Key)
    (value : Value) : MptState * error :=
  let '(t, err) := LiveTrie_SetValue (trie s) address key value in
  (with_trie s t, err).

(** A nil slice is [None]. *)
Definition GetCode (s : MptState) (address : Address)
    : option (list Byte.byte) * error :=
  let '(i, exists_, err) := LiveTrie_GetAccountInfo (trie s) address in
  match err with
  | Some e => (None, Some e)
  | None =>
      if negb exists_ then (None, None)
      else (code s !! CodeHash i, None)
  end.

Definition GetCodeSize (s : MptState) (address : Address) : Z * error :=
  let '(c, err) := GetCode s address in
  match err with
  | Some e => (0, Some e)
  | None => (Z.of_nat (length (default [] c)), err)
  end.

Definition SetCode (s : MptState) (address : Address) (c : list Byte.byte)
    : MptState * error :=
  let s := mkMptState (trie s) (code s) (codefile s) true in
  let codeHash := GetHash NewLegacyKeccak256 c in
  let '(i, exists_, err) := LiveTrie_GetAccountInfo (trie s) address in
  match err with
  | Some e => (s, Some e)
  | None =>
      if negb exists_ && bool_decide (length c = 0%nat) then (s, None)
      else if bool_decide (CodeHash i = codeHash) then (s, None)
      else
        let i := mkAccountInfo (Nonce i) (Balance i) codeHash in
        let s := mkMptState (trie s) (<[codeHash := c]> (code s)) (codefile s)
                   (hasher s) in
        let '(t, err) := LiveTrie_SetAccountInfo (trie s) address i in
        (with_trie s t, err)
  end.

Definition GetCodeHash (s : MptState) (address : Address) : Hash * error :=
  let '(i, exists_, err) := LiveTrie_GetAccountInfo (trie s) address in
  if negb exists_ || bool_decide (err ≠ None) then (emptyCodeHash, err)
  else (CodeHash i, None).

(** ** The code file

    [os.File] over a regular file is the list of the bytes not read yet:
    Read fills the buffer it is given as far as the file goes, and returns
    0 and io.EOF at the end of the file. *)
Definition File_Read (n : nat) (file : list Byte.byte)
    : list Byte.byte * error * list Byte.byte :=
  if decide (n = 0%nat) then ([], None, file)
  else if decide (file = []) then ([], Some io_EOF, file)
  else (take n file, None, drop n file).

(** [bufio.Reader]: the file [rd], the buffered bytes b.buf[b.r:b.w] and
    the pending error b.err. *)
Record Reader : Type := mkReader {
  rd : list Byte.byte;
  buf : list Byte.byte;
  err : error;
}.

Definition defaultBufSize : nat := 4096.

Definition NewReader (file : list Byte.byte) : Reader := mkReader file [] None.

(** bufio.Reader.Read on a buffer of length [n]: the bytes read, the error
    and the reader afterwards.  The bytes are taken from at most one Read
    of the file, so fewer than [n] may be returned. *)
Definition Reader_Read (n : nat) (b : Reader)
    : list Byte.byte * error * Reader :=
  if decide (n = 0%nat) then
    if decide (buf b ≠ []) then ([], None, b)
    else ([], err b, mkReader (rd b) (buf b) None)
  else if decide (buf b = []) then
    if decide (err b ≠ None) then ([], err b, mkReader (rd b) (buf b) None)
    else if decide (defaultBufSize ≤ n)%nat then
      (* Large read, empty buffer: read directly into p. *)
      let '(p, e, file) := File_Read n (rd b) in
      (p, e, mkReader file [] None)
    else
      (* One read into the buffer. *)
      let '(filled, e, file) := File_Read defaultBufSize (rd b) in
      if decide (filled = []) then ([], e, mkReader file [] None)
      else (take n filled, None, mkReader file (drop n filled) e)
  else
    (take n (buf b), None, mkReader (rd b) (drop n (buf b)) (err b)).

(** binary.BigEndian.Uint32 *)
Definition Uint32 (l : list Byte.byte) : Z := be_to_Z l.

(** The loop of [readCodes]; [fuel] bounds the number of records. *)
Fixpoint readCodes_loop (fuel : nat) (reader : Reader)
    (res : gmap Z (list Byte.byte))
    : option (option (gmap Z (list Byte.byte)) * error) :=
  match fuel with
  | O => None
  | S fuel' =>
      let '(hash, e, reader) := Reader_Read 32 reader in
      match e with
      | Some e =>
          if decide (e = io_EOF) then Some (Some res, None)
          else Some (None, Some e)
      | None =>
          if decide (length hash ≠ 32%nat) then Some (None, Some errCorruptedCodeFile)
          else
            let '(len, e, reader) := Reader_Read 4 reader in
            match e with
            | Some e => Some (None, Some e)
            | None =>
                if decide (length len ≠ 4%nat)
                then Some (None, Some errCorruptedCodeFile)
                else
                  let size := Z.to_nat (Uint32 len) in
                  let '(c, e, reader) := Reader_Read size reader in
                  match e with
                  | Some e => Some (None, Some e)
                  | None =>
                      if decide (length c ≠ size)
                      then Some (None, Some errCorruptedCodeFile)
                      else readCodes_loop fuel' reader (<[be_to_Z hash := c]> res)
                  end
            end
      end
  end.

(** What os.Stat and os.Open find under the file name. *)
Inductive FileEntry : Type :=
| NoFile
| Unreadable (e : GoError)
| Regular (content : list Byte.byte).

(** readCodes parses the content of the given file if it exists or returns
    an empty code collection if there is no such file.  The result is
    [None] only if the fuel runs out. *)
Definition readCodes (file : FileEntry)
    : option (option (gmap Z (list Byte.byte)) * error) :=
  match file with
  | NoFile => Some (Some ∅, None)
  | Unreadable e => Some (None, Some e)
  | Regular content => readCodes_loop (S (length content)) (NewReader content) ∅
  end.

(** The records of the code file format: [hash:32][length:4 BE][bytes]. *)
Definition encode_record (r : Hash * list Byte.byte) : list Byte.byte :=
  Z_to_be 32 r.1 ++ Z_to_be 4 (Z.of_nat (length r.2)) ++ r.2.

Definition encode_records (records : list (Hash * list Byte.byte))
    : list Byte.byte :=
  records ≫= encode_record.

Definition valid_record (r : Hash * list Byte.byte) : Prop :=
  0 ≤ r.1 < 2 ^ 256 ∧ Z.of_nat (length r.2) < 2 ^ 32.


(** The code map the records spell: a later record of a hash replaces an
    earlier one. *)
Definition add_codes (res : gmap Z (list Byte.byte))
    (records : list (Hash * list Byte.byte)) : gmap Z (list Byte.byte) :=
  foldl (λ m r, <[r.1 := r.2]> m) res records.

Definition codes_of (records : list (Hash * list Byte.byte))
    : gmap Z (list Byte.byte) :=
  add_codes ∅ records.

(** ** Writing the code file *)

(** [bufio.Writer] over a file that takes every write: the bytes written
    to the file so far and the bytes in the buffer. *)
Record Writer : Type := mkWriter {
  wr : list Byte.byte;
  wbuf : list Byte.byte;
}.

Definition NewWriter : Writer := mkWriter [] [].

Definition Available (b : Writer) : nat := (defaultBufSize - length (wbuf b))%nat.

Definition Writer_Flush (b : Writer) : Writer := mkWriter (wr b ++ wbuf b) [].

(** The bytes handed to the writer so far, flushed or not. *)
Definition Writer_bytes (b : Writer) : list Byte.byte := wr b ++ wbuf b.

(** The loop of bufio.Writer.Write: while the bytes do not fit the buffer,
    an empty buffer is by-passed and a filled one is flushed.  It returns
    the bytes left over for the buffer. *)
Fixpoint Writer_Write_loop (fuel : nat) (p : list Byte.byte) (b : Writer)
    : list Byte.byte * Writer :=
  match fuel with
  | O => (p, b)
  | S fuel' =>
      if decide (Available b < length p)%nat then
        if decide (wbuf b = []) then
          (* Large write, empty buffer: write directly from p. *)
          Writer_Write_loop fuel' [] (mkWriter (wr b ++ p) [])
        else
          let n := Available b in
          Writer_Write_loop fuel' (drop n p)
            (Writer_Flush (mkWriter (wr b) (wbuf b ++ take n p)))
      else (p, b)
  end.

(** Two rounds of the loop empty the buffer and write the rest; the third
    finds the exit condition. *)
Definition Writer_Write (p : list Byte.byte) (b : Writer) : Writer :=
  let '(p, b) := Writer_Write_loop 3 p b in
  mkWriter (wr b) (wbuf b ++ p).

(** binary.BigEndian.PutUint32(length[:], uint32(len(code))) *)
Definition PutUint32 (v : Z) : list Byte.byte := Z_to_be 4 (v mod 2 ^ 32).

Definition write_record (writer : Writer) (r : Hash * list Byte.byte) : Writer :=
  let writer := Writer_Write (Z_to_be 32 r.1) writer in
  let writer := Writer_Write (PutUint32 (Z.of_nat (length r.2))) writer in
  Writer_Write r.2 writer.

(** writeCodes writes the given map of codes to the given file.  [order]
    lists the entries of the map in the order in which [range] visits
    them; [create] is the error of os.Create, if any.  The result is the
    content of the file, when it was created, and the error. *)
Definition writeCodes (order : list (Hash * list Byte.byte)) (create : error)
    : option (list Byte.byte) * error :=
  match create with
  | Some e => (None, Some e)
  | None =>
      let writer := foldl write_record NewWriter order in
      (Some (wr (Writer_Flush writer)), None)
  end.

(** A state with one account, which has a storage slot set. *)
Definition example_trie : LiveTrie :=
  mkLiveTrie {[ 1 := mkAccount (mkAccountInfo 3 50 emptyCodeHash) {[ 7 := 9 ]} ]}
    [] None.

Definition example_state : MptState :=
  mkMptState example_trie ∅ "live/codes.json" false.

(** A code file with one record, whose code has 4061 bytes; and a file
    that ends after the hash of its only record. *)
Definition long_code : list Byte.byte := replicate 4061 Byte.x00.

Definition long_code_file : list Byte.byte := encode_records [(1, long_code)].


(** A map of two codes, and an order in which [range] may visit it. *)
Definition example_codes : gmap Z (list Byte.byte) :=
  {[ 5 := [Byte.x01; Byte.x02]; 7 := [] ]}.

Definition example_order : list (Z * list Byte.byte) :=
  [(7, []); (5, [Byte.x01; Byte.x02])].

(** A state whose trie fails with an I/O error. *)
Definition failing_state : MptState :=
  mkMptState (mkLiveTrie ∅ [] (Some (IoError "read failed"))) ∅
    "live/codes.json" false.


End Mpt.

Module CacheIndex.

(** ** Errors of package index *)
Inductive IndexError : Type :=
| ErrNotFound
| IndexFailure (reason : string).

#[global] Instance IndexError_eq_dec : EqDecision IndexError.
Proof. solve_decision. Defined.

(** ** common.Cache

    Modelled from the spec: the generic LRU cache (package common) is not
    part of the sources at hand, only its tests are.  A bounded mapping with
    the entries kept in access order, the most recently used one first:
    - get(k) returns (v, hit) and, on a hit, promotes the entry to the front;
    - set(k, v) inserts or refreshes the entry at the front; if the capacity
      is exceeded the least recently used entry is evicted and returned. *)
Section Cache.
Context {K V : Type} `{EqDecision K}.

Record Cache : Type := mkCache {
  entries : list (K * V);
  capacity : nat;
}.

Definition NewCache (capacity : nat) : Cache := mkCache [] capacity.

Definition without (key : K) (l : list (K * V)) : list (K * V) :=
  filter (λ e, e.1 ≠ key) l.

Definition Cache_Get (c : Cache) (key : K) : option V * Cache :=
  match list_find (λ e, e.1 = key) (entries c) with
  | Some (_, e) => (Some e.2, mkCache (e :: without key (entries c)) (capacity c))
  | None => (None, c)
  end.

Definition Cache_Set (c : Cache) (key : K) (val : V) : option (K * V) * Cache :=
  match list_find (λ e, e.1 = key) (entries c) with
  | Some _ => (None, mkCache ((key, val) :: without key (entries c)) (capacity c))
  | None =>
      let es := (key, val) :: entries c in
      if decide (capacity c < length es)%nat
      then (list.last es, mkCache (removelast es) (capacity c))
      else (None, mkCache es (capacity c))
  end.

End Cache.

Arguments Cache : clear implicits.

(** ** index.Index[K, I]

    The interface of the wrapped index, as far as the cache index calls it.
    Both calls may change the index behind the interface. *)
Class Index (K I T : Type) : Type := {
  index_GetOrAdd : T → K → T * (I * option IndexError);
  index_Get : T → K → T * (I * option IndexError);
}.

(** ** cache.Index

    Index wraps another index and a cache. *)
Section Index.
Context {K I T : Type} `{EqDecision K} `{Index K I T}.

Record CachedIndex : Type := mkIndex {
  wrapped : T;
  cache : Cache K I;
}.

Definition NewIndex (wrapped : T) (cacheCapacity : nat) : CachedIndex :=
  mkIndex wrapped (NewCache cacheCapacity).

(** GetOrAdd returns an index mapping for the key, or creates the new index. *)
Definition GetOrAdd (m : CachedIndex) (key : K)
    : CachedIndex * (I * option IndexError) :=
  let '(hit, c) := Cache_Get (cache m) key in
  match hit with
  | Some idx => (mkIndex (wrapped m) c, (idx, None))
  | None =>
      let '(w, (idx, err)) := index_GetOrAdd (wrapped m) key in
      let '(_, c) := Cache_Set c key idx in
      (mkIndex w c, (idx, err))
  end.

(** Get returns an index mapping for the key. *)
Definition Get (m : CachedIndex) (key : K)
    : CachedIndex * (I * option IndexError) :=
  let '(hit, c) := Cache_Get (cache m) key in
  match hit with
  | Some idx => (mkIndex (wrapped m) c, (idx, None))
  | None =>
      let '(w, (idx, err)) := index_Get (wrapped m) key in
      let '(_, c) := Cache_Set c key idx in
      (mkIndex w c, (idx, err))
  end.

(** Contains returns whether the key exists in the mapping or not. *)
Definition Contains (m : CachedIndex) (key : K) : CachedIndex * bool :=
  let '(hit, c) := Cache_Get (cache m) key in
  match hit with
  | Some _ => (mkIndex (wrapped m) c, true)
  | None =>
      let '(w, (idx, err)) := index_Get (wrapped m) key in
      if decide (err ≠ Some ErrNotFound)
      then let '(_, c) := Cache_Set c key idx in (mkIndex w c, false)
      else (mkIndex w c, false)
  end.

End Index.

Arguments CachedIndex : clear implicits.

(** ** An index in memory

    Modelled from the spec: the index implementations are not part of the
    sources at hand.  The keys in the order they were added; the index of a
    key is its position.  Get of a key that was never added returns the zero
    index and the distinguished error. *)
Record MemoryIndex : Type := mkMemoryIndex {
  keys : list Z;
}.

Definition position (key : Z) (l : list Z) : option nat :=
  fst <$> list_find (λ k, k = key) l.

#[global] Instance MemoryIndex_Index : Index Z Z MemoryIndex := {|
  index_GetOrAdd m key :=
    match position key (keys m) with
    | Some i => (m, (Z.of_nat i, None))
    | None => (mkMemoryIndex (keys m ++ [key]), (Z.of_nat (length (keys m)), None))
    end;
  index_Get m key :=
    match position key (keys m) with
    | Some i => (m, (Z.of_nat i, None))
    | None => (m, (0, Some ErrNotFound))
    end;
|}.

(** An index with nothing added, behind a cache of three entries. *)
Definition example_index : CachedIndex Z Z MemoryIndex :=
  NewIndex (mkMemoryIndex []) 3.

(** An index that holds the key 7, behind a cache of three entries. *)
Definition holding_index : CachedIndex Z Z MemoryIndex :=
  NewIndex (mkMemoryIndex [7]) 3.

End CacheIndex.

(** * The chunk reader (package utils) *)
Module ChunkReader.

(** chunkReader is an io.Reader that reads from the stored data, while
    returning them by parts of the configured size. *)
Record chunkReader : Type := mkChunkReader {
  data : list Byte.byte;
  size : Z;
}.

Definition NewChunkReader (data : list Byte.byte) (chunkSize : Z) : chunkReader :=
  mkChunkReader data chunkSize.

(** What a call of Read does: it returns the bytes copied into [p] and an
    error, or it panics. *)
Inductive ReadResult : Type :=
| Returned (p : list Byte.byte) (err : option Mpt.GoError) (r : chunkReader)
| Panics.

(** Read on a buffer [p] of length [n].  The slice r.data[0:r.size-1]
    panics when its upper bound is negative. *)
Definition Read (r : chunkReader) (n : nat) : ReadResult :=
  if decide (length (data r) = 0%nat) then Returned [] (Some Mpt.io_EOF) r
  else if decide (Z.of_nat (length (data r)) ≤ size r) then
    let p := take n (data r) in
    Returned p None (mkChunkReader (drop (length p) (data r)) (size r))
  else if decide (size r - 1 < 0) then Panics
  else
    let p := take n (take (Z.to_nat (size r - 1)) (data r)) in
    Returned p None (mkChunkReader (drop (length p) (data r)) (size r)).

(** Reading until io.EOF with buffers of length [n], as io.ReadAll and its
    like do: the bytes read, or [None] when Read panics or the rounds run
    out. *)
Fixpoint read_until_EOF (fuel : nat) (r : chunkReader) (n : nat)
    : option (list Byte.byte) :=
  match fuel with
  | O => None
  | S fuel' =>
      match Read r n with
      | Returned p (Some _) _ => Some p
      | Returned p None r' => (λ rest, p ++ rest) <$> read_until_EOF fuel' r' n
      | Panics => None
      end
  end.

End ChunkReader.

(** * The capacity of the MPT state (go/state/go_schema5.go) *)
Module Schema5.

Section capacity.
(** The constants of package mpt, which are not part of the sources at
    hand. *)
Variable DefaultMptStateCapacity : Z.
Variable MinMptStateCapacity : Z.

(** [param] is an int64; the division truncates and the conversion to int
    keeps the value. *)
Definition mptStateCapacity (param : Z) : Z :=
  if decide (param ≤ 0) then DefaultMptStateCapacity
  else
    let capacity := param ÷ 512 in
    if decide (capacity < MinMptStateCapacity) then MinMptStateCapacity
    else capacity.

End capacity.

End Schema5.

(** * Theorems *)

(** The first row of a sorted result is a least one for a total,
    transitive order. *)
Section order_by_facts.
Context {A : Type} (le : A → A → bool).
Lemma head_insert_by x l :
  head (insert_by le x l) =
    Some (match l with
          | [] => x
          | y :: _ => if le x y then x else y
          end).
Proof. destruct l as [|y l]; simpl; [done|]. by destruct (le x y). Qed.

Lemma elem_of_insert_by x y l : y ∈ insert_by le x l ↔ y = x ∨ y ∈ l.
Proof.
  induction l as [|z l IH]; simpl.
  - set_solver.
  - destruct (le x z); set_solver.
Qed.

Lemma elem_of_order_by y l : y ∈ order_by le l ↔ y ∈ l.
Proof.
  induction l as [|x l IH]; simpl; [done|].
  rewrite elem_of_insert_by, IH. set_solver.
Qed.

Lemma head_order_by_nil l : head (order_by le l) = None ↔ l = [].
Proof.
  destruct l as [|x l]; simpl; [done|].
  rewrite head_insert_by. split; discriminate.
Qed.

Hypothesis le_total : ∀ x y, le x y = true ∨ le y x = true.
Hypothesis le_trans : ∀ x y z, le x y = true → le y z = true → le x z = true.

Lemma head_order_by_least l m :
  head (order_by le l) = Some m → m ∈ l ∧ ∀ y, y ∈ l → le m y = true.
Proof.
  revert m. induction l as [|x l IH]; intros m; simpl; [done|].
  rewrite head_insert_by.
  destruct (order_by le l) as [|y s] eqn:Hs.
  - intros [= Hm]. subst m.
    apply (f_equal head), head_order_by_nil in Hs. subst l.
    split; [by left|]. intros y Hy. apply list_elem_of_singleton in Hy as ->.
    by destruct (le_total x x).
  - destruct (IH y eq_refl) as [Hy Hle].
    destruct (le x y) eqn:Hxy; intros [= Hm]; subst m.
    + split; [by left|]. intros z [->|Hz]%elem_of_cons.
      * by destruct (le_total x x).
      * eauto.
    + split; [by right|]. intros z [->|Hz]%elem_of_cons; [|by eauto].
      destruct (le_total y x) as [|Hc]; [done|]. by rewrite Hc in Hxy.
Qed.

(** A row placed behind all others that sorts strictly before them comes
    first. *)
Lemma head_order_by_snoc l x :
  (∀ y, y ∈ l → le y x = false) → head (order_by le (l ++ [x])) = Some x.
Proof.
  induction l as [|y l IH]; intros Hl; simpl; [done|].
  rewrite head_insert_by.
  assert (head (order_by le (l ++ [x])) = Some x) as Hhd.
  { apply IH. intros z Hz. apply Hl. by right. }
  destruct (order_by le (l ++ [x])) as [|z s]; [done|].
  simpl in Hhd. injection Hhd as ->.
  rewrite Hl; [done|by left].
Qed.

End order_by_facts.

Module ArchiveTheory.
Import Archive.

(** ** Running statements *)

Lemma bind_Val {A B} (m : Sql A) (k : A → Sql B) db db' b :
  (m ≫= k) db = (db', Val b) →
  ∃ db1 a, m db = (db1, Val a) ∧ k a db1 = (db', Val b).
Proof.
  unfold mbind, Sql_bind, sql_bind.
  destruct (m db) as [db1 [a|e]]; [eauto|done].
Qed.

Lemma for_each_ext {A} (l : list A) (f g : A → Sql ()) db :
  (∀ x db, f x db = g x db) → for_each l f db = for_each l g db.
Proof.
  intros Hfg. revert db. induction l as [|x l IH]; intros db; [done|].
  simpl. unfold mbind, Sql_bind, sql_bind. rewrite Hfg.
  destruct (g x db) as [db1 [[]|e]]; [apply IH|done].
Qed.

Lemma insert_pk_Some {R K} `{EqDecision K} (key : R → K) r tbl tbl' :
  insert_pk key r tbl = Some tbl' ↔ (key r ∉ (key <$> tbl)) ∧ tbl' = tbl ++ [r].
Proof. unfold insert_pk. case_decide; naive_solver. Qed.

(** A loop of INSERTs into one table.  The inserted row may depend on the
    rows of that table ([t]) and on the other tables. *)
Section inserts.
Context {X R K : Type} `{EqDecision K}.
Variable key : R → K.
Variable get : Sqlite → list R.
Variable set : list R → Sqlite → Sqlite.
Variable mk : list R → Sqlite → X → R.
Hypothesis get_set : ∀ t db, get (set t db) = t.
Hypothesis set_set : ∀ t1 t2 db, set t2 (set t1 db) = set t2 db.
Hypothesis mk_frame : ∀ t t' db x, mk t (set t' db) x = mk t db x.

Hypothesis set_get : ∀ db, set (get db) db = db.

Lemma inserted_frame t' db t l :
  inserted (λ t, mk t (set t' db)) t l = inserted (λ t, mk t db) t l.
Proof.
  revert t. induction l as [|x l IH]; intros t; simpl; [done|].
  by rewrite mk_frame, IH.
Qed.

Lemma for_each_insert l db db' :
  for_each l (λ x db, run_insert key get set (mk (get db) db x) db) db
  = (db', Val ()) →
  db' = set (inserted (λ t, mk t db) (get db) l) db
  ∧ (NoDup (key <$> get db) → NoDup (key <$> get db')).
Proof.
  revert db. induction l as [|x l IH]; intros db; simpl.
  - intros [= <-]. by rewrite set_get.
  - intros (db1 & [] & Hx & Hl)%bind_Val.
    unfold run_insert in Hx.
    destruct (insert_pk _ _ _) as [t|] eqn:Hins; [|done].
    apply insert_pk_Some in Hins as [Hfresh ->]. injection Hx as <-.
    destruct (IH _ Hl) as (Hdb' & Hnd).
    rewrite get_set in Hdb', Hnd. rewrite inserted_frame, set_set in Hdb'.
    split; [done|].
    intros Hdb. apply Hnd. rewrite fmap_app. apply list.NoDup_app.
    split; [done|]. split; [|apply NoDup_singleton].
    intros k Hk [->|[]%elem_of_nil]%elem_of_cons. done.
Qed.

End inserts.

Lemma inserted_const {X R} (f : X → R) t l :
  inserted (λ _, f) t l = t ++ (f <$> l).
Proof.
  revert t. induction l as [|x l IH]; intros t; simpl.
  - by rewrite app_nil_r.
  - rewrite IH. by rewrite <-app_assoc.
Qed.

Lemma loop_status ex blk l db db' :
  for_each l (λ addr, status_stmt ex addr blk addr) db = (db', Val ()) →
  db' = set_status (inserted (status_row ex blk) (tbl_status db) l) db
  ∧ (NoDup (row_key <$> tbl_status db) → NoDup (row_key <$> tbl_status db')).
Proof.
  intros Hl.
  apply (for_each_insert row_key tbl_status set_status
           (λ t _ addr, status_row ex blk t addr)) in Hl; try done.
  by intros [].
Qed.

Lemma loop_values {V} (get : Sqlite → list (Row V)) set
    (body : Address * V → Sql ()) blk l db db' :
  (∀ t db, get (set t db) = t) →
  (∀ t1 t2 db, set t2 (set t1 db) = set t2 db) →
  (∀ db, set (get db) db = db) →
  (∀ x db, body x db = run_insert row_key get set (value_row blk x) db) →
  for_each l body db = (db', Val ()) →
  db' = set (get db ++ (value_row blk <$> l)) db
  ∧ (NoDup (row_key <$> get db) → NoDup (row_key <$> get db')).
Proof.
  intros ??? Hbody Hl. rewrite (for_each_ext _ _ _ _ Hbody) in Hl.
  apply (for_each_insert row_key get set (λ _ _ x, value_row blk x)) in Hl;
    try done.
  by rewrite inserted_const in Hl.
Qed.

Lemma loop_storage blk l db db' :
  for_each l (λ '(addr, key, value),
                add_value_stmt addr addr blk key blk value) db
  = (db', Val ()) →
  db' = set_storage (tbl_storage db ++ (storage_row blk (tbl_status db) <$> l)) db
  ∧ (NoDup (storage_key <$> tbl_storage db)
     → NoDup (storage_key <$> tbl_storage db')).
Proof.
  intros Hl.
  rewrite (for_each_ext _ _
             (λ x db, run_insert storage_key tbl_storage set_storage
                        (storage_row blk (tbl_status db) x) db)) in Hl
    by (by intros [[??]?] ?).
  apply (for_each_insert storage_key tbl_storage set_storage
           (λ _ db x, storage_row blk (tbl_status db) x)) in Hl; try done.
  - by rewrite inserted_const in Hl.
  - by intros [].
Qed.

(** ** Conversions of block numbers *)

Lemma to_int64_BlockId b : is_BlockId b → to_int64 b = b.
Proof.
  unfold is_BlockId, to_int64. intros ?.
  rewrite Z.mod_small by lia. lia.
Qed.

Lemma to_BlockId_BlockId b : is_BlockId b → to_BlockId b = b.
Proof. unfold is_BlockId, to_BlockId. intros ?. by rewrite Z.mod_small by lia. Qed.

Lemma to_int_int_block b : is_int_block b → to_int b = b.
Proof.
  unfold is_int_block, to_int. intros ?.
  rewrite Z.mod_small by lia. lia.
Qed.

(** ** The value tables read back *)

Lemma desc_total {R} (blk : R → Z) x y :
  bool_decide (blk y ≤ blk x) = true ∨ bool_decide (blk x ≤ blk y) = true.
Proof.
  destruct (decide (blk y ≤ blk x)).
  - left. by apply bool_decide_eq_true.
  - right. apply bool_decide_eq_true. lia.
Qed.

Lemma desc_trans {R} (blk : R → Z) x y z :
  bool_decide (blk y ≤ blk x) = true → bool_decide (blk z ≤ blk y) = true →
  bool_decide (blk z ≤ blk x) = true.
Proof. rewrite !bool_decide_eq_true. lia. Qed.

Lemma lookup_entry_None {V} (l : list (Address * V)) account :
  lookup_entry l account = None ↔ account ∉ l.*1.
Proof.
  induction l as [|[a v] l IH]; csimpl.
  - split; [intros _ ?%elem_of_nil|]; done.
  - case_bool_decide as Ha.
    + subst a. split; [done|]. intros []. by left.
    + rewrite IH. split.
      * intros Hl [?|?]%elem_of_cons; by simplify_eq.
      * intros Hl ?. apply Hl. by right.
Qed.

Lemma filter_value_rows_absent {V} (l : list (Address * V)) account blk block :
  account ∉ l.*1 →
  filter (λ r : Row V, r_account r = account ∧ r_block r ≤ block)
    (value_row blk <$> l) = [].
Proof.
  induction l as [|[a v] l IH]; csimpl; [done|].
  rewrite not_elem_of_cons. intros [Hne Hl].
  rewrite filter_cons_False by (simpl; naive_solver). auto.
Qed.

Lemma filter_value_rows {V} (l : list (Address * V)) account blk block :
  NoDup l.*1 →
  filter (λ r : Row V, r_account r = account ∧ r_block r ≤ block)
    (value_row blk <$> l)
  = if decide (blk ≤ block)
    then match lookup_entry l account with
         | Some v => [mkRow account blk v]
         | None => []
         end
    else [].
Proof.
  induction l as [|[a v] l IH]; csimpl.
  - intros _. by destruct (decide _).
  - rewrite list.NoDup_cons. intros [Ha Hl]. specialize (IH Hl).
    case_bool_decide as Hacc.
    + subst a. destruct (decide (blk ≤ block)).
      * rewrite filter_cons_True by done.
        by rewrite filter_value_rows_absent.
      * rewrite filter_cons_False by (simpl; lia). done.
    + rewrite filter_cons_False by (simpl; naive_solver). done.
Qed.

Lemma elem_of_value_rows {V} (field : Update → list (Address * V)) history r :
  r ∈ value_rows field history →
  ∃ e, e ∈ history ∧ r_block r = to_int e.1.
Proof.
  unfold value_rows. rewrite list_elem_of_bind.
  intros (e & (x & -> & _)%list_elem_of_fmap & He). eauto.
Qed.

(** Reading a value table of a history returns the latest write. *)
Lemma select_latest_value_rows {V} (field : Update → list (Address * V))
    history block account :
  increasing history →
  (∀ e, e ∈ history → is_int_block e.1) →
  is_int_block block →
  NoDup (row_key <$> value_rows field history) →
  r_value <$> select_latest (value_rows field history) account (to_int block)
  = latest_write field history block account.
Proof.
  intros Hinc Hint Hblock. rewrite (to_int_int_block block) by done.
  induction Hinc as [|history b update _ IH Hb Habove]; [done|].
  unfold value_rows, latest_write. rewrite bind_app, foldl_snoc. simpl.
  rewrite app_nil_r. fold (value_rows field history).
  fold (latest_write field history block account).
  rewrite fmap_app. intros (Hnd & _ & Hnew)%list.NoDup_app.
  assert (to_int b = b) as Hb'.
  { apply to_int_int_block, (Hint (b, update)). set_solver. }
  rewrite Hb' in Hnew |- *.
  unfold select_latest. rewrite list.filter_app, filter_value_rows.
  2:{ apply (NoDup_fmap_1 (λ a, (a, b))).
      by rewrite <-!list_fmap_compose in *. }
  rewrite <-IH by (done || set_solver).
  case_bool_decide as Hle.
  - rewrite decide_True by done.
    destruct (lookup_entry (field update) account) as [v|]; [|by rewrite app_nil_r].
    erewrite head_order_by_snoc; [done|].
    intros y [[_ _] Hy]%list_elem_of_filter. apply bool_decide_eq_false. simpl.
    apply elem_of_value_rows in Hy as (e & He & ->).
    rewrite to_int_int_block by (apply Hint; set_solver).
    specialize (Habove e He). lia.
  - rewrite decide_False by done. by rewrite app_nil_r.
Qed.

(** ** The status table *)

Lemma filter_ext_in {A} (P1 P2 : A → Prop)
    `{!∀ x, Decision (P1 x), !∀ x, Decision (P2 x)} (l : list A) :
  (∀ x, x ∈ l → P1 x ↔ P2 x) → filter P1 l = filter P2 l.
Proof.
  induction l as [|x l IH]; intros Hl; [done|].
  rewrite !filter_cons, IH by (intros; apply Hl; by right).
  apply decide_ext, Hl. by left.
Qed.

Lemma foldl_ext_in {A B} (f g : A → B → A) (a : A) (l : list B) :
  (∀ acc x, x ∈ l → f acc x = g acc x) → foldl f a l = foldl g a l.
Proof.
  revert a. induction l as [|x l IH]; intros a Hfg; [done|].
  simpl. rewrite Hfg by (by left). apply IH. intros. apply Hfg. by right.
Qed.

Lemma length_filter_mono {A} (P1 P2 : A → Prop)
    `{!∀ x, Decision (P1 x), !∀ x, Decision (P2 x)} (l : list A) :
  (∀ x, x ∈ l → P1 x → P2 x) →
  (length (filter P1 l) ≤ length (filter P2 l))%nat.
Proof.
  induction l as [|x l IH]; intros Hl; [done|].
  assert (length (filter P1 l) ≤ length (filter P2 l))%nat
    by (apply IH; intros; apply Hl; [by right|done]).
  rewrite !filter_cons. destruct (decide (P1 x)) as [HP|HP].
  - rewrite decide_True by (apply Hl; [by left|done]). simpl. lia.
  - destruct (decide (P2 x)); simpl; lia.
Qed.

Lemma length_filter_mono_strict {A} (P1 P2 : A → Prop)
    `{!∀ x, Decision (P1 x), !∀ x, Decision (P2 x)} (l : list A) y :
  (∀ x, x ∈ l → P1 x → P2 x) → y ∈ l → P2 y → ¬ P1 y →
  (length (filter P1 l) < length (filter P2 l))%nat.
Proof.
  induction l as [|x l IH]; intros Hl Hy HP2 HP1; [by apply elem_of_nil in Hy|].
  assert (length (filter P1 l) ≤ length (filter P2 l))%nat
    by (apply length_filter_mono; intros; apply Hl; [by right|done]).
  rewrite !filter_cons. apply elem_of_cons in Hy as [<-|Hy].
  - rewrite decide_False, decide_True by done. simpl. lia.
  - assert (length (filter P1 l) < length (filter P2 l))%nat
      by (apply IH; [intros; apply Hl; [by right|done]|done..]).
    destruct (decide (P1 x)) as [HP|HP].
    + rewrite decide_True by (apply Hl; [by left|done]). simpl. lia.
    + destruct (decide (P2 x)); simpl; lia.
Qed.

Lemma sql_max_snoc l x :
  sql_max (l ++ [x])
  = Some (match sql_max l with None => x | Some m => Z.max m x end).
Proof.
  induction l as [|y l IH]; simpl; [done|].
  rewrite IH. destruct (sql_max l); f_equal; lia.
Qed.

Lemma next_reincarnation_filter t t' a :
  filter (λ r : Row StatusInfo, r_account r = a) t
  = filter (λ r : Row StatusInfo, r_account r = a) t' →
  next_reincarnation t a = next_reincarnation t' a.
Proof. unfold next_reincarnation. by intros ->. Qed.

Lemma inserted_cons {X R} (mk : list R → X → R) t x l :
  inserted mk t (x :: l) = inserted mk (t ++ [mk t x]) l.
Proof. done. Qed.

Lemma keys_inserted_status ex blk t l :
  row_key <$> inserted (status_row ex blk) t l
  = (row_key <$> t) ++ ((λ x, (x, blk)) <$> l).
Proof.
  revert t. induction l as [|x l IH]; intros t.
  - by rewrite app_nil_r.
  - rewrite inserted_cons, IH, fmap_app, fmap_cons. by rewrite <-app_assoc.
Qed.

Lemma filter_inserted_status (Q : Z → Prop) `{!∀ x, Decision (Q x)}
    ex blk t l a :
  NoDup l →
  filter (λ r, r_account r = a ∧ Q (r_block r)) (inserted (status_row ex blk) t l)
  = filter (λ r, r_account r = a ∧ Q (r_block r)) t
    ++ (if decide (a ∈ l ∧ Q blk)
        then [mkRow a blk (mkStatusInfo ex (next_reincarnation t a))]
        else []).
Proof.
  revert t. induction l as [|x l IH]; intros t.
  - intros _. rewrite decide_False; [by rewrite app_nil_r|].
    by intros [?%elem_of_nil _].
  - rewrite list.NoDup_cons. intros [Hx Hl].
    rewrite inserted_cons, IH by done. rewrite list.filter_app.
    destruct (decide (x = a)) as [->|Hne].
    + rewrite (decide_False (P := a ∈ l ∧ _)) by naive_solver.
      rewrite app_nil_r. f_equal.
      destruct (decide (Q blk)).
      * rewrite filter_cons_True by done.
        by rewrite decide_True by (split; [by left|done]).
      * rewrite filter_cons_False by (simpl; naive_solver).
        by rewrite decide_False by naive_solver.
    + rewrite filter_cons_False by (simpl; naive_solver).
      rewrite filter_nil, app_nil_r. f_equal.
      rewrite (next_reincarnation_filter (t ++ _) t).
      2:{ rewrite list.filter_app, filter_cons_False by (simpl; naive_solver).
          by rewrite filter_nil, app_nil_r. }
      apply decide_ext. rewrite elem_of_cons. naive_solver.
Qed.

Section archive.
Variable AccountUpdate_GetHash : AccountUpdate → Hash.
Variable GetSha256Hash : Hash → Hash → Hash.
Variable Sha256Hasher : list Hash → Hash.

Lemma loop_hashes block l db db' :
  for_each l (λ '(addr, hash),
      last_hash ← sql_read (λ db, internal_GetAccountHash_db db block addr) ;
      add_account_hash_stmt addr (to_int block) (GetSha256Hash last_hash hash)) db
  = (db', Val ()) →
  db' = set_account_hash
          (inserted (hash_row GetSha256Hash block) (tbl_account_hash db) l) db
  ∧ (NoDup (row_key <$> tbl_account_hash db)
     → NoDup (row_key <$> tbl_account_hash db')).
Proof.
  intros Hl.
  rewrite (for_each_ext _ _
             (λ x db, run_insert row_key tbl_account_hash set_account_hash
                        (hash_row GetSha256Hash block (tbl_account_hash db) x) db)) in Hl
    by (by intros [??] ?).
  apply (for_each_insert row_key tbl_account_hash set_account_hash
           (λ t _ x, hash_row GetSha256Hash block t x)) in Hl; try done.
  by intros [].
Qed.

Lemma internal_Add_transaction_ok block update db db' :
  internal_Add_transaction GetSha256Hash block update
    (AccountUpdate_GetHash <$> AccountUpdate_From update) db = (db', Val ()) →
  in_transaction db = false
  ∧ db' = applied AccountUpdate_GetHash GetSha256Hash block update db
  ∧ (to_int64 block ∉ tbl_block db)
  ∧ (primary_keys db → primary_keys db').
Proof.
  unfold internal_Add_transaction.
  intros (db1 & [] & Hbegin & H)%bind_Val.
  apply bind_Val in H as (db2 & [] & Hblock & H).
  apply bind_Val in H as (db3 & [] & Hdel & H).
  apply bind_Val in H as (db4 & [] & Hcre & H).
  apply bind_Val in H as (db5 & [] & Hbal & H).
  apply bind_Val in H as (db6 & [] & Hcod & H).
  apply bind_Val in H as (db7 & [] & Hnon & H).
  apply bind_Val in H as (db8 & [] & Hsto & H).
  apply bind_Val in H as (db9 & [] & Hhash & Hend).
  unfold begin_transaction in Hbegin.
  destruct (in_transaction db) eqn:Htx; [done|]. injection Hbegin as <-.
  unfold add_block_stmt, run_insert in Hblock.
  destruct (insert_pk _ _ _) as [t|] eqn:Hins; [|done].
  apply insert_pk_Some in Hins as [Hfresh ->]. injection Hblock as <-.
  apply loop_status in Hdel as [-> Hk3].
  apply loop_status in Hcre as [-> Hk4].
  apply (loop_values tbl_balance set_balance _ (to_int block)) in Hbal as [-> Hk5];
    [|done|done|by intros []|by intros []].
  apply (loop_values tbl_code set_code _ (to_int block)) in Hcod as [-> Hk6];
    [|done|done|by intros []|by intros []].
  apply (loop_values tbl_nonce set_nonce _ (to_int block)) in Hnon as [-> Hk7];
    [|done|done|by intros []|by intros []].
  apply loop_storage in Hsto as [-> Hk8].
  apply loop_hashes in Hhash as [-> Hk9].
  unfold end_transaction in Hend. simpl in Hend. injection Hend as <-.
  split; [done|]. split; [|split].
  - destruct db; simpl in *; subst. reflexivity.
  - destruct db; simpl in *. by rewrite list_fmap_id in Hfresh.
  - intros (?&?&?&?&?&?&?). destruct db; simpl in *.
    rewrite list_fmap_id in Hfresh.
    repeat split; simpl; eauto.
    apply list.NoDup_app. split; [done|]. split; [|apply NoDup_singleton].
    intros k Hk [->|[]%elem_of_nil]%elem_of_cons. done.
Qed.

(** The latest block of the block table. *)
Lemma get_block_height_stmt_least db n :
  get_block_height_stmt db = Some n →
  n ∈ tbl_block db ∧ ∀ m, m ∈ tbl_block db → m ≤ n.
Proof.
  unfold get_block_height_stmt. intros Hhd.
  apply head_order_by_least in Hhd as [Hn Hle].
  - split; [done|]. intros m Hm. specialize (Hle m Hm). by case_bool_decide.
  - intros x y. destruct (decide (y ≤ x)).
    + left. by apply bool_decide_eq_true.
    + right. apply bool_decide_eq_true. lia.
  - intros x y z ?%bool_decide_eq_true ?%bool_decide_eq_true.
    apply bool_decide_eq_true. lia.
Qed.


(** What a call of [internal_Add] that returns OK has done. *)
Lemma internal_Add_ok block update a a' :
  internal_Add AccountUpdate_GetHash GetSha256Hash block update a = (a', OkStatus) →
  stmts_ a = true
  ∧ in_transaction (db_ a) = false
  ∧ a' = mkArchiveImpl
           (applied AccountUpdate_GetHash GetSha256Hash block update (db_ a)) true
  ∧ ¬ (0 ≤ default (-1) (get_block_height_stmt (db_ a))
       ∧ block ≤ to_BlockId (default (-1) (get_block_height_stmt (db_ a))))
  ∧ (primary_keys (db_ a)
     → primary_keys (applied AccountUpdate_GetHash GetSha256Hash block update (db_ a))).
Proof.
  unfold internal_Add, internal_GetLastBlockHeight.
  destruct (stmts_ a) eqn:Hst; simpl; [|done].
  destruct (bool_decide (0 ≤ _) && bool_decide (block ≤ _)) eqn:Hpre; [done|].
  destruct (internal_Add_transaction _ _ _ _ _) as [db' [[]|e]] eqn:Htx; [|done].
  intros [= <-].
  apply internal_Add_transaction_ok in Htx as (Hin & -> & _ & Hkeys).
  split; [done|]. split; [done|]. split; [done|]. split; [|done].
  intros [H1 H2]. apply andb_false_iff in Hpre as [Hf|Hf];
    apply bool_decide_eq_false in Hf; done.
Qed.

(** The block a call that returns OK inserts is above the blocks present. *)
Lemma internal_Add_ok_above block update a a' :
  internal_Add AccountUpdate_GetHash GetSha256Hash block update a = (a', OkStatus) →
  (∀ n, n ∈ tbl_block (db_ a) → is_BlockId n) →
  ∀ n, n ∈ tbl_block (db_ a) → n < block.
Proof.
  intros (_ & _ & _ & Hpre & _)%internal_Add_ok Hids n Hn.
  destruct (get_block_height_stmt (db_ a)) as [m|] eqn:Hm.
  - apply get_block_height_stmt_least in Hm as [Hm Hle]. simpl in Hpre.
    rewrite to_BlockId_BlockId in Hpre by auto.
    specialize (Hle n Hn). specialize (Hids n Hn). unfold is_BlockId in Hids. lia.
  - apply head_order_by_nil in Hm. rewrite Hm in Hn. by apply elem_of_nil in Hn.
Qed.

Lemma tbl_block_applied block update db :
  tbl_block (applied AccountUpdate_GetHash GetSha256Hash block update db)
  = tbl_block db ++ [to_int64 block].
Proof. done. Qed.


Lemma increasing_BlockId history e :
  increasing history → e ∈ history → is_BlockId e.1.
Proof.
  induction 1 as [|history block update _ IH Hb _]; [by intros ?%elem_of_nil|].
  rewrite elem_of_app, list_elem_of_singleton. intros [?| ->]; auto.
Qed.

Lemma db_of_snoc history block update :
  db_of AccountUpdate_GetHash GetSha256Hash (history ++ [(block, update)])
  = applied AccountUpdate_GetHash GetSha256Hash block update
      (db_of AccountUpdate_GetHash GetSha256Hash history).
Proof. unfold db_of. by rewrite foldl_snoc. Qed.

Lemma tbl_block_db_of history :
  increasing history →
  tbl_block (db_of AccountUpdate_GetHash GetSha256Hash history) = history.*1.
Proof.
  induction 1 as [|history block update _ IH Hb _]; [done|].
  rewrite db_of_snoc, tbl_block_applied, IH, fmap_app. simpl.
  by rewrite to_int64_BlockId.
Qed.

Lemma in_transaction_db_of history :
  in_transaction (db_of AccountUpdate_GetHash GetSha256Hash history) = false.
Proof.
  induction history as [|e history IH] using rev_ind; [done|].
  destruct e. by rewrite db_of_snoc.
Qed.

Lemma tbl_balance_db_of history :
  tbl_balance (db_of AccountUpdate_GetHash GetSha256Hash history)
  = value_rows GetBalances history.
Proof.
  induction history as [|e history IH] using rev_ind; [done|].
  destruct e as [block update]. rewrite db_of_snoc. unfold value_rows.
  rewrite bind_app. simpl. rewrite app_nil_r. unfold value_rows in IH.
  by rewrite <-IH.
Qed.

Lemma tbl_code_db_of history :
  tbl_code (db_of AccountUpdate_GetHash GetSha256Hash history)
  = value_rows GetCodes history.
Proof.
  induction history as [|e history IH] using rev_ind; [done|].
  destruct e as [block update]. rewrite db_of_snoc. unfold value_rows.
  rewrite bind_app. simpl. rewrite app_nil_r. unfold value_rows in IH.
  by rewrite <-IH.
Qed.

Lemma tbl_nonce_db_of history :
  tbl_nonce (db_of AccountUpdate_GetHash GetSha256Hash history)
  = value_rows GetNonces history.
Proof.
  induction history as [|e history IH] using rev_ind; [done|].
  destruct e as [block update]. rewrite db_of_snoc. unfold value_rows.
  rewrite bind_app. simpl. rewrite app_nil_r. unfold value_rows in IH.
  by rewrite <-IH.
Qed.

(** An archive produced by a history holds the database of that history. *)
Lemma Produced_db history a :
  Produced AccountUpdate_GetHash GetSha256Hash history a →
  a = mkArchive (Some (mkArchiveImpl
                         (db_of AccountUpdate_GetHash GetSha256Hash history) true))
  ∧ increasing history
  ∧ primary_keys (db_of AccountUpdate_GetHash GetSha256Hash history).
Proof.
  induction 1 as [|history a block update a' _ (-> & Hinc & Hkeys) Hblock Hadd].
  - split; [done|]. split; [constructor|]. repeat split; constructor.
  - unfold Add in Hadd. simpl in Hadd.
    destruct (internal_Add _ _ _ _ _) as [impl' st] eqn:Himpl.
    injection Hadd as <- ->.
    pose proof (internal_Add_ok_above _ _ _ _ Himpl) as Habove. simpl in Habove.
    apply internal_Add_ok in Himpl as (_ & _ & -> & _ & Hkeys').
    rewrite db_of_snoc. split; [done|]. split; [|auto].
    constructor; [done|done|]. intros e He. apply Habove.
    + rewrite tbl_block_db_of by done. intros n (e' & -> & He')%list_elem_of_fmap.
      by eapply increasing_BlockId.
    + rewrite tbl_block_db_of by done. by apply list_elem_of_fmap_2.
Qed.

(** *** The status table of a history *)

Lemma tbl_status_applied block update db :
  tbl_status (applied AccountUpdate_GetHash GetSha256Hash block update db)
  = inserted (status_row 1 (to_int block))
      (inserted (status_row 0 (to_int block)) (tbl_status db)
         (GetDeletedAccounts update))
      (GetCreatedAccounts update).
Proof. done. Qed.

Lemma status_keys_applied block update db :
  NoDup (row_key <$>
         tbl_status (applied AccountUpdate_GetHash GetSha256Hash block update db)) →
  NoDup (row_key <$> tbl_status db)
  ∧ NoDup (GetDeletedAccounts update ++ GetCreatedAccounts update).
Proof.
  rewrite tbl_status_applied, !keys_inserted_status, <-app_assoc, <-fmap_app.
  intros (? & _ & Hnew)%list.NoDup_app. split; [done|].
  by apply NoDup_fmap_1 in Hnew.
Qed.

Lemma filter_account_inserted_other ex blk t l a :
  a ∉ l →
  filter (λ r : Row StatusInfo, r_account r = a) (inserted (status_row ex blk) t l)
  = filter (λ r : Row StatusInfo, r_account r = a) t.
Proof.
  revert t. induction l as [|x l IH]; intros t; [done|].
  rewrite not_elem_of_cons. intros [Hne Hl].
  rewrite inserted_cons, IH by done.
  rewrite list.filter_app, filter_cons_False by (simpl; naive_solver).
  by rewrite filter_nil, app_nil_r.
Qed.

Lemma filter_status_applied (Q : Z → Prop) `{!∀ x, Decision (Q x)}
    block update db a :
  NoDup (GetDeletedAccounts update ++ GetCreatedAccounts update) →
  filter (λ r, r_account r = a ∧ Q (r_block r))
    (tbl_status (applied AccountUpdate_GetHash GetSha256Hash block update db))
  = filter (λ r, r_account r = a ∧ Q (r_block r)) (tbl_status db)
    ++ (if decide (status_event a update ∧ Q (to_int block))
        then [mkRow a (to_int block)
                (mkStatusInfo (if decide (a ∈ GetDeletedAccounts update) then 0 else 1)
                   (next_reincarnation (tbl_status db) a))]
        else []).
Proof.
  intros (Hdel & Hdisj & Hcre)%list.NoDup_app.
  rewrite tbl_status_applied, !filter_inserted_status by done.
  rewrite <-app_assoc. f_equal. unfold status_event.
  destruct (decide (a ∈ GetDeletedAccounts update)) as [Hin|Hin].
  - rewrite (decide_False (P := a ∈ GetCreatedAccounts update ∧ _))
      by (intros [? _]; by eapply Hdisj).
    rewrite app_nil_r. apply decide_ext. rewrite elem_of_app. naive_solver.
  - rewrite (decide_False (P := a ∈ GetDeletedAccounts update ∧ _)) by naive_solver.
    simpl.
    rewrite (next_reincarnation_filter (inserted _ _ _) (tbl_status db))
      by (by apply filter_account_inserted_other).
    apply decide_ext. rewrite elem_of_app. naive_solver.
Qed.

Lemma elem_of_tbl_status history r :
  r ∈ tbl_status (db_of AccountUpdate_GetHash GetSha256Hash history) →
  ∃ e, e ∈ history ∧ r_block r = to_int e.1.
Proof.
  induction history as [|[b u] history IH] using rev_ind.
  - by intros ?%elem_of_nil.
  - rewrite db_of_snoc, tbl_status_applied. intros Hf.
    assert (∀ ex t l, r ∈ inserted (status_row ex (to_int b)) t l →
                      r ∈ t ∨ r_block r = to_int b) as Hins.
    { intros ex t l. revert t. induction l as [|x l IHl]; intros t; [by left|].
      rewrite inserted_cons. intros [Ht|?]%IHl; [|by right].
      apply elem_of_app in Ht as [?|Hx%list_elem_of_singleton]; [by left|].
      subst r. by right. }
    apply Hins in Hf as [Hf|?].
    + apply Hins in Hf as [Hf|?].
      * destruct (IH Hf) as (e & ? & ?). exists e. set_solver.
      * exists (b, u). set_solver.
    + exists (b, u). set_solver.
Qed.

(** MAX(reincarnation) over the status rows of an account up to a bound is
    the number of its creations and deletions up to the bound, less one. *)
Lemma sql_max_status history :
  increasing history →
  (∀ e, e ∈ history → is_int_block e.1) →
  NoDup (row_key <$> tbl_status (db_of AccountUpdate_GetHash GetSha256Hash history)) →
  ∀ (Q : Z → Prop) `{!∀ x, Decision (Q x)} a,
    (∀ x y, Q y → x ≤ y → Q x) →
    sql_max ((λ r, reincarnation (r_value r)) <$>
             filter (λ r, r_account r = a ∧ Q (r_block r))
               (tbl_status (db_of AccountUpdate_GetHash GetSha256Hash history)))
    = (let n := Z.of_nat (length (filter (λ e, Q e.1 ∧ status_event a e.2) history)) in
       if decide (n = 0) then None else Some (n - 1)).
Proof.
  induction 1 as [|history b u Hinc IH Hb Habove]; intros Hint Hkeys Q HQ a Hdown;
    [done|].
  rewrite db_of_snoc in Hkeys |- *.
  apply status_keys_applied in Hkeys as [Hkeys Hnew].
  assert (to_int b = b) as Hb'.
  { apply to_int_int_block, (Hint (b, u)). set_solver. }
  assert (∀ e, e ∈ history → is_int_block e.1) as Hint' by set_solver.
  specialize (IH Hint' Hkeys Q HQ a Hdown). simpl in IH.
  rewrite filter_status_applied by done. rewrite Hb'.
  rewrite list.filter_app, filter_cons, filter_nil. simpl.
  destruct (decide (status_event a u ∧ Q b)) as [[Hev HQb]|Hno].
  - rewrite (decide_True (P := Q b ∧ status_event a u)) by done.
    rewrite fmap_app, fmap_cons, fmap_nil, sql_max_snoc, IH. simpl.
    rewrite length_app. simpl.
    assert (next_reincarnation (tbl_status (db_of AccountUpdate_GetHash GetSha256Hash history)) a
            = Z.of_nat (length (filter (λ e, Q e.1 ∧ status_event a e.2) history)))
      as ->.
    { unfold next_reincarnation.
      rewrite (filter_ext_in (λ r, r_account r = a) (λ r, r_account r = a ∧ Q (r_block r))).
      - rewrite IH. case_decide; simpl; lia.
      - intros r (e & He & ->)%elem_of_tbl_status.
        rewrite to_int_int_block by auto.
        split; [|naive_solver]. intros ?. split; [done|].
        apply (Hdown _ b); [done|]. specialize (Habove e He). lia. }
    generalize (length (filter (λ e, Q e.1 ∧ status_event a e.2) history)).
    intros n. rewrite (decide_False (P := Z.of_nat (n + 1) = 0)) by lia.
    f_equal. destruct (decide (Z.of_nat n = 0)); simpl; lia.
  - rewrite (decide_False (P := Q b ∧ status_event a u)) by naive_solver.
    by rewrite !app_nil_r.
Qed.

Lemma current_reincarnation_db_of history a block :
  increasing history →
  (∀ e, e ∈ history → is_int_block e.1) →
  NoDup (row_key <$> tbl_status (db_of AccountUpdate_GetHash GetSha256Hash history)) →
  current_reincarnation
    (tbl_status (db_of AccountUpdate_GetHash GetSha256Hash history)) a block
  = reincarnation_as_of history a block.
Proof.
  intros Hinc Hint Hkeys. unfold current_reincarnation, reincarnation_as_of, status_events.
  pose proof (sql_max_status history Hinc Hint Hkeys (λ x, x ≤ block) a) as Hmax.
  simpl in Hmax. rewrite Hmax by (intros; lia).
  generalize (length (filter (λ e, e.1 ≤ block ∧ status_event a e.2) history)).
  intros n. destruct (decide (Z.of_nat n = 0)); simpl; lia.
Qed.

(** *** The storage table of a history *)

Lemma tbl_storage_applied block update db :
  tbl_storage (applied AccountUpdate_GetHash GetSha256Hash block update db)
  = tbl_storage db
    ++ (storage_row (to_int block)
          (tbl_status (applied AccountUpdate_GetHash GetSha256Hash block update db))
        <$> GetStorage_ update).
Proof. done. Qed.

Lemma storage_keys_applied block update db :
  NoDup (storage_key <$>
         tbl_storage (applied AccountUpdate_GetHash GetSha256Hash block update db)) →
  NoDup (storage_key <$> tbl_storage db)
  ∧ NoDup ((λ e, (e.1.1, e.1.2)) <$> GetStorage_ update).
Proof.
  rewrite tbl_storage_applied, fmap_app.
  intros (? & _ & Hnew)%list.NoDup_app. split; [done|].
  rewrite <-list_fmap_compose in Hnew.
  set (status := tbl_status _) in Hnew.
  apply (NoDup_fmap_1
           (λ p : Z * Z, (p.1, current_reincarnation status p.1 (to_int block),
                          p.2, to_int block))).
  by rewrite <-list_fmap_compose.
Qed.

Lemma elem_of_tbl_storage history r :
  r ∈ tbl_storage (db_of AccountUpdate_GetHash GetSha256Hash history) →
  ∃ e, e ∈ history ∧ s_block r = to_int e.1.
Proof.
  induction history as [|[b u] history IH] using rev_ind.
  - by intros ?%elem_of_nil.
  - rewrite db_of_snoc, tbl_storage_applied, elem_of_app.
    intros [Hr|(x & -> & _)%list_elem_of_fmap].
    + destruct (IH Hr) as (e & ? & ?). exists e. set_solver.
    + exists (b, u). set_solver.
Qed.

Lemma status_events_snoc_above history b u a block :
  block < b →
  status_events (history ++ [(b, u)]) a block = status_events history a block.
Proof.
  intros Hlt. unfold status_events.
  rewrite list.filter_app, filter_cons_False by (simpl; lia).
  by rewrite filter_nil, app_nil_r.
Qed.

Lemma reincarnation_as_of_snoc_above history b u a block :
  block < b →
  reincarnation_as_of (history ++ [(b, u)]) a block
  = reincarnation_as_of history a block.
Proof.
  intros ?. unfold reincarnation_as_of. by rewrite status_events_snoc_above.
Qed.

Lemma lookup_slot_None (l : list (Address * Key * Value)) a k :
  lookup_slot l a k = None ↔ (a, k) ∉ (λ e, (e.1.1, e.1.2)) <$> l.
Proof.
  induction l as [|[[a' k'] v] l IH]; csimpl.
  - split; [intros _ ?%elem_of_nil|]; done.
  - case_bool_decide as Ha.
    + destruct Ha as [-> ->]. split; [done|]. intros []. by left.
    + rewrite IH. split.
      * intros Hl [?|?]%elem_of_cons; [|done]. simplify_eq. naive_solver.
      * intros Hl ?. apply Hl. by right.
Qed.

Lemma filter_storage_rows (l : list (Address * Key * Value)) status blk
    a r k block :
  NoDup ((λ e, (e.1.1, e.1.2)) <$> l) →
  filter (λ row, s_account row = a ∧ s_reincarnation row = r
                 ∧ s_slot row = k ∧ s_block row ≤ block)
    (storage_row blk status <$> l)
  = if decide (blk ≤ block ∧ current_reincarnation status a blk = r)
    then match lookup_slot l a k with
         | Some v => [mkStorageRow a r k blk v]
         | None => []
         end
    else [].
Proof.
  induction l as [|[[a' k'] v] l IH]; csimpl.
  - intros _. by destruct (decide _).
  - rewrite list.NoDup_cons. intros [Hfresh Hl]. specialize (IH Hl).
    case_bool_decide as Ha.
    + destruct Ha as [-> ->].
      assert (lookup_slot l a k = None) as Hnone by by apply lookup_slot_None.
      rewrite Hnone in IH.
      assert (filter (λ row, s_account row = a ∧ s_reincarnation row = r
                             ∧ s_slot row = k ∧ s_block row ≤ block)
                (storage_row blk status <$> l) = []) as Hrest.
      { rewrite IH. by destruct (decide _). }
      destruct (decide (blk ≤ block ∧ current_reincarnation status a blk = r))
        as [[? <-]|Hno].
      * rewrite filter_cons_True by done. by rewrite Hrest.
      * rewrite filter_cons_False; [done|]. unfold storage_row. simpl.
        naive_solver.
    + rewrite filter_cons_False; [done|]. unfold storage_row. simpl. naive_solver.
Qed.

(** Reading the storage table of a history under a given reincarnation. *)
Lemma select_storage history a k block :
  increasing history →
  (∀ e, e ∈ history → is_int_block e.1) →
  NoDup (row_key <$> tbl_status (db_of AccountUpdate_GetHash GetSha256Hash history)) →
  NoDup (storage_key <$> tbl_storage (db_of AccountUpdate_GetHash GetSha256Hash history)) →
  ∀ r,
    s_value <$>
      head (order_by (λ r1 r2, bool_decide (s_block r2 ≤ s_block r1))
              (filter (λ row, s_account row = a ∧ s_reincarnation row = r
                              ∧ s_slot row = k ∧ s_block row ≤ block)
                 (tbl_storage (db_of AccountUpdate_GetHash GetSha256Hash history))))
    = foldl (slot_write_step history block a k r) None history.
Proof.
  induction 1 as [|history b u Hinc IH Hb Habove]; intros Hint Hstatus Hstorage r;
    [done|].
  assert (increasing (history ++ [(b, u)])) as Hinc' by by constructor.
  rewrite db_of_snoc in Hstatus, Hstorage |- *.
  pose proof Hstatus as [Hstatus' _]%status_keys_applied.
  apply storage_keys_applied in Hstorage as [Hstorage' Hnew].
  assert (to_int b = b) as Hb'.
  { apply to_int_int_block, (Hint (b, u)). set_solver. }
  assert (∀ e, e ∈ history → is_int_block e.1) as Hint' by set_solver.
  specialize (IH Hint' Hstatus' Hstorage' r).
  rewrite foldl_snoc.
  rewrite (foldl_ext_in _ (slot_write_step history block a k r)).
  2:{ intros acc e He. unfold slot_write_step.
      rewrite reincarnation_as_of_snoc_above; [done|]. by apply Habove. }
  rewrite <-IH. clear IH.
  rewrite tbl_storage_applied, list.filter_app, filter_storage_rows by done.
  rewrite <-db_of_snoc in *. rewrite current_reincarnation_db_of by done.
  rewrite Hb'. unfold slot_write_step at 1. simpl.
  case_bool_decide as Hle.
  - rewrite decide_True by done.
    destruct (lookup_slot (GetStorage_ u) a k) as [v|]; [|by rewrite app_nil_r].
    erewrite head_order_by_snoc; [done|].
    intros y [_ Hy]%list_elem_of_filter. apply bool_decide_eq_false. simpl.
    apply elem_of_tbl_storage in Hy as (e & He & ->).
    rewrite to_int_int_block by auto. specialize (Habove e He). lia.
  - rewrite decide_False by done. by rewrite app_nil_r.
Qed.

Lemma status_events_mono history a b1 b2 :
  b1 ≤ b2 → status_events history a b1 ≤ status_events history a b2.
Proof.
  intros Hle. unfold status_events. apply inj_le, length_filter_mono.
  intros e _ [? ?]. split; [lia|done].
Qed.

Lemma status_events_lt history a b1 b2 u :
  (b2, u) ∈ history → status_event a u → b1 < b2 →
  status_events history a b1 < status_events history a b2.
Proof.
  intros He Hev Hlt. unfold status_events.
  apply inj_lt, (length_filter_mono_strict _ _ _ (b2, u)); simpl; try done.
  - intros e _ [? ?]. split; [lia|done].
  - lia.
Qed.

Lemma status_events_pos history a b1 b2 u :
  (b1, u) ∈ history → status_event a u → b1 ≤ b2 →
  0 < status_events history a b2.
Proof.
  intros He Hev Hle. unfold status_events.
  assert (length (filter (λ _ : Z * Update, False) history)
          < length (filter (λ e : Z * Update, (e.1 ≤ b2)%Z ∧ status_event a e.2) history))%nat
    as Hlt.
  { apply (length_filter_mono_strict _ _ _ (b1, u)); simpl; [done|done|by split|tauto]. }
  lia.
Qed.

(** C2, amended: in an archive produced by successful calls of Add, for
    blocks below 2^31, GetStorage resolves the reincarnation counter of the
    account as of the block and returns the most recent value written to the
    slot within that reincarnation at a block less than or equal to the
    given one, zero when there is none.  In particular, when the account was
    created or deleted at some block and is deleted or created again at a
    later block [b2], the slots written before [b2] and not written again
    read as zero at every block from [b2] on. *)
Theorem GetStorage_latest_slot_write history a block account key :
  Produced AccountUpdate_GetHash GetSha256Hash history a →
  (∀ e, e ∈ history → is_int_block e.1) →
  is_int_block block →
  GetStorage a block account key
  = Val (default 0 (latest_slot_write history block account key))
  ∧ (∀ b1 u1 b2 u2,
       (b1, u1) ∈ history → status_event account u1 →
       (b2, u2) ∈ history → status_event account u2 →
       b1 < b2 → b2 ≤ block →
       (∀ e, e ∈ history → b2 ≤ e.1 → e.1 ≤ block →
             lookup_slot (GetStorage_ e.2) account key = None) →
       GetStorage a block account key = Val 0).
Proof.
  intros (-> & Hinc & Hkeys)%Produced_db Hint Hblock.
  destruct Hkeys as (_ & _ & Hstatus & _ & _ & _ & Hstorage).
  assert (GetStorage
            (mkArchive (Some (mkArchiveImpl
               (db_of AccountUpdate_GetHash GetSha256Hash history) true)))
            block account key
          = Val (default 0 (latest_slot_write history block account key))) as Hget.
  { unfold GetStorage, checked, internal_GetStorage, get_value_stmt. simpl.
    rewrite (to_int_int_block block) by done.
    rewrite current_reincarnation_db_of by done.
    by rewrite select_storage. }
  split; [done|].
  intros b1 u1 b2 u2 He1 Hev1 He2 Hev2 Hlt Hle Hnone. rewrite Hget.
  assert (latest_slot_write history block account key = None) as ->; [|done].
  unfold latest_slot_write.
  assert (∀ l, (∀ e, e ∈ l → e ∈ history) →
            foldl (slot_write_step history block account key
                     (reincarnation_as_of history account block)) None l = None)
    as Hfold; [|by apply Hfold].
  induction l as [|e l IH] using rev_ind; intros Hl; [done|].
  rewrite foldl_snoc, IH by set_solver. unfold slot_write_step.
  case_bool_decide as Hcond; [|done].
  destruct Hcond as [He Hre].
  destruct (decide (b2 ≤ e.1)) as [Hge|Hbelow].
  - rewrite Hnone; [done| |done..]. apply Hl. set_solver.
  - exfalso. unfold reincarnation_as_of in Hre.
    pose proof (status_events_lt history account e.1 b2 u2 He2 Hev2 ltac:(lia)).
    pose proof (status_events_lt history account b1 b2 u2 He2 Hev2 Hlt).
    pose proof (status_events_pos history account b1 b1 u1 He1 Hev1 ltac:(lia)).
    pose proof (status_events_mono history account b2 block Hle).
    lia.
Qed.

(** *** Rows of the tables of a history *)

Lemma elem_of_inserted_l {X R} (mk : list R → X → R) t l r :
  r ∈ t → r ∈ inserted mk t l.
Proof.
  revert t. induction l as [|x l IH]; intros t Hr; [done|].
  rewrite inserted_cons. apply IH. set_solver.
Qed.

Lemma elem_of_inserted_r {X R} (mk : list R → X → R) t l x :
  x ∈ l → ∃ t', mk t' x ∈ inserted mk t l.
Proof.
  revert t. induction l as [|y l IH]; intros t; [by intros ?%elem_of_nil|].
  rewrite inserted_cons. intros [->|Hx]%elem_of_cons; [|by apply IH].
  exists t. apply elem_of_inserted_l. set_solver.
Qed.

Lemma integrity_check_db_of history :
  integrity_check (db_of AccountUpdate_GetHash GetSha256Hash history)
  = ["ok"%string].
Proof.
  induction history as [|[b u] history IH] using rev_ind; [done|].
  by rewrite db_of_snoc.
Qed.

Lemma tbl_account_hash_applied block update db :
  tbl_account_hash (applied AccountUpdate_GetHash GetSha256Hash block update db)
  = inserted (hash_row GetSha256Hash block) (tbl_account_hash db)
      (map_to_list (AccountUpdate_GetHash <$> AccountUpdate_From update)).
Proof. done. Qed.

Lemma tbl_code_applied block update db :
  tbl_code (applied AccountUpdate_GetHash GetSha256Hash block update db)
  = tbl_code db ++ (value_row (to_int block) <$> GetCodes update).
Proof. done. Qed.

Lemma tbl_balance_applied block update db :
  tbl_balance (applied AccountUpdate_GetHash GetSha256Hash block update db)
  = tbl_balance db ++ (value_row (to_int block) <$> GetBalances update).
Proof. done. Qed.

Lemma tbl_nonce_applied block update db :
  tbl_nonce (applied AccountUpdate_GetHash GetSha256Hash block update db)
  = tbl_nonce db ++ (value_row (to_int block) <$> GetNonces update).
Proof. done. Qed.

(** The accounts of the per-account diffs of an update are the accounts it
    changes. *)
Lemma modify_account_lookup f addr m a :
  is_Some (modify_account f addr m !! a) ↔ a = addr ∨ is_Some (m !! a).
Proof.
  unfold modify_account. destruct (decide (a = addr)) as [->|Hne].
  - rewrite lookup_insert_eq. split; [by left|eauto].
  - rewrite lookup_insert_ne by done. naive_solver.
Qed.

Lemma foldl_modify_account {X} (f : X → AccountUpdate → AccountUpdate)
    (addr : X → Address) (l : list X) m a :
  is_Some (foldl (λ m x, modify_account (f x) (addr x) m) m l !! a)
  ↔ a ∈ addr <$> l ∨ is_Some (m !! a).
Proof.
  revert m. induction l as [|x l IH]; intros m; csimpl.
  - split; [by right|]. by intros [?%elem_of_nil|].
  - rewrite IH, modify_account_lookup, elem_of_cons. naive_solver.
Qed.

Lemma AccountUpdate_From_touched update a :
  is_Some (AccountUpdate_From update !! a) ↔ a ∈ touched update.
Proof.
  unfold AccountUpdate_From, touched.
  rewrite (foldl_ext_in _ (λ m x, modify_account
             (λ u, mkAccountUpdate (created u) (deleted u) (balance u) (nonce u)
                     (code u) (storage u ++ [(x.1.2, x.2)])) x.1.1 m))
    by (by intros ? [[??]?] _).
  rewrite (foldl_modify_account
             (λ x u, mkAccountUpdate (created u) (deleted u) (balance u) (nonce u)
                       (code u) (storage u ++ [(x.1.2, x.2)])) (λ x, x.1.1)).
  rewrite (foldl_ext_in _ (λ m x, modify_account
             (λ u, mkAccountUpdate (created u) (deleted u) (balance u) (Some x.2)
                     (code u) (storage u)) x.1 m))
    by (by intros ? [??] _).
  rewrite (foldl_modify_account
             (λ x u, mkAccountUpdate (created u) (deleted u) (balance u) (Some x.2)
                       (code u) (storage u)) fst).
  rewrite (foldl_ext_in _ (λ m x, modify_account
             (λ u, mkAccountUpdate (created u) (deleted u) (balance u) (nonce u)
                     (Some x.2) (storage u)) x.1 m))
    by (by intros ? [??] _).
  rewrite (foldl_modify_account
             (λ x u, mkAccountUpdate (created u) (deleted u) (balance u) (nonce u)
                       (Some x.2) (storage u)) fst).
  rewrite (foldl_ext_in _ (λ m x, modify_account
             (λ u, mkAccountUpdate (created u) (deleted u) (Some x.2) (nonce u)
                     (code u) (storage u)) x.1 m))
    by (by intros ? [??] _).
  rewrite (foldl_modify_account
             (λ x u, mkAccountUpdate (created u) (deleted u) (Some x.2) (nonce u)
                       (code u) (storage u)) fst).
  rewrite (foldl_modify_account
             (λ _ u, mkAccountUpdate true (deleted u) (balance u) (nonce u)
                       (code u) (storage u)) id).
  rewrite (foldl_modify_account
             (λ _ u, mkAccountUpdate (created u) true (balance u) (nonce u)
                       (code u) (storage u)) id).
  rewrite lookup_empty, !list_fmap_id, !elem_of_app.
  split; [|naive_solver]. intros H. destruct_or!; eauto 10. by destruct H.
Qed.

Lemma account_hash_row_of history b u a :
  (b, u) ∈ history → a ∈ touched u →
  ∃ h, mkRow a (to_int b) h
       ∈ tbl_account_hash (db_of AccountUpdate_GetHash GetSha256Hash history).
Proof.
  induction history as [|e history IH] using rev_ind; [by intros ?%elem_of_nil|].
  destruct e as [b' u']. rewrite db_of_snoc, tbl_account_hash_applied.
  intros [He|He%list_elem_of_singleton]%elem_of_app Ha.
  - destruct (IH He Ha) as [h Hh]. exists h. by apply elem_of_inserted_l.
  - injection He as <- <-.
    apply AccountUpdate_From_touched in Ha as [x Hx].
    destruct (elem_of_inserted_r (hash_row GetSha256Hash b)
                (tbl_account_hash (db_of AccountUpdate_GetHash GetSha256Hash history))
                (map_to_list (AccountUpdate_GetHash <$> AccountUpdate_From u))
                (a, AccountUpdate_GetHash x)) as [t' Ht'].
    { apply elem_of_map_to_list. by rewrite lookup_fmap, Hx. }
    eauto.
Qed.

(** The (account, block) columns of the rows of the content tables. *)
Lemma content_row_of history b u a :
  (b, u) ∈ history → a ∈ touched u →
  let db := db_of AccountUpdate_GetHash GetSha256Hash history in
  (a, to_int b) ∈ row_key <$> tbl_status db
  ∨ (a, to_int b) ∈ row_key <$> tbl_balance db
  ∨ (a, to_int b) ∈ row_key <$> tbl_nonce db
  ∨ (a, to_int b) ∈ row_key <$> tbl_code db
  ∨ (a, to_int b) ∈ (λ r, (s_account r, s_block r)) <$> tbl_storage db.
Proof.
  induction history as [|e history IH] using rev_ind; [by intros ?%elem_of_nil|].
  destruct e as [b' u']. simpl.
  intros [He|He%list_elem_of_singleton]%elem_of_app Ha.
  all: rewrite db_of_snoc.
  all: rewrite tbl_status_applied, tbl_balance_applied, tbl_nonce_applied,
    tbl_code_applied, tbl_storage_applied, !fmap_app, !elem_of_app.
  - destruct (IH He Ha) as [H|[H|[H|[H|H]]]]; eauto 10.
    left. apply list_elem_of_fmap in H as (r & -> & Hr).
    by apply list_elem_of_fmap_2, elem_of_inserted_l, elem_of_inserted_l.
  - injection He as <- <-. unfold touched in Ha.
    rewrite !elem_of_app in Ha. destruct Ha as [Ha|[Ha|[Ha|[Ha|[Ha|Ha]]]]].
    + left.
      destruct (elem_of_inserted_r (status_row 0 (to_int b))
                  (tbl_status (db_of AccountUpdate_GetHash GetSha256Hash history))
                  _ a Ha) as [t' Ht'].
      apply (list_elem_of_fmap_2' row_key _ (status_row 0 (to_int b) t' a));
        [|done]. by apply elem_of_inserted_l.
    + left.
      destruct (elem_of_inserted_r (status_row 1 (to_int b))
                  (inserted (status_row 0 (to_int b))
                     (tbl_status (db_of AccountUpdate_GetHash GetSha256Hash history))
                     (GetDeletedAccounts u))
                  _ a Ha) as [t' Ht'].
      by apply (list_elem_of_fmap_2' row_key _ (status_row 1 (to_int b) t' a)).
    + right. left. right.
      apply list_elem_of_fmap in Ha as ([a' v] & -> & Hx).
      rewrite <-list_fmap_compose.
      by apply (list_elem_of_fmap_2' _ _ (a', v)).
    + do 3 right. left. right.
      apply list_elem_of_fmap in Ha as ([a' v] & -> & Hx).
      rewrite <-list_fmap_compose.
      by apply (list_elem_of_fmap_2' _ _ (a', v)).
    + do 2 right. left. right.
      apply list_elem_of_fmap in Ha as ([a' v] & -> & Hx).
      rewrite <-list_fmap_compose.
      by apply (list_elem_of_fmap_2' _ _ (a', v)).
    + do 4 right. right.
      apply list_elem_of_fmap in Ha as ([[a' k] v] & -> & Hx).
      rewrite <-list_fmap_compose.
      by apply (list_elem_of_fmap_2' _ _ (a', k, v)).
Qed.

(** *** VerifyAccount on an account first changed in block 0 *)

Lemma head_list_rows_zero {V} (tbl : list (Row V)) a block :
  (a, 0) ∈ row_key <$> tbl → 0 ≤ block →
  (∀ r, r ∈ tbl → 0 ≤ r_block r) →
  r_block <$> head (list_rows tbl a block) = Some 0.
Proof.
  intros (r0 & Hkey & Hr0)%list_elem_of_fmap Hblock Hpos.
  injection Hkey as Ha Hb. unfold list_rows.
  destruct (head _) as [m|] eqn:Hm.
  - apply head_order_by_least in Hm as [Hin Hle].
    + assert (bool_decide (r_block m ≤ r_block r0) = true) as Hm0.
      { apply Hle, list_elem_of_filter. split; [|done]. split; [done|lia]. }
      apply bool_decide_eq_true in Hm0.
      apply list_elem_of_filter in Hin as [_ Hin]. specialize (Hpos m Hin).
      simpl. f_equal. lia.
    + intros x y. rewrite !bool_decide_eq_true. lia.
    + intros x y z. rewrite !bool_decide_eq_true. lia.
  - apply head_order_by_nil in Hm.
    assert (r0 ∈ filter (λ r, r_account r = a ∧ r_block r ≤ block) tbl) as Hin.
    { apply list_elem_of_filter. split; [|done]. split; [done|lia]. }
    rewrite Hm in Hin. by apply elem_of_nil in Hin.
Qed.

Lemma head_list_storage_zero (tbl : list StorageRow) a block :
  (a, 0) ∈ (λ r, (s_account r, s_block r)) <$> tbl → 0 ≤ block →
  (∀ r, r ∈ tbl → 0 ≤ s_block r) →
  s_block <$> head (list_storage tbl a block) = Some 0.
Proof.
  intros (r0 & Hkey & Hr0)%list_elem_of_fmap Hblock Hpos.
  injection Hkey as Ha Hb. unfold list_storage.
  destruct (head _) as [m|] eqn:Hm.
  - apply head_order_by_least in Hm as [Hin Hle].
    + assert (bool_decide (s_block m < s_block r0
                           ∨ (s_block m = s_block r0 ∧ s_slot m ≤ s_slot r0)) = true)
        as Hm0.
      { apply Hle, list_elem_of_filter. split; [|done]. split; [done|lia]. }
      apply bool_decide_eq_true in Hm0.
      apply list_elem_of_filter in Hin as [_ Hin]. specialize (Hpos m Hin).
      simpl. f_equal. lia.
    + intros x y. rewrite !bool_decide_eq_true. lia.
    + intros x y z. rewrite !bool_decide_eq_true. lia.
  - apply head_order_by_nil in Hm.
    assert (r0 ∈ filter (λ r, s_account r = a ∧ s_block r ≤ block) tbl) as Hin.
    { apply list_elem_of_filter. split; [|done]. split; [done|lia]. }
    rewrite Hm in Hin. by apply elem_of_nil in Hin.
Qed.

Lemma min_block_from_zero heads : min_block 0 heads = 0.
Proof.
  unfold min_block. induction heads as [|[b|] heads IH]; simpl; [done| |done].
  replace (Z.min 0 (to_BlockId b)) with 0; [done|].
  unfold to_BlockId. pose proof (Z.mod_pos_bound b (2 ^ 32)). lia.
Qed.

Lemma min_block_zero next heads :
  0 ≤ next → Some 0 ∈ heads → min_block next heads = 0.
Proof.
  revert next. induction heads as [|h heads IH]; intros next Hnext;
    [by intros ?%elem_of_nil|].
  intros [<-|Hin]%elem_of_cons.
  - unfold min_block. simpl.
    replace (Z.min next (to_BlockId 0)) with 0
      by (unfold to_BlockId; rewrite Z.mod_0_l by done; lia).
    apply min_block_from_zero.
  - unfold min_block. simpl. apply IH; [|done].
    destruct h as [b|]; [|done].
    unfold to_BlockId. pose proof (Z.mod_pos_bound b (2 ^ 32)). lia.
Qed.

Lemma internal_VerifyAccount_loop_wrapped hash_iter block last state_iter
    balance_iter nonce_iter code_iter storage_iter next hash :
  next ≤ block → next ≤ last →
  internal_VerifyAccount_loop AccountUpdate_GetHash GetSha256Hash hash_iter
    block last state_iter balance_iter nonce_iter code_iter storage_iter next hash
  = NotOk (InternalError
             "Multiple updates for same information in same block found.").
Proof.
  intros. by destruct hash_iter; simpl; rewrite !bool_decide_eq_true_2.
Qed.

Lemma internal_VerifyAccount_loop_kind hash_iter block last state_iter
    balance_iter nonce_iter code_iter storage_iter next hash :
  match internal_VerifyAccount_loop AccountUpdate_GetHash GetSha256Hash
          hash_iter block last state_iter balance_iter nonce_iter code_iter
          storage_iter next hash
  with
  | OkStatus | NotOk (InternalError _) => True
  | _ => False
  end.
Proof.
  revert state_iter balance_iter nonce_iter code_iter storage_iter next hash.
  induction hash_iter as [|h hash_iter IH]; intros; simpl.
  - case_bool_decide; [|done]. case_bool_decide; [done|].
    by destruct (row_at_block state_iter next), (row_at_block balance_iter next),
      (row_at_block nonce_iter next), (row_at_block code_iter next),
      (storage_at_block storage_iter next).
  - case_bool_decide; [|done]. case_bool_decide; [done|].
    destruct (row_at_block state_iter next), (row_at_block balance_iter next),
      (row_at_block nonce_iter next), (row_at_block code_iter next),
      (storage_at_block storage_iter next).
    case_bool_decide; [done|]. case_bool_decide; [done|]. apply IH.
Qed.

Lemma first_failure_elem {A} (check : A → Status) l x :
  (∀ y, match check y with
        | OkStatus | NotOk (InternalError _) => True
        | _ => False
        end) →
  x ∈ l → check x ≠ OkStatus →
  ∃ msg, first_failure check l = NotOk (InternalError msg).
Proof.
  intros Hkind Hx Hfail. induction l as [|y l IH]; [by apply elem_of_nil in Hx|].
  simpl. pose proof (Hkind y) as Hy.
  destruct (check y) as [|[]] eqn:Hcheck; try done; [|by eauto].
  apply elem_of_cons in Hx as [->|Hx]; [done|]. by apply IH.
Qed.

Lemma tbl_rows_nonneg history :
  (∀ e, e ∈ history → is_int_block e.1) →
  let db := db_of AccountUpdate_GetHash GetSha256Hash history in
  (∀ r, r ∈ tbl_status db → 0 ≤ r_block r)
  ∧ (∀ r, r ∈ tbl_balance db → 0 ≤ r_block r)
  ∧ (∀ r, r ∈ tbl_nonce db → 0 ≤ r_block r)
  ∧ (∀ r, r ∈ tbl_code db → 0 ≤ r_block r)
  ∧ (∀ r, r ∈ tbl_storage db → 0 ≤ s_block r).
Proof.
  intros Hint. simpl.
  rewrite tbl_balance_db_of, tbl_nonce_db_of, tbl_code_db_of.
  assert (∀ e, e ∈ history → 0 ≤ to_int e.1) as Hpos.
  { intros e He. specialize (Hint e He). rewrite to_int_int_block by done.
    unfold is_int_block in Hint. lia. }
  split; [|split; [|split; [|split]]].
  - intros r (e & He & ->)%elem_of_tbl_status. auto.
  - intros r (e & He & ->)%elem_of_value_rows. auto.
  - intros r (e & He & ->)%elem_of_value_rows. auto.
  - intros r (e & He & ->)%elem_of_value_rows. auto.
  - intros r (e & He & ->)%elem_of_tbl_storage. auto.
Qed.

(** C3 fails on the code: in an archive produced by successful calls of Add
    of which the first is for block 0, VerifyAccount rejects every account
    changed in block 0 with the error for several updates in one block, for
    each block below 2^31, and so Verify of a block with the hash GetHash
    returns for it fails as well. *)
Theorem Verify_fails_from_block_0 history a update account block :
  Produced AccountUpdate_GetHash GetSha256Hash history a →
  (∀ e, e ∈ history → is_int_block e.1) →
  is_int_block block →
  (0, update) ∈ history →
  account ∈ touched update →
  VerifyAccount AccountUpdate_GetHash GetSha256Hash a block account
  = NotOk (InternalError
             "Multiple updates for same information in same block found.")
  ∧ ∃ hash msg,
      GetHash Sha256Hasher a block = Val hash
      ∧ Verify AccountUpdate_GetHash GetSha256Hash Sha256Hasher a block hash
        = NotOk (InternalError msg).
Proof.
  intros (-> & Hinc & Hkeys)%Produced_db Hint Hblock He Ha.
  assert (internal_VerifyAccount AccountUpdate_GetHash GetSha256Hash
            (mkArchiveImpl (db_of AccountUpdate_GetHash GetSha256Hash history) true)
            block account
          = NotOk (InternalError
                     "Multiple updates for same information in same block found."))
    as Haccount.
  { unfold internal_VerifyAccount. cbn [stmts_ db_ negb].
    rewrite (to_int_int_block block) by done.
    destruct (tbl_rows_nonneg history Hint) as (Hst & Hbal & Hnon & Hcod & Hsto).
    pose proof (content_row_of history 0 update account He Ha) as Hrow.
    simpl in Hrow. change (to_int 0) with 0 in Hrow.
    assert (0 ≤ block) as Hpos by (unfold is_int_block in Hblock; lia).
    rewrite min_block_zero.
    - apply internal_VerifyAccount_loop_wrapped; [done|].
      change (to_BlockId (0 - 1)) with (2 ^ 32 - 1). lia.
    - unfold to_BlockId. pose proof (Z.mod_pos_bound (block + 1) (2 ^ 32)). lia.
    - unfold iterator_heads.
      destruct Hrow as [H|[H|[H|[H|H]]]].
      + rewrite (head_list_rows_zero _ _ _ H) by done. set_solver.
      + rewrite (head_list_rows_zero _ _ _ H) by done. set_solver.
      + rewrite (head_list_rows_zero _ _ _ H) by done. set_solver.
      + rewrite (head_list_rows_zero _ _ _ H) by done. set_solver.
      + rewrite (head_list_storage_zero _ _ _ H) by done. set_solver. }
  split; [done|].
  destruct (first_failure_elem
              (internal_VerifyAccount AccountUpdate_GetHash GetSha256Hash
                 (mkArchiveImpl (db_of AccountUpdate_GetHash GetSha256Hash history) true)
                 block)
              (list_accounts
                 (tbl_account_hash (db_of AccountUpdate_GetHash GetSha256Hash history))
                 (to_int block))
              account) as [msg Hmsg].
  - intros y. unfold internal_VerifyAccount. cbn [stmts_ db_ negb].
    apply internal_VerifyAccount_loop_kind.
  - unfold list_accounts, distinct.
    apply elem_of_order_by, elem_of_remove_dups.
    destruct (account_hash_row_of history 0 update account He Ha) as [h Hh].
    apply (list_elem_of_fmap_2' _ _ (mkRow account (to_int 0) h)); [|done].
    apply list_elem_of_filter. split; [|done]. simpl.
    rewrite (to_int_int_block block) by done. change (to_int 0) with 0.
    unfold is_int_block in Hblock. lia.
  - by rewrite Haccount.
  - eexists _, msg. split; [done|].
    unfold Verify, internal_Verify. simpl.
    rewrite integrity_check_db_of. simpl.
    rewrite bool_decide_eq_false_2 by (by intros ?).
    by rewrite Hmsg.
Qed.

(** C1, amended: in an archive produced by successful calls of Add, for
    blocks below 2^31 (which the conversion of the block number to int
    leaves unchanged), GetBalance, GetCode and GetNonce return the value of
    the most recent update of the field at a block less than or equal to the
    given one, and the zero value, without an error, when there is none. *)
Theorem Get_latest_write history a block account :
  Produced AccountUpdate_GetHash GetSha256Hash history a →
  (∀ e, e ∈ history → is_int_block e.1) →
  is_int_block block →
  GetBalance a block account
  = Val (default 0 (latest_write GetBalances history block account))
  ∧ GetCode a block account
    = Val (default [] (latest_write GetCodes history block account))
  ∧ GetNonce a block account
    = Val (default 0 (latest_write GetNonces history block account)).
Proof.
  intros (-> & Hinc & Hkeys)%Produced_db Hint Hblock.
  destruct Hkeys as (_ & _ & _ & Hbal & Hcode & Hnonce & _).
  unfold GetBalance, GetCode, GetNonce, checked,
    internal_GetBalance, internal_GetCode, internal_GetNonce. simpl.
  rewrite tbl_balance_db_of in *. rewrite tbl_code_db_of in *.
  rewrite tbl_nonce_db_of in *.
  by rewrite !select_latest_value_rows.
Qed.


(** C9: once Close has returned, Add, Exists, GetBalance, GetCode,
    GetNonce, GetStorage, GetHash, GetAccountList and Verify each fail with
    the failed-precondition status of an archive that is not connected, and
    leave the archive as it is; a second Close returns OK and changes
    nothing. *)
Theorem Close_then_not_connected (a : Archive) (block : BlockId)
    (update : Update) (account : Address) (key : Key) (hash : Hash) :
  let closed := (Close a).1 in
  is_failed_precondition not_connected = true
  ∧ Add AccountUpdate_GetHash GetSha256Hash block update closed
    = (closed, NotOk not_connected)
  ∧ Exists closed block account = Err not_connected
  ∧ GetBalance closed block account = Err not_connected
  ∧ GetCode closed block account = Err not_connected
  ∧ GetNonce closed block account = Err not_connected
  ∧ GetStorage closed block account key = Err not_connected
  ∧ GetHash Sha256Hasher closed block = Err not_connected
  ∧ GetAccountList closed block = Err not_connected
  ∧ Verify AccountUpdate_GetHash GetSha256Hash Sha256Hasher closed block hash
    = NotOk not_connected
  ∧ Close closed = (closed, OkStatus).
Proof.
  assert (impl_ (Close a).1 = None) as Hclosed.
  { unfold Close. by destruct (impl_ a) eqn:Himpl. }
  intros closed. subst closed. destruct (Close a).1 as [o]. simpl in Hclosed. subst o.
  by repeat split.
Qed.

End archive.

(** ** Examples *)

Lemma example_Produced_snoc history block update :
  Produced example_diff_hash example_pair_hash history (example_archive_of history) →
  is_BlockId block →
  Add example_diff_hash example_pair_hash block update (example_archive_of history)
  = (example_archive_of (history ++ [(block, update)]), OkStatus) →
  Produced example_diff_hash example_pair_hash (history ++ [(block, update)])
    (example_archive_of (history ++ [(block, update)])).
Proof. intros. by econstructor. Qed.

Lemma example_archive_Produced :
  Produced example_diff_hash example_pair_hash example_history example_archive.
Proof.
  apply (example_Produced_snoc [_]); [|by vm_compute..].
  apply (example_Produced_snoc []); [|by vm_compute..].
  constructor.
Qed.

Lemma reincarnated_archive_Produced :
  Produced example_diff_hash example_pair_hash reincarnated_history
    reincarnated_archive.
Proof.
  apply (example_Produced_snoc [_; _]); [|by vm_compute..].
  apply (example_Produced_snoc [_]); [|by vm_compute..].
  apply (example_Produced_snoc []); [|by vm_compute..].
  constructor.
Qed.

Lemma uncreated_archive_Produced :
  Produced example_diff_hash example_pair_hash uncreated_history uncreated_archive.
Proof.
  apply (example_Produced_snoc [_]); [|by vm_compute..].
  apply (example_Produced_snoc []); [|by vm_compute..].
  constructor.
Qed.

Lemma block0_archive_Produced :
  Produced example_diff_hash example_pair_hash block0_history block0_archive.
Proof.
  apply (example_Produced_snoc []); [|by vm_compute..].
  constructor.
Qed.

Lemma example_int_blocks (history : list (Z * Update)) :
  Forall (λ e, is_int_block e.1) history →
  ∀ e, e ∈ history → is_int_block e.1.
Proof. by rewrite list.Forall_forall. Qed.

Lemma GetStorage_latest_slot_write_witness :
  GetStorage reincarnated_archive 3 42 9
  = Val (default 0 (latest_slot_write reincarnated_history 3 42 9))
  ∧ (∀ b1 u1 b2 u2,
       (b1, u1) ∈ reincarnated_history → status_event 42 u1 →
       (b2, u2) ∈ reincarnated_history → status_event 42 u2 →
       b1 < b2 → b2 ≤ 3 →
       (∀ e, e ∈ reincarnated_history → b2 ≤ e.1 → e.1 ≤ 3 →
             lookup_slot (GetStorage_ e.2) 42 9 = None) →
       GetStorage reincarnated_archive 3 42 9 = Val 0).
Proof.
  apply (GetStorage_latest_slot_write example_diff_hash example_pair_hash).
  - exact reincarnated_archive_Produced.
  - apply example_int_blocks. repeat constructor; by vm_compute.
  - by vm_compute.
Defined.

Lemma Verify_fails_from_block_0_witness :
  VerifyAccount example_diff_hash example_pair_hash block0_archive 0 42
  = NotOk (InternalError
             "Multiple updates for same information in same block found.")
  ∧ ∃ hash msg,
      GetHash example_list_hash block0_archive 0 = Val hash
      ∧ Verify example_diff_hash example_pair_hash example_list_hash
          block0_archive 0 hash
        = NotOk (InternalError msg).
Proof.
  apply (Verify_fails_from_block_0 example_diff_hash example_pair_hash
           example_list_hash block0_history block0_archive (balance_update 42 5)).
  - exact block0_archive_Produced.
  - apply example_int_blocks. repeat constructor; by vm_compute.
  - by vm_compute.
  - by left.
  - by left.
Defined.

(** C2 as stated fails for a slot written to an account before its first
    creation or deletion: the slot written at block 1 is still read at
    block 2, the block of the deletion.  It also fails for blocks from 2^31
    on, where the slot written at block 1 reads as zero. *)
Lemma GetStorage_counterexample :
  Produced example_diff_hash example_pair_hash uncreated_history uncreated_archive
  ∧ lookup_slot (GetStorage_ (storage_update 42 9 7)) 42 9 = Some 7
  ∧ status_event 42 (delete_update 42)
  ∧ GetStorage uncreated_archive 1 42 9 = Val 7
  ∧ GetStorage uncreated_archive 2 42 9 = Val 7
  ∧ is_BlockId (2 ^ 31)
  ∧ GetStorage uncreated_archive (2 ^ 31) 42 9 = Val 0.
Proof.
  split; [exact uncreated_archive_Produced|].
  split; [done|]. split; [by left|]. by vm_compute.
Qed.

Lemma Get_latest_write_witness :
  GetBalance example_archive 3 42
  = Val (default 0 (latest_write GetBalances example_history 3 42))
  ∧ GetCode example_archive 3 42
    = Val (default [] (latest_write GetCodes example_history 3 42))
  ∧ GetNonce example_archive 3 42
    = Val (default 0 (latest_write GetNonces example_history 3 42)).
Proof.
  apply (Get_latest_write example_diff_hash example_pair_hash).
  - exact example_archive_Produced.
  - intros e He. unfold example_history in He.
    apply elem_of_cons in He as [->|He]; [by vm_compute|].
    apply list_elem_of_singleton in He as ->. by vm_compute.
  - by vm_compute.
Defined.



(** C1 as stated fails for blocks from 2^31 on: the balance written at
    block 1 is not returned at block 2^31. *)
Lemma GetBalance_counterexample :
  Produced example_diff_hash example_pair_hash example_history example_archive
  ∧ is_BlockId (2 ^ 31)
  ∧ latest_write GetBalances example_history (2 ^ 31) 42 = Some 7
  ∧ GetBalance example_archive (2 ^ 31) 42 = Val 0.
Proof.
  split; [exact example_archive_Produced|]. by vm_compute.
Qed.

End ArchiveTheory.

(** ** More on the archive *)
Module ArchiveMore.
Import Archive ArchiveTheory.

(** *** Transactions *)

Lemma keeps_transaction_bind {A B} (m : Sql A) (k : A → Sql B) :
  keeps_transaction m → (∀ a, keeps_transaction (k a)) →
  keeps_transaction (m ≫= k).
Proof.
  intros Hm Hk db. unfold mbind, Sql_bind, sql_bind. specialize (Hm db).
  destruct (m db) as [db1 [a|e]]; cbn [fst] in *; [|done].
  by rewrite Hk.
Qed.

Lemma keeps_transaction_run_insert {R K} `{EqDecision K} (key : R → K)
    (get : Sqlite → list R) (set : list R → Sqlite → Sqlite) (r : Sqlite → R) :
  (∀ t db, in_transaction (set t db) = in_transaction db) →
  keeps_transaction (λ db, run_insert key get set (r db) db).
Proof.
  intros Hset db. unfold run_insert.
  destruct (insert_pk key (r db) (get db)); cbn [fst]; [apply Hset|done].
Qed.

Lemma keeps_transaction_for_each {A} (l : list A) (body : A → Sql ()) :
  (∀ x, keeps_transaction (body x)) → keeps_transaction (for_each l body).
Proof.
  intros Hb. induction l as [|x l IH]; [done|].
  cbn [for_each]. apply keeps_transaction_bind; [apply Hb|done].
Qed.

Lemma fails_in_transaction_bind {A B} (m : Sql A) (k : A → Sql B) :
  keeps_transaction m → (∀ a, fails_in_transaction (k a)) →
  fails_in_transaction (m ≫= k).
Proof.
  intros Hm Hk db db' e Hdb. unfold mbind, Sql_bind, sql_bind.
  specialize (Hm db). destruct (m db) as [db1 [a|e1]]; cbn [fst] in *.
  - apply Hk. congruence.
  - intros [= <- <-]. congruence.
Qed.

Section transactions.
Variable AccountUpdate_GetHash : AccountUpdate → Hash.
Variable GetSha256Hash : Hash → Hash → Hash.

(** A transaction that fails is left open. *)
Lemma internal_Add_transaction_Err block update diff_hashes db db' e :
  internal_Add_transaction GetSha256Hash block update diff_hashes db
  = (db', Err e) →
  in_transaction db' = true.
Proof.
  unfold internal_Add_transaction.
  unfold mbind at 1, Sql_bind, sql_bind at 1, begin_transaction at 1.
  destruct (in_transaction db) eqn:Htx; [by intros [= <- _]|].
  revert db' e.
  assert (in_transaction (set_in_transaction true db) = true) as Hdb by done.
  revert Hdb. generalize (set_in_transaction true db). intros db1 Hdb db' e.
  revert db1 db' e Hdb.
  change (fails_in_transaction
    (add_block_stmt (to_int64 block) ;;
     for_each (GetDeletedAccounts update) (λ addr,
       delete_account_stmt addr (to_int block) addr) ;;
     for_each (GetCreatedAccounts update) (λ addr,
       create_account_stmt addr (to_int block) addr) ;;
     for_each (GetBalances update) (λ '(addr, balance),
       add_balance_stmt addr (to_int block) balance) ;;
     for_each (GetCodes update) (λ '(addr, code),
       add_code_stmt addr (to_int block) code) ;;
     for_each (GetNonces update) (λ '(addr, nonce),
       add_nonce_stmt addr (to_int block) nonce) ;;
     for_each (GetStorage_ update) (λ '(addr, key, value),
       add_value_stmt addr addr (to_int block) key (to_int block) value) ;;
     for_each (map_to_list diff_hashes) (λ '(addr, hash),
       last_hash ← sql_read (λ db, internal_GetAccountHash_db db block addr) ;
       add_account_hash_stmt addr (to_int block) (GetSha256Hash last_hash hash)) ;;
     end_transaction)).
  repeat (apply fails_in_transaction_bind; [|intros _]).
  - apply (keeps_transaction_run_insert _ _ _ (λ _, _)). done.
  - apply keeps_transaction_for_each. intros x.
    apply (keeps_transaction_run_insert _ _ _ (λ db, _)). done.
  - apply keeps_transaction_for_each. intros x.
    apply (keeps_transaction_run_insert _ _ _ (λ db, _)). done.
  - apply keeps_transaction_for_each. intros [addr v].
    apply (keeps_transaction_run_insert _ _ _ (λ _, _)). done.
  - apply keeps_transaction_for_each. intros [addr v].
    apply (keeps_transaction_run_insert _ _ _ (λ _, _)). done.
  - apply keeps_transaction_for_each. intros [addr v].
    apply (keeps_transaction_run_insert _ _ _ (λ _, _)). done.
  - apply keeps_transaction_for_each. intros [[addr k] v].
    apply (keeps_transaction_run_insert _ _ _ (λ db, _)). done.
  - apply keeps_transaction_for_each. intros [addr h].
    apply keeps_transaction_bind; [done|]. intros last_hash.
    apply (keeps_transaction_run_insert _ _ _ (λ _, _)). done.
  - intros db1 db' e Hdb. unfold end_transaction. by rewrite Hdb.
Qed.

(** Within an open transaction no transaction can be started. *)
Lemma internal_Add_transaction_open block update diff_hashes db :
  in_transaction db = true →
  ∃ e, internal_Add_transaction GetSha256Hash block update diff_hashes db
       = (db, Err e).
Proof.
  intros Hdb. unfold internal_Add_transaction.
  unfold mbind at 1, Sql_bind, sql_bind at 1, begin_transaction at 1.
  rewrite Hdb. eauto.
Qed.

(** An Add that fails after its transaction has begun leaves the
    transaction open, for there is no rollback: from then on every Add
    fails and leaves the archive as it is. *)
Theorem Add_after_failed_Add (a a' : Archive) (block : BlockId)
    (update : Update) (e : Error) :
  Add AccountUpdate_GetHash GetSha256Hash block update a = (a', NotOk e) →
  is_failed_precondition (NotOk e) = false →
  ∀ block2 update2,
    ∃ e2, Add AccountUpdate_GetHash GetSha256Hash block2 update2 a'
          = (a', NotOk e2).
Proof.
  unfold Add. destruct (impl_ a) as [impl|] eqn:Himpl.
  2:{ unfold CheckState. rewrite Himpl. intros [= <- <-]. done. }
  destruct (internal_Add _ _ _ _ impl) as [impl' st] eqn:Hadd.
  intros [= <- ->] He block2 update2. cbn [impl_].
  unfold internal_Add in Hadd.
  destruct (internal_GetLastBlockHeight impl) as [n|e0] eqn:Hn.
  2:{ unfold internal_GetLastBlockHeight in Hn.
      destruct (stmts_ impl); cbn in Hn; [done|].
      injection Hn as <-. injection Hadd as <- <-. done. }
  destruct (_ && _); [by injection Hadd as <- <-|].
  destruct (stmts_ impl) eqn:Hst; cbn [negb] in Hadd;
    [|by injection Hadd as <- <-].
  destruct (internal_Add_transaction _ _ _ _ _) as [db' [[]|e1]] eqn:Htx;
    [done|].
  injection Hadd as <- <-.
  apply internal_Add_transaction_Err in Htx.
  unfold internal_Add, internal_GetLastBlockHeight. cbn [stmts_ db_ negb].
  destruct (_ && _); [by eexists|].
  destruct (internal_Add_transaction_open block2 update2
              (AccountUpdate_GetHash <$> AccountUpdate_From update2) db' Htx)
    as [e2 ->].
  by eexists.
Qed.

End transactions.

Example Add_after_failed_Add_witness :
  Add example_diff_hash example_pair_hash 1 duplicate_update (Open None)
  = (failed_archive, NotOk constraint_failed) ∧
  is_failed_precondition (NotOk constraint_failed) = false ∧
  GetBalance failed_archive 1 42 = Val 5 ∧
  ∃ e2, Add example_diff_hash example_pair_hash 2 (balance_update 43 1)
          failed_archive
        = (failed_archive, NotOk e2).
Proof.
  split; [vm_compute; reflexivity|]. split; [reflexivity|].
  split; [vm_compute; reflexivity|].
  eapply (Add_after_failed_Add example_diff_hash example_pair_hash
            (Open None) _ 1 duplicate_update constraint_failed);
    [vm_compute; reflexivity|reflexivity].
Defined.

(** *** Reading below the block of a later Add *)

Lemma extends_inserted {X R} (blk : R → Z) (B : Z) (mk : list R → X → R) t l :
  (∀ t x, blk (mk t x) = B) → extends blk B t (inserted mk t l).
Proof.
  intros Hmk. revert t. induction l as [|x l IH]; intros t.
  - exists []. by rewrite app_nil_r.
  - rewrite inserted_cons. destruct (IH (t ++ [mk t x])) as (new & -> & Hnew).
    exists (mk t x :: new). rewrite <- app_assoc. split; [done|].
    constructor; auto.
Qed.

Lemma extends_fmap {X R} (blk : R → Z) (B : Z) (f : X → R) t l :
  (∀ x, blk (f x) = B) → extends blk B t (t ++ (f <$> l)).
Proof.
  intros Hf. exists (f <$> l). split; [done|].
  apply Forall_fmap, list.Forall_forall. intros x _. apply Hf.
Qed.

Lemma extends_trans {R} (blk : R → Z) (B : Z) (t1 t2 t3 : list R) :
  extends blk B t1 t2 → extends blk B t2 t3 → extends blk B t1 t3.
Proof.
  intros (n1 & -> & H1) (n2 & -> & H2). exists (n1 ++ n2).
  rewrite app_assoc. split; [done|]. by apply Forall_app.
Qed.

Lemma filter_none {R} (P : R → Prop) `{!∀ r, Decision (P r)} (l : list R) :
  Forall (λ r, ¬ P r) l → filter P l = [].
Proof.
  induction 1 as [|r l Hr _ IH]; [done|]. by rewrite filter_cons_False.
Qed.

Lemma filter_extends {R} (blk : R → Z) (B : Z) (P : R → Prop)
    `{!∀ r, Decision (P r)} (t t' : list R) :
  extends blk B t t' → (∀ r, P r → blk r ≠ B) → filter P t' = filter P t.
Proof.
  intros (new & -> & Hnew) HP. rewrite list.filter_app.
  rewrite (filter_none P new); [by rewrite app_nil_r|].
  eapply list.Forall_impl; [exact Hnew|]. intros r Hr HPr. by apply (HP r).
Qed.

Lemma sql_max_elem (l : list Z) (m : Z) : sql_max l = Some m → m ∈ l.
Proof.
  revert m. induction l as [|x l IH]; intros m; [done|]. cbn [sql_max foldr].
  fold (sql_max l). destruct (sql_max l) as [y|]; intros [= <-]; [|by left].
  destruct (Z.max_spec x y) as [[_ ->]|[_ ->]]; [right; by apply IH|by left].
Qed.

Section stable.
Variable AccountUpdate_GetHash : AccountUpdate → Hash.
Variable GetSha256Hash : Hash → Hash → Hash.
Variable Sha256Hasher : list Hash → Hash.

(** What an Add appends to each table carries the block of the Add. *)
Lemma applied_extends block update db :
  let db' := applied AccountUpdate_GetHash GetSha256Hash block update db in
  extends r_block (to_int block) (tbl_account_hash db) (tbl_account_hash db')
  ∧ extends r_block (to_int block) (tbl_status db) (tbl_status db')
  ∧ extends r_block (to_int block) (tbl_balance db) (tbl_balance db')
  ∧ extends r_block (to_int block) (tbl_code db) (tbl_code db')
  ∧ extends r_block (to_int block) (tbl_nonce db) (tbl_nonce db')
  ∧ extends s_block (to_int block) (tbl_storage db) (tbl_storage db')
  ∧ integrity_check db' = integrity_check db.
Proof.
  cbn zeta. rewrite tbl_account_hash_applied, tbl_status_applied,
    tbl_balance_applied, tbl_code_applied, tbl_nonce_applied,
    tbl_storage_applied.
  split_and!; try done.
  - apply extends_inserted. by intros t [].
  - apply (extends_trans _ _ _
             (inserted (status_row 0 (to_int block)) (tbl_status db)
                (GetDeletedAccounts update)));
      by apply extends_inserted.
  - by apply extends_fmap.
  - by apply extends_fmap.
  - by apply extends_fmap.
  - by apply extends_fmap.
Qed.

Lemma select_latest_extends {V} (t t' : list (Row V)) B account x :
  extends r_block B t t' → x < B →
  select_latest t' account x = select_latest t account x.
Proof.
  intros Ht Hx. unfold select_latest.
  rewrite (filter_extends r_block B _ t t' Ht); [done|]. intros r [_ ?]. lia.
Qed.

Lemma list_rows_extends {V} (t t' : list (Row V)) B account x :
  extends r_block B t t' → x < B →
  list_rows t' account x = list_rows t account x.
Proof.
  intros Ht Hx. unfold list_rows.
  rewrite (filter_extends r_block B _ t t' Ht); [done|]. intros r [_ ?]. lia.
Qed.

Lemma list_storage_extends (t t' : list StorageRow) B account x :
  extends s_block B t t' → x < B →
  list_storage t' account x = list_storage t account x.
Proof.
  intros Ht Hx. unfold list_storage.
  rewrite (filter_extends s_block B _ t t' Ht); [done|]. intros r [_ ?]. lia.
Qed.

Lemma current_reincarnation_extends (t t' : list (Row StatusInfo)) B account x :
  extends r_block B t t' → x < B →
  current_reincarnation t' account x = current_reincarnation t account x.
Proof.
  intros Ht Hx. unfold current_reincarnation.
  rewrite (filter_extends r_block B _ t t' Ht); [done|]. intros r [_ ?]. lia.
Qed.

Lemma latest_blocks_extends (t t' : list (Row Hash)) B x :
  extends r_block B t t' → x < B → latest_blocks t' x = latest_blocks t x.
Proof.
  intros Ht Hx. unfold latest_blocks.
  rewrite (filter_extends r_block B _ t t' Ht); [done|]. intros r ?. lia.
Qed.

Lemma latest_blocks_bound (t : list (Row Hash)) x account blk :
  0 ≤ x → (account, blk) ∈ latest_blocks t x → blk ≤ x.
Proof.
  intros Hx. unfold latest_blocks.
  intros (acc & [= -> ->] & _)%list_elem_of_fmap. unfold IFNULL.
  destruct (sql_max _) as [m|] eqn:Hm; cbn; [|done].
  apply sql_max_elem, list_elem_of_fmap in Hm as (r & -> & Hr).
  apply list_elem_of_filter in Hr as [_ Hr].
  by apply list_elem_of_filter in Hr as [Hr _].
Qed.

Lemma list_latest_hashes_extends (t t' : list (Row Hash)) B x :
  extends r_block B t t' → 0 ≤ x → x < B →
  list_latest_hashes t' x = list_latest_hashes t x.
Proof.
  intros Ht H0 Hx. unfold list_latest_hashes.
  rewrite (latest_blocks_extends t t' B) by done.
  rewrite (filter_extends r_block B _ t t' Ht); [done|].
  intros r Hr%latest_blocks_bound; [lia|done].
Qed.

Lemma list_accounts_extends (t t' : list (Row Hash)) B x :
  extends r_block B t t' → x < B → list_accounts t' x = list_accounts t x.
Proof.
  intros Ht Hx. unfold list_accounts.
  rewrite (filter_extends r_block B _ t t' Ht); [done|]. intros r ?. lia.
Qed.

Lemma extra_accounts_extends {R} (key : R → Z * Z) (blk : R → Z)
    (c c' : list R) (t t' : list (Row Hash)) B x :
  (∀ r, (key r).2 = blk r) →
  extends blk B c c' → extends r_block B t t' → x < B →
  extra_accounts (key <$> c') t' x x = extra_accounts (key <$> c) t x x.
Proof.
  intros Hkey Hc Ht Hx. unfold extra_accounts.
  rewrite (filter_extends r_block B _ t t' Ht) by (intros r ?; lia).
  destruct Hc as (new & -> & Hnew). rewrite fmap_app, list.filter_app.
  rewrite (filter_none _ (key <$> new)); [by rewrite app_nil_r|].
  apply Forall_fmap. eapply list.Forall_impl; [exact Hnew|].
  intros r Hr. cbn. rewrite Hkey, Hr. lia.
Qed.

Lemma get_value_stmt_extends block update db account key x :
  x < to_int block →
  get_value_stmt (applied AccountUpdate_GetHash GetSha256Hash block update db)
    account account x key x
  = get_value_stmt db account account x key x.
Proof.
  intros Hx. destruct (applied_extends block update db)
    as (_ & Hs & _ & _ & _ & Hst & _).
  unfold get_value_stmt.
  rewrite (current_reincarnation_extends _ _ _ _ _ Hs Hx).
  rewrite (filter_extends s_block _ _ _ _ Hst); [done|].
  intros r (_ & _ & _ & ?). lia.
Qed.

Lemma first_failure_ext {A} (f g : A → Status) (l : list A) :
  (∀ x, f x = g x) → first_failure f l = first_failure g l.
Proof.
  intros Hfg. induction l as [|x l IH]; [done|].
  cbn [first_failure]. by rewrite Hfg, IH.
Qed.

Lemma internal_VerifyAccount_applied block update db b account :
  to_int b < to_int block →
  internal_VerifyAccount AccountUpdate_GetHash GetSha256Hash
    (mkArchiveImpl (applied AccountUpdate_GetHash GetSha256Hash block update db)
       true) b account
  = internal_VerifyAccount AccountUpdate_GetHash GetSha256Hash
      (mkArchiveImpl db true) b account.
Proof.
  intros Hx. destruct (applied_extends block update db)
    as (Hh & Hs & Hb & Hc & Hn & Hst & _).
  unfold internal_VerifyAccount. cbn [stmts_ db_ negb]. cbn zeta.
  rewrite (list_rows_extends _ _ _ _ _ Hh Hx), (list_rows_extends _ _ _ _ _ Hs Hx),
    (list_rows_extends _ _ _ _ _ Hb Hx), (list_rows_extends _ _ _ _ _ Hc Hx),
    (list_rows_extends _ _ _ _ _ Hn Hx), (list_storage_extends _ _ _ _ _ Hst Hx).
  done.
Qed.

(** What an archive tells about a block does not change when a later block
    is added: after an Add that returns OK, Exists, GetBalance, GetCode,
    GetNonce, GetStorage, GetAccountHash, GetHash, GetAccountList,
    VerifyAccount and Verify answer for every block below the added one as
    they did before. *)
Theorem reads_below_later_Add (a a' : Archive) (block : BlockId)
    (update : Update) (b : BlockId) (account : Address) (key : Key)
    (hash : Hash) :
  Add AccountUpdate_GetHash GetSha256Hash block update a = (a', OkStatus) →
  is_int_block block → is_int_block b → b < block →
  Exists a' b account = Exists a b account
  ∧ GetBalance a' b account = GetBalance a b account
  ∧ GetCode a' b account = GetCode a b account
  ∧ GetNonce a' b account = GetNonce a b account
  ∧ GetStorage a' b account key = GetStorage a b account key
  ∧ GetAccountHash a' b account = GetAccountHash a b account
  ∧ GetHash Sha256Hasher a' b = GetHash Sha256Hasher a b
  ∧ GetAccountList a' b = GetAccountList a b
  ∧ VerifyAccount AccountUpdate_GetHash GetSha256Hash a' b account
    = VerifyAccount AccountUpdate_GetHash GetSha256Hash a b account
  ∧ Verify AccountUpdate_GetHash GetSha256Hash Sha256Hasher a' b hash
    = Verify AccountUpdate_GetHash GetSha256Hash Sha256Hasher a b hash.
Proof.
  intros Hadd Hblock Hb Hlt. unfold Add in Hadd.
  destruct a as [[impl|]]; cbn [impl_] in Hadd; [|done].
  destruct (internal_Add _ _ _ _ impl) as [impl' st] eqn:Himpl.
  injection Hadd as <- ->.
  apply internal_Add_ok in Himpl as (Hst & _ & -> & _).
  destruct impl as [db st]. cbn [stmts_ db_] in *. subst st.
  assert (to_int b < to_int block) as Hx by (by rewrite !to_int_int_block).
  assert (0 ≤ to_int b) as H0
    by (rewrite to_int_int_block by done; unfold is_int_block in Hb; lia).
  destruct (applied_extends block update db)
    as (Hh & Hs & Hbal & Hc & Hn & Hsto & Hi).
  unfold Exists, GetBalance, GetCode, GetNonce, GetStorage, GetAccountHash,
    GetHash, GetAccountList, VerifyAccount, Verify, checked. cbn [impl_].
  unfold internal_Exists, internal_GetBalance, internal_GetCode,
    internal_GetNonce, internal_GetStorage, internal_GetAccountHash,
    internal_GetAccountHash_db, internal_Verify, internal_GetHash,
    internal_GetAccountList.
  cbn [stmts_ db_ negb].
  rewrite (select_latest_extends _ _ _ _ _ Hh Hx),
    (select_latest_extends _ _ _ _ _ Hs Hx),
    (select_latest_extends _ _ _ _ _ Hbal Hx),
    (select_latest_extends _ _ _ _ _ Hc Hx),
    (select_latest_extends _ _ _ _ _ Hn Hx),
    (list_latest_hashes_extends _ _ _ _ Hh H0 Hx),
    (list_accounts_extends _ _ _ _ Hh Hx),
    get_value_stmt_extends, internal_VerifyAccount_applied, Hi by done.
  split_and!; try done.
  repeat case_match; try done.
  all: rewrite (first_failure_ext _ _ _
                  (λ x, internal_VerifyAccount_applied block update db b x Hx))
         in *; try congruence.
  unfold content_tables. cbn [first_failure].
  rewrite (extra_accounts_extends row_key r_block _ _ _ _ _ _
             (λ _, eq_refl) Hs Hh Hx),
    (extra_accounts_extends row_key r_block _ _ _ _ _ _
       (λ _, eq_refl) Hbal Hh Hx),
    (extra_accounts_extends row_key r_block _ _ _ _ _ _
       (λ _, eq_refl) Hn Hh Hx),
    (extra_accounts_extends row_key r_block _ _ _ _ _ _
       (λ _, eq_refl) Hc Hh Hx),
    (extra_accounts_extends (λ r, (s_account r, s_block r)) s_block _ _ _ _ _ _
       (λ _, eq_refl) Hsto Hh Hx).
  done.
Qed.

(** *** Exists *)

Lemma select_latest_status history block account :
  increasing history →
  (∀ e, e ∈ history → is_int_block e.1) →
  NoDup (row_key <$> tbl_status (db_of AccountUpdate_GetHash GetSha256Hash history)) →
  default false
    ((λ r, bool_decide (to_int (exist (r_value r)) ≠ 0)) <$>
     select_latest (tbl_status (db_of AccountUpdate_GetHash GetSha256Hash history))
       account block)
  = created_last history block account.
Proof.
  intros Hinc. induction Hinc as [|history b update _ IH Hb Habove];
    intros Hint Hnd; [done|].
  rewrite db_of_snoc in Hnd |- *.
  apply status_keys_applied in Hnd as [Hnd Hlists].
  assert (to_int b = b) as Hb'.
  { apply to_int_int_block, (Hint (b, update)). set_solver. }
  unfold created_last. rewrite foldl_snoc. cbn [fst snd].
  fold (created_last history block account). rewrite <- IH by (done || set_solver).
  unfold select_latest.
  pose proof (filter_status_applied AccountUpdate_GetHash GetSha256Hash
                (λ x, x ≤ block) b update
                (db_of AccountUpdate_GetHash GetSha256Hash history) account
                Hlists) as Hf.
  cbn beta in Hf. rewrite Hf. clear Hf.
  rewrite Hb'. case_bool_decide as Hev.
  - rewrite decide_True by tauto.
    erewrite head_order_by_snoc.
    + cbn. destruct Hev as [_ Hev]. unfold status_event in Hev.
      apply list.NoDup_app in Hlists as (_ & Hdisj & _).
      case_decide as Hdel.
      * change (to_int 0) with 0. rewrite bool_decide_eq_false_2 by (by intros ?).
        rewrite bool_decide_eq_false_2; [done|]. by apply Hdisj.
      * change (to_int 1) with 1. rewrite bool_decide_eq_true_2 by done.
        rewrite bool_decide_eq_true_2; [done|].
        apply elem_of_app in Hev as [|]; done.
    + intros y [[_ _] Hy]%list_elem_of_filter. apply bool_decide_eq_false.
      cbn. apply elem_of_tbl_status in Hy as (e & He & ->).
      rewrite to_int_int_block by (apply Hint; set_solver).
      specialize (Habove e He). lia.
  - rewrite decide_False by tauto. by rewrite app_nil_r.
Qed.

(** Exists tells whether the latest creation or deletion of the account at
    a block less than or equal to the given one is a creation; an account
    that was never created or deleted does not exist, whatever was written
    to it. *)
Theorem Exists_created_last history a block account :
  Produced AccountUpdate_GetHash GetSha256Hash history a →
  (∀ e, e ∈ history → is_int_block e.1) →
  is_int_block block →
  Exists a block account = Val (created_last history block account).
Proof.
  intros (-> & Hinc & Hkeys)%Produced_db Hint Hblock.
  unfold Exists, checked, internal_Exists. cbn [impl_ stmts_ db_ negb].
  rewrite to_int_int_block by done.
  rewrite select_latest_status; [done|done|done|].
  by destruct Hkeys as (_ & _ & ? & _).
Qed.

End stable.

Example Exists_created_last_witness :
  Exists reincarnated_archive 1 42 = Val true ∧
  Exists reincarnated_archive 2 42 = Val false ∧
  Exists reincarnated_archive 3 42 = Val true ∧
  Exists example_archive 2 42 = Val false.
Proof.
  assert (∀ e, e ∈ reincarnated_history → is_int_block e.1) as Hint.
  { intros e He. unfold reincarnated_history in He.
    repeat (apply elem_of_cons in He as [->|He]; [cbn; unfold is_int_block; lia|]).
    by apply elem_of_nil in He. }
  split; [|by vm_compute].
  rewrite (Exists_created_last example_diff_hash example_pair_hash
             reincarnated_history _ 1 42 reincarnated_archive_Produced Hint)
    by (unfold is_int_block; lia).
  reflexivity.
Defined.

Example reads_below_later_Add_witness :
  Add example_diff_hash example_pair_hash 3 (balance_update 42 9) example_archive
  = (example_archive_of (example_history ++ [(3, balance_update 42 9)]),
     OkStatus) ∧
  GetBalance (example_archive_of (example_history ++ [(3, balance_update 42 9)]))
    2 42
  = GetBalance example_archive 2 42 ∧
  GetBalance example_archive 2 42 = Val 7.
Proof.
  assert (Add example_diff_hash example_pair_hash 3 (balance_update 42 9)
            example_archive
          = (example_archive_of (example_history ++ [(3, balance_update 42 9)]),
             OkStatus)) as Hadd by (vm_compute; reflexivity).
  split; [exact Hadd|]. split; [|vm_compute; reflexivity].
  apply (reads_below_later_Add example_diff_hash example_pair_hash
           example_list_hash _ _ 3 _ 2 42 0 0 Hadd);
    unfold is_int_block; lia.
Defined.

End ArchiveMore.

(** ** The MPT state *)
Module MptTheory.
Import Mpt.

Lemma emptyCodeHash_eq : emptyCodeHash = GetHash NewLegacyKeccak256 [].
Proof. vm_compute. reflexivity. Qed.

Lemma emptyCodeHash_value :
  emptyCodeHash
  = 0xc5d2460186f7233c927e7db2dcc703c0e500b653ca82273b7bfad8045d85a470.
Proof. reflexivity. Qed.

Lemma fresh_info_not_zero : mkAccountInfo 0 0 emptyCodeHash ≠ AccountInfo_zero.
Proof. discriminate. Qed.

(** What the state's own [Exists] tells about the trie. *)
Lemma Exists_true (s : MptState) (address : Z) :
  Exists s address = (true, None) →
  failure (trie s) = None ∧ ∃ a, accounts (trie s) !! address = Some a.
Proof.
  unfold Exists, LiveTrie_GetAccountInfo.
  destruct (failure (trie s)); [discriminate|].
  destruct (accounts (trie s) !! address) eqn:E; [eauto|discriminate].
Qed.

Lemma Exists_false (s : MptState) (address : Z) :
  Exists s address = (false, None) →
  failure (trie s) = None ∧ accounts (trie s) !! address = None.
Proof.
  unfold Exists, LiveTrie_GetAccountInfo.
  destruct (failure (trie s)); [discriminate|].
  destruct (accounts (trie s) !! address) eqn:E; [discriminate|eauto].
Qed.

(** C10: for an address whose account does not exist, GetCodeHash returns
    the Keccak-256 hash of the empty byte sequence and no error; this hash is
    not the zero hash. *)
Theorem GetCodeHash_missing (s : MptState) (address : Z) :
  Exists s address = (false, None) →
  GetCodeHash s address = (GetHash NewLegacyKeccak256 [], None) ∧
  GetHash NewLegacyKeccak256 [] ≠ 0.
Proof.
  intros [Hf Ha]%Exists_false. rewrite <- emptyCodeHash_eq. split.
  - unfold GetCodeHash, LiveTrie_GetAccountInfo. rewrite Hf, Ha. reflexivity.
  - discriminate.
Qed.

(** C6: SetBalance with the balance the account already has returns without
    an error and leaves the state as it was, the log of trie writes included;
    the same for SetNonce with the nonce the account already has. *)
Theorem Set_equal_noop (s : MptState) (address : Z) :
  (∀ b, GetBalance s address = (b, None) →
        SetBalance s address b = (s, None)) ∧
  (∀ n, GetNonce s address = (n, None) →
        SetNonce s address n = (s, None)).
Proof.
  split; intros v.
  - unfold GetBalance, SetBalance, LiveTrie_GetAccountInfo.
    destruct (failure (trie s)); [discriminate|].
    destruct (accounts (trie s) !! address) as [a|]; simpl;
      intros [= <-]; rewrite bool_decide_eq_true_2; done.
  - unfold GetNonce, SetNonce, LiveTrie_GetAccountInfo.
    destruct (failure (trie s)); [discriminate|].
    destruct (accounts (trie s) !! address) as [a|]; simpl;
      intros [= <-]; rewrite bool_decide_eq_true_2; done.
Qed.

(** C5: CreateAccount on an account that exists clears its storage and
    keeps its balance, nonce and code hash; on an account that does not
    exist it inserts an account whose code hash is the Keccak-256 hash of the
    empty byte sequence.  Other accounts and the codes are left alone. *)
Theorem CreateAccount_spec (s : MptState) (address : Z) :
  (Exists s address = (true, None) →
   ∃ s', CreateAccount s address = (s', None) ∧
     Exists s' address = (true, None) ∧
     GetBalance s' address = GetBalance s address ∧
     GetNonce s' address = GetNonce s address ∧
     GetCodeHash s' address = GetCodeHash s address ∧
     (∀ key, GetStorage s' address key = (0, None)) ∧
     (∀ other, other ≠ address →
        accounts (trie s') !! other = accounts (trie s) !! other) ∧
     code s' = code s) ∧
  (Exists s address = (false, None) →
   ∃ s', CreateAccount s address = (s', None) ∧
     Exists s' address = (true, None) ∧
     GetCodeHash s' address = (GetHash NewLegacyKeccak256 [], None) ∧
     GetBalance s' address = (0, None) ∧
     GetNonce s' address = (0, None) ∧
     (∀ key, GetStorage s' address key = (0, None)) ∧
     (∀ other, other ≠ address →
        accounts (trie s') !! other = accounts (trie s) !! other) ∧
     code s' = code s).
Proof.
  split.
  - intros (Hf & a & Ha)%Exists_true.
    unfold CreateAccount, LiveTrie_GetAccountInfo, LiveTrie_ClearStorage.
    rewrite Hf, Ha. eexists. split; [reflexivity|].
    unfold Exists, GetBalance, GetNonce, GetCodeHash, GetStorage,
      LiveTrie_GetAccountInfo, LiveTrie_GetValue.
    simpl. rewrite Hf, Ha, lookup_insert_eq. simpl.
    repeat split; try done.
    intros other Hne. by rewrite lookup_insert_ne.
  - intros [Hf Ha]%Exists_false.
    unfold CreateAccount, LiveTrie_GetAccountInfo, LiveTrie_SetAccountInfo.
    rewrite Hf, Ha. eexists. split; [reflexivity|].
    unfold Exists, GetBalance, GetNonce, GetCodeHash, GetStorage,
      LiveTrie_GetAccountInfo, LiveTrie_GetValue.
    simpl. rewrite lookup_insert_eq. simpl. rewrite <- emptyCodeHash_eq.
    repeat split; try done.
    intros other Hne. by rewrite lookup_insert_ne.
Qed.

Example GetCodeHash_missing_witness :
  Exists example_state 2 = (false, None) ∧
  GetCodeHash example_state 2 = (GetHash NewLegacyKeccak256 [], None) ∧
  GetHash NewLegacyKeccak256 [] ≠ 0.
Proof.
  split; [reflexivity|]. apply (GetCodeHash_missing example_state 2). reflexivity.
Defined.

Example Set_equal_noop_witness :
  GetBalance example_state 1 = (50, None) ∧
  SetBalance example_state 1 50 = (example_state, None) ∧
  GetNonce example_state 2 = (0, None) ∧
  SetNonce example_state 2 0 = (example_state, None).
Proof.
  split; [reflexivity|]. split.
  - apply (proj1 (Set_equal_noop example_state 1)). reflexivity.
  - split; [reflexivity|].
    apply (proj2 (Set_equal_noop example_state 2)). reflexivity.
Defined.

Example CreateAccount_spec_witness :
  Exists example_state 1 = (true, None) ∧
  GetStorage example_state 1 7 = (9, None) ∧
  (∃ s', CreateAccount example_state 1 = (s', None) ∧
     GetBalance s' 1 = (50, None) ∧ GetNonce s' 1 = (3, None) ∧
     GetStorage s' 1 7 = (0, None)) ∧
  Exists example_state 2 = (false, None) ∧
  (∃ s', CreateAccount example_state 2 = (s', None) ∧
     Exists s' 2 = (true, None) ∧
     GetCodeHash s' 2 = (GetHash NewLegacyKeccak256 [], None)).
Proof.
  split; [reflexivity|]. split; [reflexivity|]. split.
  - destruct (proj1 (CreateAccount_spec example_state 1) eq_refl)
      as (s' & Hs' & _ & Hb & Hn & _ & Hst & _).
    exists s'. split; [exact Hs'|]. rewrite Hb, Hn. auto.
  - split; [reflexivity|].
    destruct (proj2 (CreateAccount_spec example_state 2) eq_refl)
      as (s' & Hs' & He & Hc & _).
    exists s'. auto.
Defined.

(** SetBalance and SetNonce with a value other than zero on an account that
    does not exist create the account, with the hash of the empty code as
    its code hash. *)
Theorem Set_creates_account (s : MptState) (address : Z) (v : Z) :
  Exists s address = (false, None) → v ≠ 0 →
  (∃ s', SetBalance s address v = (s', None) ∧
     Exists s' address = (true, None) ∧
     GetBalance s' address = (v, None) ∧
     GetNonce s' address = (0, None) ∧
     GetCodeHash s' address = (GetHash NewLegacyKeccak256 [], None)) ∧
  (∃ s', SetNonce s address v = (s', None) ∧
     Exists s' address = (true, None) ∧
     GetBalance s' address = (0, None) ∧
     GetNonce s' address = (v, None) ∧
     GetCodeHash s' address = (GetHash NewLegacyKeccak256 [], None)).
Proof.
  intros [Hf Ha]%Exists_false Hv. rewrite <- emptyCodeHash_eq. split.
  - unfold SetBalance, LiveTrie_GetAccountInfo, LiveTrie_SetAccountInfo.
    rewrite Hf, Ha. cbn [Balance Nonce CodeHash AccountInfo_zero negb].
    rewrite bool_decide_eq_false_2 by congruence.
    rewrite decide_False by (intros [=]; congruence).
    eexists. split; [reflexivity|].
    unfold Exists, GetBalance, GetNonce, GetCodeHash, LiveTrie_GetAccountInfo.
    cbn [trie with_trie failure accounts]. rewrite lookup_insert_eq. done.
  - unfold SetNonce, LiveTrie_GetAccountInfo, LiveTrie_SetAccountInfo.
    rewrite Hf, Ha. cbn [Balance Nonce CodeHash AccountInfo_zero negb].
    rewrite bool_decide_eq_false_2 by congruence.
    rewrite decide_False by (intros [=]; congruence).
    eexists. split; [reflexivity|].
    unfold Exists, GetBalance, GetNonce, GetCodeHash, LiveTrie_GetAccountInfo.
    cbn [trie with_trie failure accounts]. rewrite lookup_insert_eq. done.
Qed.

Example Set_creates_account_witness :
  Exists example_state 2 = (false, None) ∧
  (∃ s', SetBalance example_state 2 10 = (s', None) ∧
     Exists s' 2 = (true, None) ∧
     GetBalance s' 2 = (10, None) ∧
     GetNonce s' 2 = (0, None) ∧
     GetCodeHash s' 2 = (GetHash NewLegacyKeccak256 [], None)).
Proof.
  split; [reflexivity|].
  apply (proj1 (Set_creates_account example_state 2 10 eq_refl ltac:(lia))).
Defined.

(** *** Bytes *)




Lemma byte_to_of_Z (z : Z) : byte_to_Z (byte_of_Z z) = z mod 256.
Proof.
  unfold byte_of_Z, byte_to_Z.
  pose proof (Z.mod_pos_bound z 256 eq_refl).
  destruct (Byte.of_N (Z.to_N (z mod 256))) as [b|] eqn:E.
  - apply Byte.to_of_N in E. simpl. rewrite E. lia.
  - apply Byte.of_N_None_iff in E. lia.
Qed.

Lemma length_Z_to_le (n : nat) (z : Z) : length (Z_to_le n z) = n.
Proof. revert z. induction n; intros; simpl; auto. Qed.

Lemma length_Z_to_be (n : nat) (z : Z) : length (Z_to_be n z) = n.
Proof. unfold Z_to_be. by rewrite length_reverse, length_Z_to_le. Qed.


Lemma le_to_Z_to_le (n : nat) (z : Z) :
  0 ≤ z < 256 ^ Z.of_nat n → le_to_Z (Z_to_le n z) = z.
Proof.
  revert z. induction n as [|n IH]; intros z Hz.
  - simpl in *. lia.
  - rewrite Nat2Z.inj_succ, Z.pow_succ_r in Hz by lia.
    cbn [Z_to_le le_to_Z]. rewrite byte_to_of_Z, IH.
    + pose proof (Z.div_mod z 256). lia.
    + split; [apply Z.div_pos; lia|apply Z.div_lt_upper_bound; lia].
Qed.


Lemma be_to_Z_from_snoc (acc : Z) (l : list Byte.byte) (b : Byte.byte) :
  be_to_Z_from acc (l ++ [b]) = be_to_Z_from acc l * 256 + byte_to_Z b.
Proof. revert acc. induction l; intros; simpl; auto. Qed.

Lemma be_to_Z_reverse (l : list Byte.byte) : be_to_Z (reverse l) = le_to_Z l.
Proof.
  induction l as [|b l IH]; [reflexivity|].
  rewrite reverse_cons. unfold be_to_Z in *.
  rewrite be_to_Z_from_snoc, IH. cbn [le_to_Z]. lia.
Qed.

Lemma be_to_Z_to_be (n : nat) (z : Z) :
  0 ≤ z < 256 ^ Z.of_nat n → be_to_Z (Z_to_be n z) = z.
Proof.
  intros. unfold Z_to_be. by rewrite be_to_Z_reverse, le_to_Z_to_le.
Qed.



(** *** The buffered reader *)





(** Reading from a buffer that holds bytes takes them from the buffer. *)
Lemma Reader_Read_buffered (n : nat) (b : Reader) :
  n ≠ 0%nat → buf b ≠ [] →
  Reader_Read n b = (take n (buf b), None, mkReader (rd b) (drop n (buf b)) (err b)).
Proof.
  intros Hn Hb. unfold Reader_Read.
  by rewrite decide_False, decide_False.
Qed.

(** The first read of a file that fits the buffer loads all of it. *)
Lemma Reader_Read_first (n : nat) (file : list Byte.byte) :
  n ≠ 0%nat → (n < defaultBufSize)%nat → file ≠ [] →
  (length file ≤ defaultBufSize)%nat →
  Reader_Read n (NewReader file) = Reader_Read n (mkReader [] file None).
Proof.
  intros Hn Hlt Hf Hlen. rewrite (Reader_Read_buffered n (mkReader [] file None)) by done.
  unfold Reader_Read, NewReader, File_Read. simpl.
  rewrite !decide_False by (try done; lia).
  rewrite take_ge, drop_ge by done.
  by rewrite decide_False.
Qed.

Lemma Reader_Read_exact (p rest : list Byte.byte) :
  Reader_Read (length p) (mkReader [] (p ++ rest) None)
  = (p, None, mkReader [] rest None).
Proof.
  destruct p as [|x p].
  - unfold Reader_Read. cbn. by destruct (decide (rest ≠ [])).
  - rewrite Reader_Read_buffered by done. cbn [buf rd err].
    by rewrite take_app_length, drop_app_length.
Qed.

Lemma Reader_Read_end (n : nat) :
  n ≠ 0%nat →
  Reader_Read n (mkReader [] [] None) = ([], Some io_EOF, mkReader [] [] None).
Proof.
  intros Hn. unfold Reader_Read, File_Read. cbn [buf rd err].
  repeat case_decide; done.
Qed.

(** *** The code file *)

Lemma pow_256_32 : 256 ^ 32 = 2 ^ 256.
Proof. reflexivity. Qed.

Lemma pow_256_4 : 256 ^ 4 = 2 ^ 32.
Proof. reflexivity. Qed.

Lemma length_encode_record (r : Z * list Byte.byte) :
  length (encode_record r) = (36 + length r.2)%nat.
Proof.
  unfold encode_record. rewrite !length_app, !length_Z_to_be. lia.
Qed.

Lemma length_encode_records (records : list (Z * list Byte.byte)) :
  (36 * length records ≤ length (encode_records records))%nat.
Proof.
  induction records as [|r records IH]; [simpl; lia|].
  change (encode_records (r :: records))
    with (encode_record r ++ encode_records records).
  rewrite length_app, length_encode_record. cbn [length]. lia.
Qed.



(** Records that are all in the buffer are parsed completely. *)
Lemma readCodes_loop_buffered (records : list (Z * list Byte.byte)) :
  ∀ fuel res, Forall valid_record records → (length records < fuel)%nat →
  readCodes_loop fuel (mkReader [] (encode_records records) None) res
  = Some (Some (add_codes res records), None).
Proof.
  induction records as [|[h c] records IH]; intros fuel res Hv Hfuel;
    (destruct fuel as [|fuel]; [simpl in Hfuel; lia|]); cbn [readCodes_loop].
  - change (encode_records []) with (@nil Byte.byte).
    by rewrite Reader_Read_end.
  - apply Forall_cons_1 in Hv as [[Hh Hc] Hv]. cbn [fst snd] in Hh, Hc.
    change (encode_records ((h, c) :: records))
      with (encode_record (h, c) ++ encode_records records).
    unfold encode_record. cbn [fst snd]. rewrite <- !app_assoc.
    pose proof (Reader_Read_exact (Z_to_be 32 h)) as R1.
    rewrite length_Z_to_be in R1. rewrite R1.
    rewrite length_Z_to_be. rewrite decide_False by (intros ?; congruence).
    pose proof (Reader_Read_exact (Z_to_be 4 (Z.of_nat (length c)))) as R2.
    rewrite length_Z_to_be in R2. rewrite R2.
    rewrite length_Z_to_be. rewrite decide_False by (intros ?; congruence).
    unfold Uint32.
    rewrite be_to_Z_to_be
      by (change (Z.of_nat 4) with 4; rewrite pow_256_4; lia).
    rewrite Nat2Z.id, Reader_Read_exact.
    rewrite decide_False by (intros ?; congruence).
    rewrite be_to_Z_to_be
      by (change (Z.of_nat 32) with 32; rewrite pow_256_32; lia).
    rewrite IH; [done|done|]. simpl in Hfuel. lia.
Qed.

Lemma readCodes_loop_first (fuel : nat) (content : list Byte.byte) res :
  content ≠ [] → (length content ≤ defaultBufSize)%nat →
  readCodes_loop (S fuel) (NewReader content) res
  = readCodes_loop (S fuel) (mkReader [] content None) res.
Proof.
  intros Hc Hlen. cbn [readCodes_loop].
  rewrite Reader_Read_first; [done|done|unfold defaultBufSize; lia|done|done].
Qed.

(** The first read of a file: the buffer is filled with its first 4096
    bytes. *)
Lemma Reader_Read_fill (n : nat) (file : list Byte.byte) :
  n ≠ 0%nat → (n < defaultBufSize)%nat → file ≠ [] →
  Reader_Read n (NewReader file)
  = (take n (take defaultBufSize file), None,
     mkReader (drop defaultBufSize file) (drop n (take defaultBufSize file)) None).
Proof.
  intros Hn Hlt Hf. unfold Reader_Read, NewReader, File_Read. cbn [buf rd err].
  assert (take defaultBufSize file ≠ []) as Ht.
  { destruct file; [done|]. unfold defaultBufSize. discriminate. }
  repeat case_decide; try done; lia.
Qed.


(** A code file of at most 4096 bytes that is an exact concatenation of
    records is parsed completely. *)
Lemma readCodes_exact_small (records : list (Z * list Byte.byte)) :
  Forall valid_record records →
  (length (encode_records records) ≤ defaultBufSize)%nat →
  readCodes (Regular (encode_records records))
  = Some (Some (codes_of records), None).
Proof.
  intros Hv Hlen. unfold readCodes, codes_of.
  pose proof (length_encode_records records) as Hl.
  destruct (decide (encode_records records = [])) as [E|E].
  - rewrite E in *. destruct records; [|simpl in Hl; lia].
    apply (readCodes_loop_buffered [] 1 ∅); [done|simpl; lia].
  - rewrite readCodes_loop_first by done.
    apply readCodes_loop_buffered; [done|lia].
Qed.

(** A code file that is an exact concatenation of records is not parsed
    when the code of its first record has more than 4060 bytes: the reader's
    buffer of 4096 bytes holds the hash, the length and 4060 bytes of the
    code, Read returns those, and readCodes reports a corrupted file. *)
Theorem readCodes_long_code (h : Z) (c : list Byte.byte)
    (records : list (Z * list Byte.byte)) :
  Forall valid_record ((h, c) :: records) →
  (defaultBufSize - 36 < length c)%nat →
  readCodes (Regular (encode_records ((h, c) :: records)))
  = Some (None, Some errCorruptedCodeFile).
Proof.
  intros [[Hh Hc] Hv]%Forall_cons_1 Hlen. cbn [fst snd] in Hh, Hc.
  unfold readCodes.
  change (encode_records ((h, c) :: records))
    with (encode_record (h, c) ++ encode_records records).
  unfold encode_record. cbn [fst snd]. rewrite <- !app_assoc.
  set (rest := encode_records records).
  set (H := Z_to_be 32 h). set (L := Z_to_be 4 (Z.of_nat (length c))).
  assert (length H = 32%nat) as HH by apply length_Z_to_be.
  assert (length L = 4%nat) as HL by apply length_Z_to_be.
  assert (defaultBufSize = 32 + (4 + (defaultBufSize - 36)))%nat as Hbuf
    by (unfold defaultBufSize; lia).
  cbn [readCodes_loop].
  rewrite Reader_Read_fill;
    [|done|unfold defaultBufSize; lia|by destruct H].
  assert (take defaultBufSize (H ++ L ++ c ++ rest)
          = H ++ L ++ take (defaultBufSize - 36) c) as Hfill.
  { rewrite Hbuf at 1. rewrite <- HH at 1. rewrite take_app_add.
    rewrite <- HL at 1. rewrite take_app_add.
    by rewrite take_app_le by lia. }
  rewrite Hfill.
  rewrite (take_app_length' H _ 32) by done.
  rewrite (drop_app_length' H _ 32) by done.
  rewrite HH. rewrite decide_False by (intros ?; congruence).
  rewrite Reader_Read_buffered; [|done|by destruct L]. cbn [buf rd err].
  rewrite (take_app_length' L _ 4) by done.
  rewrite (drop_app_length' L _ 4) by done.
  rewrite HL. rewrite decide_False by (intros ?; congruence).
  unfold Uint32. subst L.
  rewrite be_to_Z_to_be
    by (change (Z.of_nat 4) with 4; rewrite pow_256_4; lia).
  rewrite Nat2Z.id.
  assert (length (take (defaultBufSize - 36) c) = (defaultBufSize - 36)%nat)
    as Ht by (rewrite length_take; lia).
  rewrite Reader_Read_buffered; cbn [buf rd err].
  - rewrite decide_True; [done|]. rewrite length_take. lia.
  - lia.
  - intros E. rewrite E in Ht. unfold defaultBufSize in Ht. simpl in Ht. lia.
Qed.

Example readCodes_long_code_witness :
  Forall valid_record [(1, long_code)] ∧
  (defaultBufSize - 36 < length long_code)%nat ∧
  readCodes (Regular long_code_file) = Some (None, Some errCorruptedCodeFile).
Proof.
  assert (Forall valid_record [(1, long_code)]) as Hv.
  { constructor; [|constructor]. split; cbn [fst snd]; [lia|].
    unfold long_code. rewrite length_replicate. lia. }
  assert (defaultBufSize - 36 < length long_code)%nat as Hlen.
  { unfold long_code, defaultBufSize. rewrite length_replicate. lia. }
  split; [exact Hv|]. split; [exact Hlen|].
  exact (readCodes_long_code 1 long_code [] Hv Hlen).
Defined.






(** *** Writing and reading back the code file *)

Lemma Writer_Write_loop_content (fuel : nat) (p : list Byte.byte) (b : Writer) :
  let r := Writer_Write_loop fuel p b in
  wr r.2 ++ wbuf r.2 ++ r.1 = wr b ++ wbuf b ++ p.
Proof.
  revert p b. induction fuel as [|fuel IH]; intros p b; [done|].
  cbn [Writer_Write_loop].
  destruct (decide (Available b < length p)%nat); [|done].
  destruct (decide (wbuf b = [])) as [E|E].
  - cbn zeta in IH. rewrite IH. cbn [wr wbuf]. rewrite E.
    by rewrite !app_nil_r.
  - cbn zeta in IH. rewrite IH. unfold Writer_Flush. cbn [wr wbuf].
    rewrite app_nil_l, <- !app_assoc. by rewrite take_drop.
Qed.

(** The loop of Write ends by its condition, not by the bound on its
    rounds, and the buffer never holds more than its size. *)
Lemma Writer_Write_loop_exit (p : list Byte.byte) (b : Writer) :
  (length (wbuf b) ≤ defaultBufSize)%nat →
  let r := Writer_Write_loop 3 p b in
  (length r.1 ≤ Available r.2)%nat.
Proof.
  intros Hb. cbn [Writer_Write_loop]. unfold Available, Writer_Flush.
  repeat (case_decide; cbn [wr wbuf fst snd length] in *);
    rewrite ?length_drop, ?length_app, ?length_take in *;
    unfold defaultBufSize in *; try lia.
  all: destruct (wbuf b); cbn [length] in *; try done; lia.
Qed.

Lemma Writer_Write_content (p : list Byte.byte) (b : Writer) :
  Writer_bytes (Writer_Write p b) = Writer_bytes b ++ p.
Proof.
  unfold Writer_Write, Writer_bytes.
  pose proof (Writer_Write_loop_content 3 p b) as H.
  destruct (Writer_Write_loop 3 p b) as [p' b']. cbn [wr wbuf].
  cbn [fst snd] in H. by rewrite <- app_assoc.
Qed.

Lemma PutUint32_small (n : nat) :
  Z.of_nat n < 2 ^ 32 → PutUint32 (Z.of_nat n) = Z_to_be 4 (Z.of_nat n).
Proof. intros. unfold PutUint32. by rewrite Z.mod_small by lia. Qed.

Lemma write_record_content (writer : Writer) (r : Z * list Byte.byte) :
  Z.of_nat (length r.2) < 2 ^ 32 →
  Writer_bytes (write_record writer r) = Writer_bytes writer ++ encode_record r.
Proof.
  intros Hr. unfold write_record, encode_record. cbn zeta.
  rewrite !Writer_Write_content, PutUint32_small by done.
  by rewrite <- !app_assoc.
Qed.

Lemma write_records_content (order : list (Z * list Byte.byte)) (writer : Writer) :
  Forall (λ r, Z.of_nat (length r.2) < 2 ^ 32) order →
  Writer_bytes (foldl write_record writer order)
  = Writer_bytes writer ++ encode_records order.
Proof.
  revert writer. induction order as [|r order IH]; intros writer Hv.
  - cbn. by rewrite app_nil_r.
  - apply Forall_cons_1 in Hv as [Hr Hv]. cbn [foldl].
    rewrite IH, write_record_content by done.
    change (encode_records (r :: order))
      with (encode_record r ++ encode_records order).
    by rewrite <- !app_assoc.
Qed.

Lemma codes_of_snoc (l : list (Z * list Byte.byte)) (r : Z * list Byte.byte) :
  codes_of (l ++ [r]) = <[r.1 := r.2]> (codes_of l).
Proof. unfold codes_of, add_codes. by rewrite foldl_app. Qed.

Lemma codes_of_list_to_map (l : list (Z * list Byte.byte)) :
  codes_of l = list_to_map (reverse l).
Proof.
  induction l as [|r l IH] using rev_ind; [done|].
  rewrite codes_of_snoc, reverse_app, IH. by destruct r.
Qed.

(** Reading the entries of a map back, in whatever order, gives the map. *)
Lemma codes_of_map_to_list (codes : gmap Z (list Byte.byte))
    (order : list (Z * list Byte.byte)) :
  order ≡ₚ map_to_list codes → codes_of order = codes.
Proof.
  intros Hp. rewrite codes_of_list_to_map. symmetry.
  apply list_to_map_flip. by rewrite reverse_Permutation.
Qed.

(** What writeCodes wrote, readCodes reads back: when the file is created
    and holds at most 4096 bytes, reading it gives the map of codes that
    was written, whatever the order in which the map was visited. *)
Theorem writeCodes_readCodes (codes : gmap Z (list Byte.byte))
    (order : list (Z * list Byte.byte)) (file : list Byte.byte) :
  order ≡ₚ map_to_list codes →
  (∀ h c, codes !! h = Some c → 0 ≤ h < 2 ^ 256 ∧ Z.of_nat (length c) < 2 ^ 32) →
  writeCodes order None = (Some file, None) →
  (length file ≤ defaultBufSize)%nat →
  file = encode_records order ∧
  readCodes (Regular file) = Some (Some codes, None).
Proof.
  intros Hp Hv Hw Hlen.
  assert (Forall valid_record order) as Hvalid.
  { apply list.Forall_forall. intros [h c] Hin. apply Hv.
    apply elem_of_map_to_list. by rewrite <- Hp. }
  assert (file = encode_records order) as ->.
  { unfold writeCodes in Hw. injection Hw as <-.
    unfold Writer_Flush. cbn [wr].
    pose proof (write_records_content order NewWriter) as Hc.
    unfold Writer_bytes in Hc. rewrite Hc; [done|].
    eapply list.Forall_impl; [exact Hvalid|]. by intros r [_ ?]. }
  split; [done|].
  rewrite readCodes_exact_small by done.
  by rewrite (codes_of_map_to_list codes).
Qed.

Example writeCodes_readCodes_witness :
  example_order ≡ₚ map_to_list example_codes ∧
  writeCodes example_order None = (Some (encode_records example_order), None) ∧
  readCodes (Regular (encode_records example_order))
  = Some (Some example_codes, None).
Proof.
  assert (example_order ≡ₚ map_to_list example_codes) as Hp.
  { vm_compute. apply perm_swap || reflexivity. }
  split; [exact Hp|]. split; [vm_compute; reflexivity|].
  apply (writeCodes_readCodes _ _ _ Hp).
  - intros h c Hhc.
    apply elem_of_map_to_list in Hhc. rewrite <- Hp in Hhc.
    apply elem_of_cons in Hhc as [[= -> ->]|Hhc]; [cbn; lia|].
    apply list_elem_of_singleton in Hhc as [= -> ->]. cbn. lia.
  - vm_compute. reflexivity.
  - vm_compute. lia.
Defined.

(** writeCodes returns the error of os.Create and writes nothing. *)
Lemma writeCodes_create_error (order : list (Z * list Byte.byte)) (e : GoError) :
  writeCodes order (Some e) = (None, Some e).
Proof. reflexivity. Qed.

(** *** Codes *)

(** SetCode of a code other than the one the account has stores the code
    under its hash: afterwards the account exists, GetCode returns the code,
    GetCodeSize its length and GetCodeHash its Keccak-256 hash, while
    balance and nonce read as before.  An account that does not exist is
    created this way only by a code that is not empty. *)
Theorem SetCode_GetCode (s : MptState) (address : Z) (c : list Byte.byte)
    (ex : bool) :
  Exists s address = (ex, None) →
  ex = true ∨ c ≠ [] →
  (GetCodeHash s address).1 ≠ GetHash NewLegacyKeccak256 c →
  GetHash NewLegacyKeccak256 c ≠ 0 →
  ∃ s', SetCode s address c = (s', None) ∧
    Exists s' address = (true, None) ∧
    GetCode s' address = (Some c, None) ∧
    GetCodeSize s' address = (Z.of_nat (length c), None) ∧
    GetCodeHash s' address = (GetHash NewLegacyKeccak256 c, None) ∧
    GetBalance s' address = GetBalance s address ∧
    GetNonce s' address = GetNonce s address.
Proof.
  intros Hex Hor Hne Hnz.
  assert (failure (trie s) = None) as Hf.
  { destruct ex; [by apply Exists_true in Hex as [? _]
                 |by apply Exists_false in Hex as [? _]]. }
  unfold SetCode, GetCodeSize, GetCode, Exists, GetCodeHash, GetBalance,
    GetNonce, LiveTrie_GetAccountInfo, LiveTrie_SetAccountInfo in *.
  cbn [trie code codefile hasher with_trie] in *. rewrite Hf in *.
  destruct (accounts (trie s) !! address) as [a|] eqn:Ha;
    cbn [negb orb andb fst snd] in *.
  - assert (CodeHash (info a) ≠ GetHash NewLegacyKeccak256 c) as Hne'.
    { by rewrite bool_decide_eq_false_2 in Hne by (by intros ?). }
    rewrite bool_decide_eq_false_2 by done.
    rewrite decide_False by (intros [=]; congruence).
    eexists. split; [reflexivity|].
    cbn [trie code with_trie failure accounts].
    rewrite !lookup_insert_eq. cbn [info negb orb CodeHash Balance Nonce].
    rewrite ?lookup_insert_eq.
    by rewrite !bool_decide_eq_false_2 by (by intros ?).
  - injection Hex as <-. destruct Hor as [|Hc]; [done|].
    rewrite (bool_decide_eq_false_2 (length c = 0%nat))
      by (by intros ?%nil_length_inv).
    cbn [CodeHash AccountInfo_zero Nonce Balance].
    rewrite bool_decide_eq_false_2 by congruence.
    rewrite decide_False by (intros [=]; congruence).
    eexists. split; [reflexivity|].
    cbn [trie code with_trie failure accounts].
    rewrite !lookup_insert_eq. cbn [info negb orb CodeHash Balance Nonce].
    rewrite ?lookup_insert_eq.
    by rewrite !bool_decide_eq_false_2 by (by intros ?).
Qed.

Example SetCode_GetCode_witness :
  Exists example_state 1 = (true, None) ∧
  ∃ s', SetCode example_state 1 [Byte.x60; Byte.x00] = (s', None) ∧
    GetCode s' 1 = (Some [Byte.x60; Byte.x00], None) ∧
    GetCodeSize s' 1 = (2, None) ∧
    GetBalance s' 1 = (50, None).
Proof.
  split; [reflexivity|].
  destruct (SetCode_GetCode example_state 1 [Byte.x60; Byte.x00] true)
    as (s' & Hs & _ & Hc & Hz & _ & Hb & _);
    [reflexivity|by left|vm_compute; discriminate|vm_compute; discriminate|].
  exists s'. rewrite Hb. auto.
Defined.

(** SetCode writes nothing when the account has the code already, and when
    the code is empty and the account does not exist: the trie and the map
    of codes stay as they are, and no account is created. *)
Theorem SetCode_noop (s : MptState) (address : Z) (c : list Byte.byte) :
  (Exists s address = (false, None) →
   SetCode s address [] = (mkMptState (trie s) (code s) (codefile s) true, None)) ∧
  (Exists s address = (true, None) →
   GetCodeHash s address = (GetHash NewLegacyKeccak256 c, None) →
   SetCode s address c = (mkMptState (trie s) (code s) (codefile s) true, None)).
Proof.
  split.
  - intros [Hf Ha]%Exists_false.
    unfold SetCode, LiveTrie_GetAccountInfo. cbn [trie]. by rewrite Hf, Ha.
  - intros (Hf & a & Ha)%Exists_true.
    unfold GetCodeHash, SetCode, LiveTrie_GetAccountInfo. cbn [trie].
    rewrite Hf, Ha. cbn [negb orb andb].
    rewrite bool_decide_eq_false_2 by (by intros ?).
    intros [= ->]. by rewrite bool_decide_eq_true_2.
Qed.

Example SetCode_noop_witness :
  Exists example_state 2 = (false, None) ∧
  SetCode example_state 2 []
  = (mkMptState example_trie ∅ "live/codes.json" true, None) ∧
  Exists example_state 1 = (true, None) ∧
  GetCodeHash example_state 1 = (GetHash NewLegacyKeccak256 [], None) ∧
  SetCode example_state 1 []
  = (mkMptState example_trie ∅ "live/codes.json" true, None).
Proof.
  split; [reflexivity|]. split.
  { apply (proj1 (SetCode_noop example_state 2 [])). reflexivity. }
  split; [reflexivity|]. split; [vm_compute; reflexivity|].
  apply (proj2 (SetCode_noop example_state 1 [])); [reflexivity|].
  vm_compute. reflexivity.
Defined.

(** An error of the trie's account lookup comes back from every operation
    of the state that starts with the lookup, and nothing is written: the
    setters leave the trie and the codes as they are, the getters return
    the zero value, GetCodeHash the hash of the empty code. *)
Theorem lookup_error_surfaces (s : MptState) (address : Z) (e : GoError)
    (v : Z) (c : list Byte.byte) :
  (LiveTrie_GetAccountInfo (trie s) address).2 = Some e →
  CreateAccount s address = (s, Some e) ∧
  Exists s address = (false, Some e) ∧
  GetBalance s address = (0, Some e) ∧
  SetBalance s address v = (s, Some e) ∧
  GetNonce s address = (0, Some e) ∧
  SetNonce s address v = (s, Some e) ∧
  GetCode s address = (None, Some e) ∧
  GetCodeSize s address = (0, Some e) ∧
  SetCode s address c
  = (mkMptState (trie s) (code s) (codefile s) true, Some e) ∧
  GetCodeHash s address = (GetHash NewLegacyKeccak256 [], Some e).
Proof.
  intros He. rewrite <- emptyCodeHash_eq.
  unfold CreateAccount, Exists, GetBalance, SetBalance, GetNonce, SetNonce,
    GetCodeSize, GetCode, SetCode, GetCodeHash. cbn [trie].
  destruct (LiveTrie_GetAccountInfo (trie s) address) as [[i ex] err].
  cbn [snd] in He. subst err.
  rewrite (bool_decide_eq_true_2 (Some e ≠ None)) by done.
  by rewrite !orb_true_r.
Qed.

Example lookup_error_surfaces_witness :
  (LiveTrie_GetAccountInfo (trie failing_state) 1).2
  = Some (IoError "read failed") ∧
  SetBalance failing_state 1 5 = (failing_state, Some (IoError "read failed")) ∧
  GetCodeHash failing_state 1
  = (GetHash NewLegacyKeccak256 [], Some (IoError "read failed")).
Proof.
  split; [reflexivity|].
  destruct (lookup_error_surfaces failing_state 1 (IoError "read failed") 5 [])
    as (_ & _ & _ & Hb & _ & _ & _ & _ & _ & Hh); [reflexivity|].
  split; [exact Hb|exact Hh].
Defined.

(** After DeleteAccount the account does not exist: balance and nonce read
    as zero, there is no code, the code hash is the hash of the empty code
    and every storage slot reads as zero; the codes kept by the state are
    not touched. *)
Theorem DeleteAccount_reads (s : MptState) (address : Z) :
  failure (trie s) = None →
  ∃ s', DeleteAccount s address = (s', None) ∧
    Exists s' address = (false, None) ∧
    GetBalance s' address = (0, None) ∧
    GetNonce s' address = (0, None) ∧
    GetCode s' address = (None, None) ∧
    GetCodeSize s' address = (0, None) ∧
    GetCodeHash s' address = (GetHash NewLegacyKeccak256 [], None) ∧
    (∀ key, GetStorage s' address key = (0, None)) ∧
    code s' = code s.
Proof.
  intros Hf. rewrite <- emptyCodeHash_eq.
  unfold DeleteAccount, LiveTrie_SetAccountInfo. rewrite Hf.
  rewrite decide_True by done. eexists. split; [reflexivity|].
  unfold Exists, GetBalance, GetNonce, GetCodeSize, GetCode, GetCodeHash,
    GetStorage, LiveTrie_GetAccountInfo, LiveTrie_GetValue.
  cbn [trie code with_trie failure accounts]. rewrite lookup_delete_eq.
  by repeat split.
Qed.

Example DeleteAccount_reads_witness :
  failure (trie example_state) = None ∧
  GetStorage example_state 1 7 = (9, None) ∧
  ∃ s', DeleteAccount example_state 1 = (s', None) ∧
    Exists s' 1 = (false, None) ∧
    GetStorage s' 1 7 = (0, None).
Proof.
  split; [reflexivity|]. split; [reflexivity|].
  destruct (DeleteAccount_reads example_state 1 eq_refl)
    as (s' & Hs & He & _ & _ & _ & _ & _ & Hst & _).
  exists s'. auto.
Defined.

End MptTheory.

(** ** The cache index *)
Module CacheIndexTheory.
Import CacheIndex.

Section cache.
Context {K V : Type} `{EqDecision K}.

Lemma list_find_absent (key : K) (l : list (K * V)) :
  key ∉ l.*1 → list_find (λ e, e.1 = key) l = None.
Proof.
  intros Hk. apply list_find_None, list.Forall_forall. intros e He ?.
  apply Hk, list_elem_of_fmap. eauto.
Qed.

Lemma Cache_Get_miss (c : Cache K V) (key : K) :
  key ∉ (entries c).*1 → Cache_Get c key = (None, c).
Proof. intros Hk. unfold Cache_Get. by rewrite list_find_absent. Qed.

Lemma Cache_Get_head (l : list (K * V)) (n : nat) (key : K) (val : V) :
  Cache_Get (mkCache ((key, val) :: l) n) key
  = (Some val, mkCache ((key, val) :: without key l) n).
Proof.
  unfold Cache_Get, without. cbn [entries capacity list_find].
  rewrite decide_True by done. cbn [fst snd].
  by rewrite filter_cons_False by (cbn; auto).
Qed.

(** What has been set is found, if the cache holds anything at all. *)
Lemma Cache_Set_Get (c : Cache K V) (key : K) (val : V) :
  (0 < capacity c)%nat →
  ∃ l, (Cache_Set c key val).2 = mkCache ((key, val) :: l) (capacity c).
Proof.
  intros Hcap. unfold Cache_Set.
  destruct (list_find _ (entries c)) as [[i e]|]; [by eexists|].
  cbn zeta. case_decide as Hlen; [|by eexists].
  destruct (entries c) as [|e l]; [simpl in Hlen; lia|].
  by eexists.
Qed.

End cache.

Section index.
Context {K I T : Type} `{EqDecision K} `{Index K I T}.

(** C7: Get of a key that the wrapped index does not hold returns
    index.ErrNotFound on the first call only: the first call puts the index
    it was given into the cache, and the second call returns that index and
    no error. *)
Theorem Get_twice_not_found (m : CachedIndex K I T) (key : K) :
  (0 < capacity (cache m))%nat →
  key ∉ (entries (cache m)).*1 →
  (index_Get (wrapped m) key).2.2 = Some ErrNotFound →
  ∃ m1 m2 idx,
    Get m key = (m1, (idx, Some ErrNotFound)) ∧
    Get m1 key = (m2, (idx, None)).
Proof.
  intros Hcap Hk Hw. unfold Get at 1. rewrite Cache_Get_miss by done.
  destruct (index_Get (wrapped m) key) as [w [idx e]] eqn:Ew.
  cbn [fst snd] in Hw. subst e.
  destruct (Cache_Set_Get (cache m) key idx Hcap) as [l Hset].
  destruct (Cache_Set (cache m) key idx) as [evicted c] eqn:Ec.
  cbn [snd] in Hset. subst c.
  eexists _, _, idx. split; [reflexivity|].
  unfold Get. cbn [cache wrapped]. by rewrite Cache_Get_head.
Qed.

End index.

Section contains.
Context {K I T : Type} `{EqDecision K} `{Index K I T}.

(** Contains of a key that the wrapped index does not hold answers false
    and leaves the cache as it was: the index that came with
    index.ErrNotFound is not stored. *)
Theorem Contains_not_found (m : CachedIndex K I T) (key : K) :
  key ∉ (entries (cache m)).*1 →
  (index_Get (wrapped m) key).2.2 = Some ErrNotFound →
  ∃ m', Contains m key = (m', false) ∧ cache m' = cache m.
Proof.
  intros Hk Hw. unfold Contains. rewrite Cache_Get_miss by done.
  destruct (index_Get (wrapped m) key) as [w [idx e]] eqn:Ew.
  cbn [fst snd] in Hw. subst e. rewrite decide_False by (intros ?; congruence).
  by eexists.
Qed.

(** Contains answers false for a key that is not in the cache also when the
    wrapped index holds the key; it stores the index then, and the same call
    repeated answers true. *)
Theorem Contains_uncached (m : CachedIndex K I T) (key : K) :
  (0 < capacity (cache m))%nat →
  key ∉ (entries (cache m)).*1 →
  (index_Get (wrapped m) key).2.2 = None →
  ∃ m1 m2, Contains m key = (m1, false) ∧ Contains m1 key = (m2, true).
Proof.
  intros Hcap Hk Hw. unfold Contains at 1. rewrite Cache_Get_miss by done.
  destruct (index_Get (wrapped m) key) as [w [idx e]] eqn:Ew.
  cbn [fst snd] in Hw. subst e. rewrite decide_True by done.
  destruct (Cache_Set_Get (cache m) key idx Hcap) as [l Hset].
  destruct (Cache_Set (cache m) key idx) as [evicted c] eqn:Ec.
  cbn [snd] in Hset. subst c.
  eexists _, _. split; [reflexivity|].
  unfold Contains. cbn [cache wrapped]. by rewrite Cache_Get_head.
Qed.

(** After GetOrAdd of a key, whatever it returned, Get of the key is
    answered from the cache: with the index GetOrAdd returned, without an
    error and without a call of the wrapped index. *)
Theorem GetOrAdd_then_Get (m : CachedIndex K I T) (key : K) :
  (0 < capacity (cache m))%nat →
  ∃ m1 m2 idx err,
    GetOrAdd m key = (m1, (idx, err)) ∧
    Get m1 key = (m2, (idx, None)) ∧
    wrapped m2 = wrapped m1.
Proof.
  intros Hcap. unfold GetOrAdd, Cache_Get at 1.
  destruct (list_find _ (entries (cache m))) as [[i e]|] eqn:Ef.
  - apply list_find_Some in Ef as (_ & He & _).
    eexists _, _, _, _. split; [reflexivity|].
    unfold Get. cbn [cache wrapped]. destruct e as [k v]. cbn in He. subst k.
    rewrite Cache_Get_head. done.
  - destruct (index_GetOrAdd (wrapped m) key) as [w [idx e]] eqn:Ew.
    destruct (Cache_Set_Get (cache m) key idx Hcap) as [l Hset].
    destruct (Cache_Set (cache m) key idx) as [evicted c] eqn:Ec.
    cbn [snd] in Hset. subst c.
    eexists _, _, _, _. split; [reflexivity|].
    unfold Get. cbn [cache wrapped]. by rewrite Cache_Get_head.
Qed.

End contains.

Lemma MemoryIndex_Get_absent (w : MemoryIndex) (key : Z) :
  key ∉ keys w → index_Get w key = (w, (0, Some ErrNotFound)).
Proof.
  intros Hk. cbn. unfold position.
  destruct (list_find _ (keys w)) as [[i k]|] eqn:E; [|done].
  apply list_find_Some in E as (Hi & -> & _).
  by apply list_elem_of_lookup_2 in Hi.
Qed.

Example Get_twice_not_found_witness :
  (0 < capacity (cache example_index))%nat ∧
  (index_Get (wrapped example_index) 7).2.2 = Some ErrNotFound ∧
  ∃ m1 m2 idx,
    Get example_index 7 = (m1, (idx, Some ErrNotFound)) ∧
    Get m1 7 = (m2, (idx, None)).
Proof.
  assert (0 < capacity (cache example_index))%nat as Hcap by (cbn; lia).
  split; [exact Hcap|]. split; [reflexivity|].
  apply (Get_twice_not_found example_index 7 Hcap); [|reflexivity].
  cbn. apply not_elem_of_nil.
Defined.

Example Contains_not_found_witness :
  (index_Get (wrapped example_index) 7).2.2 = Some ErrNotFound ∧
  ∃ m', Contains example_index 7 = (m', false) ∧ cache m' = cache example_index.
Proof.
  split; [reflexivity|].
  apply (Contains_not_found example_index 7); [|reflexivity].
  cbn. apply not_elem_of_nil.
Defined.

Example Contains_uncached_witness :
  (0 < capacity (cache holding_index))%nat ∧
  index_Get (wrapped holding_index) 7 = (mkMemoryIndex [7], (0, None)) ∧
  ∃ m1 m2, Contains holding_index 7 = (m1, false) ∧ Contains m1 7 = (m2, true).
Proof.
  assert (0 < capacity (cache holding_index))%nat as Hcap by (cbn; lia).
  split; [exact Hcap|]. split; [reflexivity|].
  apply (Contains_uncached holding_index 7 Hcap); [|reflexivity].
  cbn. apply not_elem_of_nil.
Defined.

Example GetOrAdd_then_Get_witness :
  (0 < capacity (cache example_index))%nat ∧
  ∃ m1 m2 idx err,
    GetOrAdd example_index 7 = (m1, (idx, err)) ∧
    Get m1 7 = (m2, (idx, None)) ∧
    wrapped m2 = wrapped m1.
Proof.
  assert (0 < capacity (cache example_index))%nat as Hcap by (cbn; lia).
  split; [exact Hcap|]. exact (GetOrAdd_then_Get example_index 7 Hcap).
Defined.

(** The two calls on the example, evaluated. *)
Example Get_twice_example :
  let cached := mkIndex (mkMemoryIndex []) (mkCache [(7, 0)] 3) in
  Get example_index 7 = (cached, (0, Some ErrNotFound)) ∧
  Get cached 7 = (cached, (0, None)).
Proof. split; reflexivity. Qed.

(** Contains guards the cache against the key that is not found. *)
Example Contains_then_Get_example :
  Contains example_index 7 = (example_index, false) ∧
  (Get example_index 7).2 = (0, Some ErrNotFound).
Proof. split; reflexivity. Qed.

End CacheIndexTheory.

(** ** The chunk reader *)
Module ChunkReaderTheory.
Import ChunkReader.

Lemma take_drop_taken {A} (n : nat) (l : list A) :
  take n l ++ drop (length (take n l)) l = l.
Proof.
  rewrite length_take. destruct (decide (n ≤ length l)%nat).
  - rewrite Nat.min_l by done. apply take_drop.
  - rewrite Nat.min_r by lia. rewrite take_ge, drop_all by lia.
    apply app_nil_r.
Qed.

(** A call of Read that returns hands out the next bytes of the data, at
    most as many as the buffer takes, keeps the rest and the chunk size, and
    reports io.EOF exactly when no data is left; while more data is left
    than the chunk size, it hands out at most one byte less than the chunk
    size. *)
Theorem Read_parts (r r' : chunkReader) (n : nat) (p : list Byte.byte)
    (err : option Mpt.GoError) :
  Read r n = Returned p err r' →
  p ++ data r' = data r ∧ size r' = size r ∧ (length p ≤ n)%nat ∧
  (err = Some Mpt.io_EOF ↔ data r = []) ∧ (err = None ↔ data r ≠ []) ∧
  (0 < size r < Z.of_nat (length (data r)) → Z.of_nat (length p) ≤ size r - 1).
Proof.
  unfold Read. destruct (decide (length (data r) = 0%nat)) as [E|E].
  { apply nil_length_inv in E. intros [= <- <- <-]. rewrite E. cbn.
    split_and!; try done; try lia; try naive_solver. }
  assert (data r ≠ []) as Hd by (by intros E'; rewrite E' in E).
  destruct (decide (Z.of_nat (length (data r)) ≤ size r)).
  { intros [= <- <- <-]. cbn [data size]. rewrite take_drop_taken, !length_take.
    split_and!; try done; try lia; try naive_solver. }
  destruct (decide (size r - 1 < 0)); [done|].
  intros [= <- <- <-]. cbn [data size]. rewrite take_take, take_drop_taken.
  rewrite !length_take.
  split_and!; try done; try lia; try naive_solver.
Qed.

Example Read_parts_witness :
  Read (NewChunkReader [Byte.x01; Byte.x02; Byte.x03; Byte.x04] 3) 4
  = Returned [Byte.x01; Byte.x02] None
      (NewChunkReader [Byte.x03; Byte.x04] 3) ∧
  Z.of_nat (length [Byte.x01; Byte.x02]) ≤ 3 - 1.
Proof.
  split; [reflexivity|].
  apply (Read_parts (NewChunkReader [Byte.x01; Byte.x02; Byte.x03; Byte.x04] 3)
           _ 4 _ None eq_refl).
  cbn. lia.
Defined.

Lemma read_until_EOF_all (fuel : nat) (r : chunkReader) (n : nat) :
  2 ≤ size r → (1 ≤ n)%nat → (length (data r) < fuel)%nat →
  read_until_EOF fuel r n = Some (data r).
Proof.
  revert r. induction fuel as [|fuel IH]; intros r Hs Hn Hlen; [lia|].
  cbn [read_until_EOF]. destruct (Read r n) as [p err r'|] eqn:E.
  - pose proof (Read_parts _ _ _ _ _ E) as (Hp & Hs' & Hl & Heof & Hnone & Hb).
    destruct err as [e|].
    + assert (data r = []) as Hd by (apply Heof; destruct Heof as [_ H];
        unfold Read in E; by repeat case_decide; simplify_eq).
      rewrite Hd in Hp. by apply app_eq_nil in Hp as [-> _]; rewrite Hd.
    + assert (data r ≠ []) as Hd by (by apply Hnone).
      assert (p ≠ []) as Hpne.
      { unfold Read in E. repeat case_decide; simplify_eq.
        - destruct (data r); [done|]. destruct n; [lia|]. done.
        - destruct (data r); [done|].
          destruct (Z.to_nat (size r - 1)) eqn:Ez; [lia|].
          destruct n; [lia|]. done. }
      rewrite IH; [by cbn; rewrite Hp|lia|done|].
      rewrite <- Hp, length_app in Hlen.
      destruct p; [done|]. cbn [length] in Hlen. lia.
  - unfold Read in E. repeat case_decide; simplify_eq. lia.
Qed.

(** With a chunk size of at least 2, reading until io.EOF with a buffer of
    at least one byte returns the data, all of it and in order. *)
Theorem Read_until_EOF (d : list Byte.byte) (chunkSize : Z) (n : nat) :
  2 ≤ chunkSize → (1 ≤ n)%nat →
  read_until_EOF (S (length d)) (NewChunkReader d chunkSize) n = Some d.
Proof.
  intros Hs Hn. apply (read_until_EOF_all _ (NewChunkReader d chunkSize));
    cbn; [done|done|lia].
Qed.

Example Read_until_EOF_witness :
  read_until_EOF 5 (NewChunkReader [Byte.x01; Byte.x02; Byte.x03; Byte.x04] 3) 2
  = Some [Byte.x01; Byte.x02; Byte.x03; Byte.x04].
Proof.
  apply (Read_until_EOF [Byte.x01; Byte.x02; Byte.x03; Byte.x04] 3 2); lia.
Defined.

(** With the chunk size 1 and more than one byte left, Read returns no
    bytes and no error and leaves the reader as it is, so that a loop that
    waits for data or for io.EOF does not end; with a chunk size below 1 and
    data left that exceeds it, Read panics. *)
Theorem Read_small_chunks (r : chunkReader) (n : nat) :
  (size r = 1 → (2 ≤ length (data r))%nat → Read r n = Returned [] None r) ∧
  (size r ≤ 0 → data r ≠ [] → Read r n = Panics).
Proof.
  unfold Read. split.
  - intros Hs Hl. repeat case_decide; try lia.
    rewrite Hs. cbn. rewrite take_0, take_nil. cbn. rewrite drop_0.
    destruct r as [d sz]. cbn in *. by subst.
  - intros Hs Hd. repeat case_decide; try lia; [|done].
    by destruct (data r).
Qed.

Example Read_small_chunks_witness :
  Read (NewChunkReader [Byte.x01; Byte.x02] 1) 8
  = Returned [] None (NewChunkReader [Byte.x01; Byte.x02] 1) ∧
  Read (NewChunkReader [Byte.x01] 0) 8 = Panics.
Proof.
  split.
  - apply (proj1 (Read_small_chunks (NewChunkReader [Byte.x01; Byte.x02] 1) 8));
      [reflexivity|cbn; lia].
  - apply (proj2 (Read_small_chunks (NewChunkReader [Byte.x01] 0) 8));
      [cbn; lia|done].
Defined.

End ChunkReaderTheory.

(** ** The capacity of the MPT state *)
Module Schema5Theory.
Import Schema5.

(** For a positive parameter the capacity is the 512th part of the
    parameter, but not less than the minimal capacity; it grows with the
    parameter. *)
Theorem mptStateCapacity_bounds (DefaultMptStateCapacity MinMptStateCapacity : Z)
    (param : Z) :
  0 < param →
  mptStateCapacity DefaultMptStateCapacity MinMptStateCapacity param
  = Z.max MinMptStateCapacity (param / 512) ∧
  MinMptStateCapacity
  ≤ mptStateCapacity DefaultMptStateCapacity MinMptStateCapacity param ∧
  (∀ param', param ≤ param' →
     mptStateCapacity DefaultMptStateCapacity MinMptStateCapacity param
     ≤ mptStateCapacity DefaultMptStateCapacity MinMptStateCapacity param').
Proof.
  intros Hp.
  assert (∀ q, 0 < q →
            mptStateCapacity DefaultMptStateCapacity MinMptStateCapacity q
            = Z.max MinMptStateCapacity (q / 512)) as Heq.
  { intros q Hq. unfold mptStateCapacity.
    rewrite decide_False by lia. cbn zeta.
    rewrite Z.quot_div_nonneg by lia. case_decide; lia. }
  split; [by apply Heq|]. split; [rewrite Heq by done; lia|].
  intros param' Hle. rewrite !Heq by lia.
  pose proof (Z.div_le_mono param param' 512). lia.
Qed.

Example mptStateCapacity_bounds_witness :
  mptStateCapacity 10000 2048 100 = 2048 ∧
  mptStateCapacity 10000 2048 4194304 = 8192 ∧
  mptStateCapacity 10000 2048 0 = 10000 ∧
  2048 ≤ mptStateCapacity 10000 2048 100.
Proof.
  split; [reflexivity|]. split; [reflexivity|]. split; [reflexivity|].
  exact (proj1 (proj2 (mptStateCapacity_bounds 10000 2048 100 ltac:(lia)))).
Defined.

End Schema5Theory.
